(** * Text-to-JSON agent: pointer codec, document tools, patch engine,
      tool dispatcher and chunk orchestrator

    A shallow embedding of the Python sources

      - [text_to_json/tools/json_pointer.py]
      - [tools/inspect_keys.py], [tools/read_value.py],
        [tools/search_pointer.py], [tools/apply_patches.py],
        [tools/update_guidance.py]
      - [agent/nodes.py], [agent/graph.py]

    Python objects live in a store indexed by object identity, so that
    in-place mutation, [copy.deepcopy] and [id(obj)] keep their meaning.
    Exceptions are results of an error monad. *)

From Stdlib Require Import ZArith Ascii String List Lia.
From stdpp Require Import base option list gmap strings pretty.

Open Scope string_scope.

#[local] Set Warnings "-register-all".

(** ** Python [str] operations *)

Module PyStr.

(** [s.startswith(p)] *)
Fixpoint startswith (p s : string) : bool :=
  match p, s with
  | EmptyString, _ => true
  | String a p', String b s' => if Ascii.eqb a b then startswith p' s' else false
  | String _ _, EmptyString => false
  end.

(** Scan of [s.replace(old, new)] for a non-empty [old]: occurrences are
    replaced left to right and never overlap; [skip] counts the
    characters of the occurrence just replaced that are still to be
    passed over. *)
Fixpoint replace_scan (old new s : string) (skip : nat) : string :=
  match s with
  | EmptyString => EmptyString
  | String c r =>
      match skip with
      | S k => replace_scan old new r k
      | O =>
          if startswith old s
          then new ++ replace_scan old new r (String.length old - 1)
          else String c (replace_scan old new r 0)
      end
  end.

(** With an empty [old] Python puts [new] before every character and at
    the end. *)
Fixpoint intersperse_all (new s : string) : string :=
  match s with
  | EmptyString => new
  | String c r => new ++ String c (intersperse_all new r)
  end.

(** [s.replace(old, new)] *)
Definition replace (old new s : string) : string :=
  match old with
  | EmptyString => intersperse_all new s
  | _ => replace_scan old new s 0
  end.

End PyStr.

(** ** Pointer codec ([text_to_json/tools/json_pointer.py]) *)

(** [token.replace("~1", "/").replace("~0", "~")] *)
Definition decode_pointer_token (token : string) : string :=
  PyStr.replace "~0" "~" (PyStr.replace "~1" "/" token).

(** [str(token).replace("~", "~0").replace("/", "~1")] *)
Definition encode_pointer_token (token : string) : string :=
  PyStr.replace "/" "~1" (PyStr.replace "~" "~0" token).

(** [s.split(sep)] for a one-character separator. *)
Fixpoint split_on (sep : ascii) (s : string) : list string :=
  match s with
  | EmptyString => [EmptyString]
  | String c r =>
      if Ascii.eqb c sep then EmptyString :: split_on sep r
      else match split_on sep r with
           | [] => [String c EmptyString]
           | w :: ws => String c w :: ws
           end
  end.

(** [parse_json_pointer]: [None] stands for the [ValueError]. *)
Definition parse_json_pointer (path : string) : option (list string) :=
  if decide (path = "" ∨ path = "/") then Some []
  else if PyStr.startswith "/" path
       then Some (decode_pointer_token <$> tail (split_on "/" path))
       else None.

(** [parse_json_pointer_lenient] on a [str] argument. *)
Definition parse_json_pointer_lenient (path : string) : list string :=
  if decide (path = "" ∨ path = "/") then []
  else let path := if PyStr.startswith "/" path then path else "/" ++ path in
       decode_pointer_token <$> tail (split_on "/" path).

(** [join_pointer] *)
Definition join_pointer (base token : string) : string :=
  let escaped := encode_pointer_token token in
  if decide (base = "") then "/" ++ escaped else base ++ "/" ++ escaped.

(** ** Python values and the object store *)

(** Object identities ([id(obj)]). *)
Definition loc := positive.

(** A Python value: an immutable scalar, a reference to a [dict] or
    [list] object of the store, or a [jsonpointer.EndOfList] wrapper.
    A [float] is carried by its [repr]. *)
Inductive val : Type :=
| VNone
| VBool (b : bool)
| VInt (z : Z)
| VFloat (repr : string)
| VStr (s : string)
| VRef (l : loc)
| VEndOfList (list_ : val).

(** A mutable object: a [dict] with string keys in insertion order, or a
    [list]. *)
Inductive obj : Type :=
| ODict (items : list (string * val))
| OList (items : list val).

Abbreviation heap := (gmap loc obj).

(** Freshly built, unshared data: what [json.loads] returns and what the
    read-only tools build for their answers. *)
Inductive tree : Type :=
| Leaf (v : val)
| TList (xs : list tree)
| TDict (kvs : list (string * tree)).

#[global] Instance val_eq_dec : EqDecision val.
Proof. solve_decision. Defined.

#[global] Instance obj_eq_dec : EqDecision obj.
Proof. solve_decision. Defined.

(** Exception classes raised by the code and by the [jsonpointer] and
    [jsonpatch] libraries. [JsonPatchConflict] and [InvalidJsonPatch] are
    subclasses of [JsonPatchException]. *)
Inductive exn : Type :=
| JsonPointerException
| JsonPatchConflict
| InvalidJsonPatch
| TypeError
| AttributeError
| KeyError
| IndexError.

#[global] Instance exn_eq_dec : EqDecision exn.
Proof. solve_decision. Defined.

Inductive res (A : Type) : Type :=
| Ok (a : A)
| Raise (e : exn).
Arguments Ok {A} a.
Arguments Raise {A} e.

(** Read-only computations: [None] is a computation the model gives no
    meaning to (a reference to no object, or recursion deeper than the
    depth it was given). *)
Definition E (A : Type) : Type := option (res A).

#[global] Instance E_ret : MRet E := λ A a, Some (Ok a).
#[global] Instance E_bind : MBind E := λ A B f m,
  match m with
  | Some (Ok a) => f a
  | Some (Raise e) => Some (Raise e)
  | None => None
  end.

Definition e_raise {A} (e : exn) : E A := Some (Raise e).

(** Computations on the store. A raised exception keeps the store as it
    was when it was raised. *)
Definition M (A : Type) : Type := heap → option (res A * heap).

#[global] Instance M_ret : MRet M := λ A a h, Some (Ok a, h).
#[global] Instance M_bind : MBind M := λ A B f m h,
  match m h with
  | Some (Ok a, h') => f a h'
  | Some (Raise e, h') => Some (Raise e, h')
  | None => None
  end.

Definition m_raise {A} (e : exn) : M A := λ h, Some (Raise e, h).
Definition m_stuck {A} : M A := λ _, None.

(** Run a read-only computation in the current store. *)
Definition m_read {A} (f : heap → E A) : M A := λ h,
  match f h with
  | Some r => Some (r, h)
  | None => None
  end.

(** [try: m except <classes in handles>: handler] *)
Definition m_try {A} (m : M A) (handles : exn → bool) (handler : exn → M A) : M A :=
  λ h, match m h with
       | Some (Raise e, h') => if handles e then handler e h' else Some (Raise e, h')
       | r => r
       end.

(** Allocation of a new object. *)
Definition m_alloc (o : obj) : M loc := λ h,
  let l := fresh (dom h) in Some (Ok l, <[l := o]> h).

Definition m_load (l : loc) : M obj := λ h,
  match h !! l with
  | Some o => Some (Ok o, h)
  | None => None
  end.

Definition m_store (l : loc) (o : obj) : M unit := λ h,
  match h !! l with
  | Some _ => Some (Ok tt, <[l := o]> h)
  | None => None
  end.

(** *** [dict] and [list] primitives *)

Fixpoint dict_get (k : string) (kvs : list (string * val)) : option val :=
  match kvs with
  | [] => None
  | (k', v) :: r => if decide (k = k') then Some v else dict_get k r
  end.

(** [d[k] = v]: an existing key keeps its place. *)
Fixpoint dict_set (k : string) (v : val) (kvs : list (string * val)) : list (string * val) :=
  match kvs with
  | [] => [(k, v)]
  | (k', v') :: r => if decide (k = k') then (k, v) :: r else (k', v') :: dict_set k v r
  end.

(** [del d[k]], for a key that is there. *)
Fixpoint dict_del (k : string) (kvs : list (string * val)) : list (string * val) :=
  match kvs with
  | [] => []
  | (k', v') :: r => if decide (k = k') then r else (k', v') :: dict_del k r
  end.

(** [l.insert(i, v)] for [0 <= i <= len(l)]. *)
Definition list_insert_at {A} (i : nat) (v : A) (l : list A) : list A :=
  (take i l ++ v :: drop i l)%list.

(** [seq[:n]] with Python's reading of a negative bound. *)
Definition slice_to {A} (n : Z) (l : list A) : list A :=
  if (0 <=? n)%Z then take (Z.to_nat n) l
  else take (Z.to_nat (Z.of_nat (length l) + n)) l.

Definition str_slice_to (n : Z) (s : string) : string :=
  string_of_list_ascii (slice_to n (list_ascii_of_string s)).

(** [len(s)] as a Python [int]. *)
Definition str_len (s : string) : Z := Z.of_nat (String.length s).
Definition list_len {A} (l : list A) : Z := Z.of_nat (length l).

(** [str(n)] for an [int]. *)
Definition str_of_int (z : Z) : string := pretty z.

(** What the code takes from the Python runtime without it being part of
    the program: [repr] of a value (used by [str] of an [EndOfList]) and
    the rendering of the set [valid_ops] in an error message. *)
Class PyRuntime : Type := {
  py_repr : heap → val → string;
  valid_ops_repr : string;
}.

(** [str(value)] for a value that is neither a [dict] nor a [list]. *)
Definition py_str `{PyRuntime} (h : heap) (v : val) : string :=
  match v with
  | VNone => "None"
  | VBool true => "True"
  | VBool false => "False"
  | VInt z => str_of_int z
  | VFloat r => r
  | VStr s => s
  | VRef _ => py_repr h v
  | VEndOfList l => "EndOfList(" ++ py_repr h l ++ ")"
  end.

(** [isinstance] tests of a value, with the object behind a reference. *)
Inductive pyclass : Type :=
| CDict (items : list (string * val))
| CList (items : list val)
| CStr (s : string)
| COther.

Definition classify (h : heap) (v : val) : option pyclass :=
  match v with
  | VRef l =>
      match h !! l with
      | Some (ODict kvs) => Some (CDict kvs)
      | Some (OList xs) => Some (CList xs)
      | None => None
      end
  | VStr s => Some (CStr s)
  | _ => Some COther
  end.

(** [type(value).__name__] *)
Definition type_name (h : heap) (v : val) : option string :=
  match v with
  | VNone => Some "NoneType"
  | VBool _ => Some "bool"
  | VInt _ => Some "int"
  | VFloat _ => Some "float"
  | VStr _ => Some "str"
  | VEndOfList _ => Some "EndOfList"
  | VRef l =>
      match h !! l with
      | Some (ODict _) => Some "dict"
      | Some (OList _) => Some "list"
      | None => None
      end
  end.

(** [isinstance(value, (dict, list))] *)
Definition is_compound (h : heap) (v : val) : option bool :=
  match v with
  | VRef l => match h !! l with Some _ => Some true | None => None end
  | _ => Some false
  end.

(** ** The [jsonpointer] library (RFC 6901)

    [JsonPointer(pointer)], [get_part], [walk], [to_last], [resolve] and
    [resolve_pointer], with the exceptions the library documents. *)

Module jsonpointer.

(** A step of a pointer once typed by [get_part]: a mapping key, a
    sequence index, or ["-"]. *)
Inductive part : Type :=
| PKey (k : string)
| PIndex (n : nat)
| PEnd.

(** A [~] that is not followed by [0] or [1]. *)
Fixpoint has_invalid_escape (s : string) : bool :=
  match s with
  | EmptyString => false
  | String c r =>
      if Ascii.eqb c "~"
      then match r with
           | String d _ =>
               if Ascii.eqb d "0" || Ascii.eqb d "1"
               then has_invalid_escape r else true
           | EmptyString => true
           end
      else has_invalid_escape r
  end.

Definition unescape (s : string) : string :=
  PyStr.replace "~0" "~" (PyStr.replace "~1" "/" s).

(** [JsonPointer(pointer).parts] *)
Definition JsonPointer (pointer : string) : res (list string) :=
  if has_invalid_escape pointer then Raise JsonPointerException
  else match split_on "/" pointer with
       | p0 :: parts =>
           if decide (p0 = "") then Ok (unescape <$> parts)
           else Raise JsonPointerException
       | [] => Raise JsonPointerException
       end.

Definition digit_of (c : ascii) : option nat :=
  let n := nat_of_ascii c in
  if ((48 <=? n) && (n <=? 57))%nat then Some (n - 48) else None.

Fixpoint parse_digits (acc : nat) (s : string) : option nat :=
  match s with
  | EmptyString => Some acc
  | String c r =>
      match digit_of c with
      | Some d => parse_digits (10 * acc + d) r
      | None => None
      end
  end.

(** An array index: [0], or digits that do not start with [0]. *)
Definition parse_index (s : string) : option nat :=
  match s with
  | EmptyString => None
  | String c r =>
      if Ascii.eqb c "0"
      then match r with EmptyString => Some 0 | _ => None end
      else parse_digits 0 s
  end.

Definition seq_part (p : string) : E part :=
  if decide (p = "-") then mret PEnd
  else match parse_index p with
       | Some n => mret (PIndex n)
       | None => e_raise JsonPointerException
       end.

(** [JsonPointer.get_part(doc, part)]: a [str] is a [Sequence]. *)
Definition get_part (h : heap) (doc : val) (p : string) : E part :=
  match classify h doc with
  | None => None
  | Some (CDict _) => mret (PKey p)
  | Some (CList _) | Some (CStr _) => seq_part p
  | Some COther => e_raise JsonPointerException
  end.

(** [JsonPointer.walk(doc, part)] *)
Definition walk (h : heap) (doc : val) (p : string) : E val :=
  match classify h doc with
  | None => None
  | Some (CDict kvs) =>
      match dict_get p kvs with
      | Some v => mret v
      | None => e_raise JsonPointerException
      end
  | Some (CList xs) =>
      pt ← seq_part p;
      match pt with
      | PEnd => mret (VEndOfList doc)
      | PIndex n =>
          match xs !! n with
          | Some v => mret v
          | None => e_raise JsonPointerException
          end
      | PKey _ => None
      end
  | Some (CStr s) =>
      pt ← seq_part p;
      match pt with
      | PEnd => mret (VEndOfList doc)
      | PIndex n =>
          match String.get n s with
          | Some c => mret (VStr (String c EmptyString))
          | None => e_raise JsonPointerException
          end
      | PKey _ => None
      end
  | Some COther => e_raise JsonPointerException
  end.

(** [JsonPointer.resolve(doc)] without a default. *)
Fixpoint resolve (h : heap) (doc : val) (parts : list string) : E val :=
  match parts with
  | [] => mret doc
  | p :: rest => d ← walk h doc p; resolve h d rest
  end.

(** [JsonPointer.to_last(doc)] *)
Fixpoint to_last (h : heap) (doc : val) (parts : list string) : E (val * option part) :=
  match parts with
  | [] => mret (doc, None)
  | [p] => pt ← get_part h doc p; mret (doc, Some pt)
  | p :: rest => d ← walk h doc p; to_last h d rest
  end.

(** [jsonpointer.resolve_pointer(doc, pointer)] *)
Definition resolve_pointer (h : heap) (doc : val) (pointer : string) : E val :=
  match JsonPointer pointer with
  | Ok parts => resolve h doc parts
  | Raise e => e_raise e
  end.

End jsonpointer.

(** ** [tools/inspect_keys.py] *)

Inductive inspect_result : Type :=
| InspectNotFound (error : exn) (path : string)
| InspectObject (path : string) (keys : list string) (count : Z)
| InspectArray (path : string) (length : Z)
| InspectValue (path : string) (type : string) (value : string).

(** The [try] block shared by [inspect_keys] and [read_value]: the root
    for [""] and ["/"], else [resolve_pointer]. *)
Definition resolve_or_root (h : heap) (document : val) (path : string) : E val :=
  if decide (path = "" ∨ path = "/") then mret document
  else jsonpointer.resolve_pointer h document path.

Definition inspect_keys `{PyRuntime} (h : heap) (document : val) (path : string)
  : E inspect_result :=
  let path := if decide (path = "") then "" else path in
  match resolve_or_root h document path with
  | None => None
  | Some (Raise JsonPointerException) =>
      mret (InspectNotFound JsonPointerException path)
  | Some (Raise e) => e_raise e
  | Some (Ok value) =>
      match classify h value with
      | None => None
      | Some (CDict kvs) =>
          let keys := kvs.*1 in
          mret (InspectObject path keys (list_len keys))
      | Some (CList xs) => mret (InspectArray path (list_len xs))
      | _ =>
          match type_name h value with
          | None => None
          | Some tn =>
              let str_value := py_str h value in
              let str_value :=
                if (100 <? str_len str_value)%Z
                then str_slice_to 100 str_value ++ "..."
                else str_value in
              mret (InspectValue path tn str_value)
          end
      end
  end.

(** ** [tools/read_value.py] *)

(** A list comprehension whose element expression may raise. *)
Fixpoint e_mapM {A B} (f : A → E B) (l : list A) : E (list B) :=
  match l with
  | [] => mret []
  | a :: r => b ← f a; bs ← e_mapM f r; mret (b :: bs)
  end.

(** [d[k] = v] on a dictionary under construction. *)
Fixpoint tdict_set (k : string) (v : tree) (kvs : list (string * tree)) : list (string * tree) :=
  match kvs with
  | [] => [(k, v)]
  | (k', v') :: r => if decide (k = k') then (k, v) :: r else (k', v') :: tdict_set k v r
  end.

(** [_truncate_value]. The recursion goes one level down per call and
    stops at [max_depth]; [fuel] bounds the number of levels. The keys of
    a [dict] are pairwise distinct, so [value[k]] for [k] in a slice of
    the keys is the value paired with [k]. *)
Fixpoint _truncate_value (fuel : nat) (h : heap) (value : val)
    (max_string_length max_depth max_array_items max_object_keys current_depth : Z)
  : E tree :=
  if (max_depth <=? current_depth)%Z then
    match classify h value with
    | None => None
    | Some (CDict kvs) =>
        mret (Leaf (VStr ("{...} (" ++ str_of_int (list_len kvs) ++ " keys)")))
    | Some (CList xs) =>
        mret (Leaf (VStr ("[...] (" ++ str_of_int (list_len xs) ++ " items)")))
    | Some (CStr s) =>
        if (max_string_length <? str_len s)%Z
        then mret (Leaf (VStr (str_slice_to max_string_length s ++ "...")))
        else mret (Leaf value)
    | Some COther => mret (Leaf value)
    end
  else
    match classify h value with
    | None => None
    | Some (CStr s) =>
        if (max_string_length <? str_len s)%Z
        then mret (Leaf (VStr (str_slice_to max_string_length s
                                 ++ "... (" ++ str_of_int (str_len s) ++ " chars total)")))
        else mret (Leaf value)
    | Some (CDict kvs) =>
        match fuel with
        | O => None
        | S fuel' =>
            let go (kv : string * val) : E (string * tree) :=
              t ← _truncate_value fuel' h kv.2 max_string_length max_depth
                     max_array_items max_object_keys (current_depth + 1);
              mret (kv.1, t) in
            if (max_object_keys <? list_len kvs)%Z then
              truncated ← e_mapM go (slice_to max_object_keys kvs);
              mret (TDict (tdict_set "__truncated__"
                             (Leaf (VStr (str_of_int (list_len kvs - max_object_keys)
                                            ++ " more keys")))
                             truncated))
            else
              truncated ← e_mapM go kvs; mret (TDict truncated)
        end
    | Some (CList xs) =>
        match fuel with
        | O => None
        | S fuel' =>
            let go (item : val) : E tree :=
              _truncate_value fuel' h item max_string_length max_depth
                max_array_items max_object_keys (current_depth + 1) in
            if (max_array_items <? list_len xs)%Z then
              truncated ← e_mapM go (slice_to max_array_items xs);
              mret (TList (truncated ++
                             [Leaf (VStr ("... (" ++ str_of_int (list_len xs - max_array_items)
                                            ++ " more items)"))]))
            else
              truncated ← e_mapM go xs; mret (TList truncated)
        end
    | Some COther => mret (Leaf value)
    end.

Inductive read_result : Type :=
| ReadNotFound (error : exn) (path : string)
| ReadFound (path : string) (value : tree) (type : string).

(** [read_value]; [_truncate_value] starts at depth [0], so [max_depth]
    levels are all it can go down. *)
Definition read_value (h : heap) (document : val) (path : string)
    (max_string_length max_depth max_array_items max_object_keys : Z)
  : E read_result :=
  match resolve_or_root h document path with
  | None => None
  | Some (Raise JsonPointerException) =>
      mret (ReadNotFound JsonPointerException path)
  | Some (Raise e) => e_raise e
  | Some (Ok value) =>
      truncated_value ← _truncate_value (Z.to_nat max_depth) h value
                          max_string_length max_depth max_array_items
                          max_object_keys 0;
      match type_name h value with
      | None => None
      | Some tn => mret (ReadFound path truncated_value tn)
      end
  end.

(** ** [tools/search_pointer.py] *)

(** [_escape_pointer_token] *)
Definition _escape_pointer_token (token : string) : string :=
  PyStr.replace "/" "~1" (PyStr.replace "~" "~0" token).

(** [str.lower()] on the letters [A]-[Z]. *)
Definition lower_ascii (c : ascii) : ascii :=
  let n := nat_of_ascii c in
  if ((65 <=? n) && (n <=? 90))%nat then ascii_of_nat (n + 32) else c.

Fixpoint lower (s : string) : string :=
  match s with
  | EmptyString => EmptyString
  | String c r => String (lower_ascii c) (lower r)
  end.

(** [needle in text] *)
Fixpoint contains (needle text : string) : bool :=
  PyStr.startswith needle text ||
  match text with
  | EmptyString => false
  | String _ r => contains needle r
  end.

(** White space for [str.split()]. *)
Definition is_space (c : ascii) : bool :=
  let n := nat_of_ascii c in
  ((9 <=? n) && (n <=? 13) || (28 <=? n) && (n <=? 32))%nat.

(** [s.split()]: [cur] is the word being read, reversed. *)
Fixpoint split_ws_aux (s : string) (cur : list ascii) : list string :=
  let flush := match cur with
               | [] => []
               | _ => [string_of_list_ascii (rev cur)]
               end in
  match s with
  | EmptyString => flush
  | String c r =>
      if is_space c then (flush ++ split_ws_aux r [])%list
      else split_ws_aux r (c :: cur)
  end.

Definition split_ws (s : string) : list string := split_ws_aux s [].

(** [_matches] *)
Definition _matches (text query : string) (fuzzy : bool) : bool :=
  if decide (query = "") then true
  else
    let text_lower := lower text in
    let query_lower := lower query in
    if fuzzy then forallb (λ word, contains word text_lower) (split_ws query_lower)
    else contains query_lower text_lower.

(** [_preview_value] *)
Definition _preview_value `{PyRuntime} (h : heap) (value : val) (max_length : Z)
  : option string :=
  match classify h value with
  | None => None
  | Some (CDict kvs) => Some ("{...} (" ++ str_of_int (list_len kvs) ++ " keys)")
  | Some (CList xs) => Some ("[...] (" ++ str_of_int (list_len xs) ++ " items)")
  | _ =>
      let str_val := py_str h value in
      if (max_length <? str_len str_val)%Z
      then Some (str_slice_to max_length str_val ++ "...")
      else Some str_val
  end.

(** An entry of [matches]. *)
Inductive search_match : Type :=
| KeyMatch (pointer key value_preview : string)
| ValueMatch (pointer matched_value : string).

(** The state [_search_recursive] works on: the list [matches] and the
    set [seen], both mutated in place by the Python code. *)
Definition search_state : Type := list search_match * gset loc.

Section search.
Context `{PyRuntime}.
Variables (h : heap) (query search_type : string) (fuzzy : bool)
          (limit max_value_length : Z).

(** The body of the [for key, value in obj.items()] loop, after the
    limit test, up to the recursive call. *)
Definition dict_item_match (new_path key : string) (value : val)
    (matches : list search_match) : option (list search_match) :=
  if decide (search_type = "key") then
    if _matches key query fuzzy then
      value_preview ← _preview_value h value max_value_length;
      Some (matches ++ [KeyMatch new_path key value_preview])%list
    else Some matches
  else
    c ← is_compound h value;
    if bool_decide (search_type = "value") && negb c then
      if _matches (py_str h value) query fuzzy then
        Some (matches ++ [ValueMatch new_path
                            (str_slice_to max_value_length (py_str h value))])%list
      else Some matches
    else Some matches.

(** The same for [for idx, item in enumerate(obj)]. *)
Definition list_item_match (new_path : string) (item : val)
    (matches : list search_match) : option (list search_match) :=
  c ← is_compound h item;
  if bool_decide (search_type = "value") && negb c then
    if _matches (py_str h item) query fuzzy then
      Some (matches ++ [ValueMatch new_path
                          (str_slice_to max_value_length (py_str h item))])%list
    else Some matches
  else Some matches.

(** The loop [for key, value in obj.items()], with the recursive call
    as [recur]. *)
Fixpoint search_dict_items
    (recur : val → string → search_state → option (bool * search_state))
    (current_path : string) (kvs : list (string * val)) (st : search_state)
  : option (bool * search_state) :=
  match kvs with
  | [] => Some (false, st)
  | (key, value) :: rest =>
      if (limit <=? list_len st.1)%Z then Some (true, st)
      else
        let new_path := current_path ++ "/" ++ _escape_pointer_token key in
        matches ← dict_item_match new_path key value st.1;
        c ← is_compound h value;
        if c : bool then
          r ← recur value new_path (matches, st.2);
          if r.1 : bool then Some (true, r.2)
          else search_dict_items recur current_path rest r.2
        else search_dict_items recur current_path rest (matches, st.2)
  end.

(** The loop [for idx, item in enumerate(obj)]. *)
Fixpoint search_list_items
    (recur : val → string → search_state → option (bool * search_state))
    (current_path : string) (idx : nat) (xs : list val) (st : search_state)
  : option (bool * search_state) :=
  match xs with
  | [] => Some (false, st)
  | item :: rest =>
      if (limit <=? list_len st.1)%Z then Some (true, st)
      else
        let new_path := current_path ++ "/" ++ pretty idx in
        matches ← list_item_match new_path item st.1;
        c ← is_compound h item;
        if c : bool then
          r ← recur item new_path (matches, st.2);
          if r.1 : bool then Some (true, r.2)
          else search_list_items recur current_path (S idx) rest r.2
        else search_list_items recur current_path (S idx) rest (matches, st.2)
  end.

(** [_search_recursive]: returns the flag together with the final
    [matches] and [seen]. [fuel] bounds the depth of the recursion. *)
Fixpoint _search_recursive (fuel : nat) (obj : val) (current_path : string)
    (st : search_state) : option (bool * search_state) :=
  if (limit <=? list_len st.1)%Z then Some (true, st)
  else
    match obj with
    | VRef l =>
        if decide (l ∈ st.2) then Some (false, st)
        else
          match h !! l, fuel with
          | None, _ => None
          | Some _, O => None
          | Some (ODict kvs), S fuel' =>
              search_dict_items (_search_recursive fuel') current_path kvs
                (st.1, {[l]} ∪ st.2)
          | Some (OList xs), S fuel' =>
              search_list_items (_search_recursive fuel') current_path 0 xs
                (st.1, {[l]} ∪ st.2)
          end
    | _ => Some (false, st)
    end.

End search.

Record search_result : Type := {
  sr_query : string;
  sr_type : string;
  sr_fuzzy : bool;
  sr_matches : list search_match;
  sr_count : Z;
  sr_truncated : bool;
}.

(** [search_pointer]. Every call of [_search_recursive] that goes down a
    level has put a new object into [seen], so the objects of the store
    bound the depth. *)
Definition search_pointer `{PyRuntime} (h : heap) (document : val) (query search_type : string)
    (fuzzy_match : bool) (limit max_value_length : Z) : option search_result :=
  r ← _search_recursive h query search_type fuzzy_match limit max_value_length
         (size h) document "" ([], ∅);
  Some {| sr_query := query; sr_type := search_type; sr_fuzzy := fuzzy_match;
          sr_matches := r.2.1; sr_count := list_len r.2.1; sr_truncated := r.1 |}.

(** ** The [jsonpatch] library (RFC 6902)

    [JsonPatch(patch).apply(obj)] with [in_place=False]: the operations
    are built first (which parses every [path]), the document is
    deep-copied, and the operations then mutate the copy in place, one
    after the other. *)

Module jsonpatch.
Import jsonpointer.

(** One patch operation: the members of the [dict] that are read. *)
Record operation : Type := {
  op_op : option val;
  op_path : option val;
  op_value : option val;
  op_from : option val;
}.

(** The loops of [copy.deepcopy] over the items of a [list] and of a
    [dict]: each copy is put into the new object [y] as soon as it is
    made. *)
Fixpoint deepcopy_list_items
    (recur : val → gmap loc loc → M (val * gmap loc loc))
    (y : loc) (xs : list val) (memo : gmap loc loc) : M (gmap loc loc) :=
  match xs with
  | [] => mret memo
  | a :: rest =>
      r ← recur a memo;
      o ← m_load y;
      match o with
      | OList ys =>
          m_store y (OList (ys ++ [r.1])%list);;
          deepcopy_list_items recur y rest r.2
      | ODict _ => m_stuck
      end
  end.

Fixpoint deepcopy_dict_items
    (recur : val → gmap loc loc → M (val * gmap loc loc))
    (y : loc) (kvs : list (string * val)) (memo : gmap loc loc) : M (gmap loc loc) :=
  match kvs with
  | [] => mret memo
  | (k, v) :: rest =>
      r ← recur v memo;
      o ← m_load y;
      match o with
      | ODict ys =>
          m_store y (ODict (dict_set k r.1 ys));;
          deepcopy_dict_items recur y rest r.2
      | OList _ => m_stuck
      end
  end.

(** [copy.deepcopy(x, memo)]: scalars are shared, a [list] or [dict]
    already in [memo] is not copied again, and a new object enters
    [memo] before its items are copied. [fuel] bounds the depth. *)
Fixpoint deepcopy (fuel : nat) (x : val) (memo : gmap loc loc)
  : M (val * gmap loc loc) :=
  match x with
  | VRef l =>
      match memo !! l with
      | Some y => mret (VRef y, memo)
      | None =>
          match fuel with
          | O => m_stuck
          | S fuel' =>
              o ← m_load l;
              match o with
              | OList xs =>
                  y ← m_alloc (OList []);
                  memo' ← deepcopy_list_items (deepcopy fuel') y xs (<[l := y]> memo);
                  mret (VRef y, memo')
              | ODict kvs =>
                  y ← m_alloc (ODict []);
                  memo' ← deepcopy_dict_items (deepcopy fuel') y kvs (<[l := y]> memo);
                  mret (VRef y, memo')
              end
          end
      end
  | VEndOfList inner =>
      match fuel with
      | O => m_stuck
      | S fuel' =>
          r ← deepcopy fuel' inner memo;
          mret (VEndOfList r.1, r.2)
      end
  | _ => mret (x, memo)
  end.

(** [copy.deepcopy(x)]: no chain of objects is longer than the store. *)
Definition copy_deepcopy (x : val) : M val := λ h,
  (r ← deepcopy (S (size h)) x ∅; mret r.1) h.

(** [JsonPointer(p)] for a member of the operation: a value that is not
    a [str] is a [TypeError] of the regular expression search. *)
Definition pointer_of (p : val) : res (list string) :=
  match p with
  | VStr s => JsonPointer s
  | _ => Raise TypeError
  end.

(** [subobj.append(value)] / [subobj.insert(part, value)] *)
Definition list_update (l : loc) (f : list val → list val) : M unit :=
  o ← m_load l;
  match o with
  | OList xs => m_store l (OList (f xs))
  | ODict _ => m_stuck
  end.

Definition dict_update (l : loc) (f : list (string * val) → list (string * val)) : M unit :=
  o ← m_load l;
  match o with
  | ODict kvs => m_store l (ODict (f kvs))
  | OList _ => m_stuck
  end.

(** The class of a value in the current store. *)
Definition class_of (v : val) : M pyclass := λ h,
  match classify h v with
  | Some c => Some (Ok c, h)
  | None => None
  end.

(** The object behind [subobj], when it is a [dict] or a [list]. *)
Definition subobj_loc (v : val) : M loc :=
  match v with
  | VRef l => mret l
  | _ => m_stuck
  end.

(** [AddOperation.apply(obj)] for the pointer [parts] and the value
    [value]: returns the new root. The value is stored as it is, not a
    copy of it. *)
Definition add_apply (parts : list string) (value : val) (obj : val) : M val :=
  sp ← m_read (λ h, to_last h obj parts);
  let '(subobj, part) := sp in
  c ← class_of subobj;
  match c with
  | CList xs =>
      l ← subobj_loc subobj;
      match part with
      | Some PEnd => list_update l (λ xs, (xs ++ [value])%list);; mret obj
      | Some (PIndex n) =>
          if decide (length xs < n)%nat then m_raise JsonPatchConflict
          else list_update l (list_insert_at n value);; mret obj
      | Some (PKey _) => m_stuck
      | None => m_raise TypeError
      end
  | CDict kvs =>
      l ← subobj_loc subobj;
      match part with
      | None => mret value
      | Some (PKey k) => dict_update l (dict_set k value);; mret obj
      | Some _ => m_stuck
      end
  | _ =>
      match part with
      | None => m_raise TypeError
      | Some _ => m_raise JsonPatchConflict
      end
  end.

(** [RemoveOperation.apply(obj)] *)
Definition remove_apply (parts : list string) (obj : val) : M val :=
  sp ← m_read (λ h, to_last h obj parts);
  let '(subobj, part) := sp in
  c ← class_of subobj;
  match c with
  | CList xs =>
      l ← subobj_loc subobj;
      match part with
      | Some (PIndex n) =>
          if decide (n < length xs)%nat
          then list_update l (λ xs, (take n xs ++ drop (S n) xs)%list);; mret obj
          else m_raise JsonPatchConflict
      | _ => m_raise JsonPointerException
      end
  | CStr _ =>
      match part with
      | Some (PIndex _) => m_raise TypeError
      | _ => m_raise JsonPointerException
      end
  | CDict kvs =>
      l ← subobj_loc subobj;
      match part with
      | Some (PKey k) =>
          match dict_get k kvs with
          | Some _ => dict_update l (dict_del k);; mret obj
          | None => m_raise JsonPatchConflict
          end
      | None => m_raise JsonPatchConflict
      | Some _ => m_stuck
      end
  | COther => m_raise TypeError
  end.

(** [part == "-"] *)
Definition part_is_dash (pt : part) : bool :=
  match pt with
  | PEnd => true
  | PKey k => bool_decide (k = "-")
  | PIndex _ => false
  end.

(** [ReplaceOperation.apply(obj)] *)
Definition replace_apply (parts : list string) (value : val) (obj : val) : M val :=
  sp ← m_read (λ h, to_last h obj parts);
  let '(subobj, part) := sp in
  match part with
  | None => mret value
  | Some pt =>
      if part_is_dash pt then m_raise InvalidJsonPatch else
      c ← class_of subobj;
      match c, pt with
      | CList xs, PIndex n =>
          l ← subobj_loc subobj;
          if decide (n < length xs)%nat
          then list_update l (λ xs, <[n := value]> xs);; mret obj
          else m_raise JsonPatchConflict
      | CDict kvs, PKey k =>
          l ← subobj_loc subobj;
          match dict_get k kvs with
          | Some _ => dict_update l (dict_set k value);; mret obj
          | None => m_raise JsonPatchConflict
          end
      | CList _, _ | CDict _, _ => m_stuck
      | _, _ => m_raise JsonPatchConflict
      end
  end.

(** [value = subobj[part]] of [MoveOperation] and [CopyOperation], with
    its [except (KeyError, IndexError)] clause. *)
Definition get_item (subobj : val) (part : option part) : M val :=
  c ← class_of subobj;
  match c, part with
  | CDict kvs, Some (PKey k) =>
      match dict_get k kvs with
      | Some v => mret v
      | None => m_raise JsonPatchConflict
      end
  | CDict _, None => m_raise JsonPatchConflict
  | CDict _, Some _ => m_stuck
  | CList xs, Some (PIndex n) =>
      match xs !! n with
      | Some v => mret v
      | None => m_raise JsonPatchConflict
      end
  | CStr s, Some (PIndex n) =>
      match String.get n s with
      | Some ch => mret (VStr (String ch EmptyString))
      | None => m_raise JsonPatchConflict
      end
  | _, _ => m_raise TypeError
  end.

(** [self.operation['from']] turned into a pointer. *)
Definition from_pointer (o : operation) : M (list string) :=
  match op_from o with
  | None => m_raise InvalidJsonPatch
  | Some p =>
      match pointer_of p with
      | Ok parts => mret parts
      | Raise e => m_raise e
      end
  end.

(** [self.pointer.contains(from_ptr)] *)
Definition pointer_contains (self_parts from_parts : list string) : bool :=
  bool_decide (take (length from_parts) self_parts = from_parts).

(** [MoveOperation.apply(obj)] *)
Definition move_apply (o : operation) (parts : list string) (obj : val) : M val :=
  from_parts ← from_pointer o;
  sp ← m_read (λ h, to_last h obj from_parts);
  let '(subobj, part) := sp in
  value ← get_item subobj part;
  if decide (parts = from_parts) then mret obj
  else
    c ← class_of subobj;
    if match c with CDict _ => pointer_contains parts from_parts | _ => false end
    then m_raise JsonPatchConflict
    else
      obj ← remove_apply from_parts obj;
      add_apply parts value obj.

(** [CopyOperation.apply(obj)] *)
Definition copy_apply (o : operation) (parts : list string) (obj : val) : M val :=
  from_parts ← from_pointer o;
  sp ← m_read (λ h, to_last h obj from_parts);
  let '(subobj, part) := sp in
  item ← get_item subobj part;
  value ← copy_deepcopy item;
  add_apply parts value obj.

(** The [value] member of [add] and [replace]. *)
Definition value_member (o : operation) : M val :=
  match op_value o with
  | Some v => mret v
  | None => m_raise InvalidJsonPatch
  end.

(** An operation once built by [JsonPatch._get_operation]: its kind and
    its parsed [path]. *)
Inductive op_kind : Type := OpAdd | OpRemove | OpReplace | OpMove | OpCopy | OpTest.

Definition kind_of (name : string) : option op_kind :=
  if decide (name = "add") then Some OpAdd
  else if decide (name = "remove") then Some OpRemove
  else if decide (name = "replace") then Some OpReplace
  else if decide (name = "move") then Some OpMove
  else if decide (name = "copy") then Some OpCopy
  else if decide (name = "test") then Some OpTest
  else None.

(** [JsonPatch._get_operation(operation)] *)
Definition get_operation (o : operation) : res (op_kind * list string) :=
  match op_op o with
  | Some (VStr name) =>
      match kind_of name with
      | None => Raise InvalidJsonPatch
      | Some k =>
          match op_path o with
          | None => Raise InvalidJsonPatch
          | Some (VStr s) =>
              match JsonPointer s with
              | Ok parts => Ok (k, parts)
              | Raise e => Raise e
              end
          | Some _ => Raise InvalidJsonPatch
          end
      end
  | _ => Raise InvalidJsonPatch
  end.

Fixpoint get_operations (patch : list operation)
  : res (list (operation * op_kind * list string)) :=
  match patch with
  | [] => Ok []
  | o :: rest =>
      match get_operation o with
      | Raise e => Raise e
      | Ok (k, parts) =>
          match get_operations rest with
          | Raise e => Raise e
          | Ok ops => Ok ((o, k, parts) :: ops)
          end
      end
  end.

(** [TestOperation.apply] compares values; [apply_patches] never lets a
    [test] reach the library, and the comparison is not modelled. *)
Definition operation_apply (b : operation * op_kind * list string) (obj : val) : M val :=
  let '(o, k, parts) := b in
  match k with
  | OpAdd => value ← value_member o; add_apply parts value obj
  | OpRemove => remove_apply parts obj
  | OpReplace => value ← value_member o; replace_apply parts value obj
  | OpMove => move_apply o parts obj
  | OpCopy => copy_apply o parts obj
  | OpTest => m_stuck
  end.

Fixpoint apply_operations (ops : list (operation * op_kind * list string)) (obj : val)
  : M val :=
  match ops with
  | [] => mret obj
  | b :: rest => obj ← operation_apply b obj; apply_operations rest obj
  end.

(** [JsonPatch(patch).apply(obj)] *)
Definition apply (patch : list operation) (obj : val) : M val :=
  match get_operations patch with
  | Raise e => m_raise e
  | Ok ops =>
      obj ← copy_deepcopy obj;
      apply_operations ops obj
  end.

End jsonpatch.

(** ** [tools/apply_patches.py] *)

(** [try: ... except Exception] with the outcome as a value. *)
Definition m_catch {A} (m : M A) : M (res A) := λ h,
  match m h with
  | Some (r, h') => Some (Ok r, h')
  | None => None
  end.

(** The result [dict]: [error] is the text before the exception and
    [cause] the exception whose [str] follows it. *)
Inductive patch_result : Type :=
| PatchSuccess (document : val) (applied_count : Z) (message : option string)
| PatchFailure (error : string) (cause : option exn) (failed_at_index : Z).

Definition valid_ops : list string := ["add"; "remove"; "replace"; "move"; "copy"].

(** [op not in valid_ops]: a [dict] or [list] cannot be hashed. *)
Definition op_not_in_valid_ops (op : option val) : res bool :=
  match op with
  | Some (VRef _) => Raise TypeError
  | Some (VStr s) => Ok (negb (bool_decide (s ∈ valid_ops)))
  | _ => Ok true
  end.

(** The validation loop [for i, patch in enumerate(patches)]: the first
    failure, if there is one. *)
Fixpoint validate_patches `{PyRuntime} (i : nat) (patches : list jsonpatch.operation)
  : M (option patch_result) :=
  match patches with
  | [] => mret None
  | patch :: rest =>
      let op := jsonpatch.op_op patch in
      match op_not_in_valid_ops op with
      | Raise e => m_raise e
      | Ok true =>
          shown ← m_read (λ h, mret (py_str h (default VNone op)));
          mret (Some (PatchFailure
                        ("Invalid operation '" ++ shown ++ "' at index " ++ pretty i
                           ++ ". Supported: " ++ valid_ops_repr)
                        None (Z.of_nat i)))
      | Ok false =>
          if bool_decide (op = Some (VStr "test")) then
            mret (Some (PatchFailure
                          "Operation 'test' is not supported. Use inspect_keys/read_value/search_pointer instead."
                          None (Z.of_nat i)))
          else validate_patches (S i) rest
      end
  end.

(** The loop of [_find_failed_patch_index] from index [i] on. *)
Fixpoint find_failed_from (i : nat) (patches : list jsonpatch.operation)
    (current_doc : val) : M (option nat) :=
  match patches with
  | [] => mret None
  | patch :: rest =>
      r ← m_catch (jsonpatch.apply [patch] current_doc);
      match r with
      | Ok current_doc => find_failed_from (S i) rest current_doc
      | Raise _ => mret (Some i)
      end
  end.

(** [_find_failed_patch_index] *)
Definition _find_failed_patch_index (document : val) (patches : list jsonpatch.operation)
  : M Z :=
  r ← find_failed_from 0 patches document;
  match r with
  | Some i => mret (Z.of_nat i)
  | None => mret (list_len patches - 1)%Z
  end.

(** [apply_patches] *)
Definition apply_patches `{PyRuntime} (document : val) (patches : list jsonpatch.operation)
    (target_schema : option tree) : M patch_result :=
  match patches with
  | [] => mret (PatchSuccess document 0 (Some "No patches to apply"))
  | _ =>
      invalid ← validate_patches 0 patches;
      match invalid with
      | Some failure => mret failure
      | None =>
          r ← m_catch (jsonpatch.apply patches document);
          match r with
          | Ok new_document =>
              mret (PatchSuccess new_document (list_len patches) None)
          | Raise JsonPatchConflict =>
              i ← _find_failed_patch_index document patches;
              mret (PatchFailure "Patch conflict: " (Some JsonPatchConflict) i)
          | Raise InvalidJsonPatch =>
              i ← _find_failed_patch_index document patches;
              mret (PatchFailure "Patch error: " (Some InvalidJsonPatch) i)
          | Raise JsonPointerException =>
              i ← _find_failed_patch_index document patches;
              mret (PatchFailure "Invalid path: " (Some JsonPointerException) i)
          | Raise e =>
              mret (PatchFailure "Unexpected error: " (Some e) 0)
          end
      end
  end.

(** ** [tools/update_guidance.py] *)

(** The [guidance] member of the result. *)
Definition guidance_of (last_processed_path current_context pending_action
    extracted_entities_count : tree) : tree :=
  TDict [("last_processed_path", last_processed_path);
         ("current_context", current_context);
         ("pending_action", pending_action);
         ("extracted_entities_count", extracted_entities_count)].

Definition update_guidance (last_processed_path current_context pending_action
    extracted_entities_count : tree) : tree :=
  TDict [("finalized", Leaf (VBool true));
         ("guidance", guidance_of last_processed_path current_context
                        pending_action extracted_entities_count)].

(** ** Parsed model replies *)

Fixpoint tree_lookup (k : string) (kvs : list (string * tree)) : option tree :=
  match kvs with
  | [] => None
  | (k', v) :: r => if decide (k = k') then Some v else tree_lookup k r
  end.

(** [d.get(k)]: only a [dict] has [get]. *)
Definition tree_get (d : tree) (k : string) : res (option tree) :=
  match d with
  | TDict kvs => Ok (tree_lookup k kvs)
  | _ => Raise AttributeError
  end.

(** [d.get(k, default)] *)
Definition tree_get_default (d : tree) (k : string) (default : tree) : res tree :=
  match tree_get d k with
  | Ok (Some v) => Ok v
  | Ok None => Ok default
  | Raise e => Raise e
  end.

(** Truth value of parsed data. *)
Definition tree_truthy (t : tree) : bool :=
  match t with
  | Leaf VNone => false
  | Leaf (VBool b) => b
  | Leaf (VInt z) => negb (z =? 0)%Z
  | Leaf (VFloat r) => negb (bool_decide (r = "0.0" ∨ r = "-0.0"))
  | Leaf (VStr s) => negb (bool_decide (s = ""))
  | Leaf _ => true
  | TList xs => negb (bool_decide (xs = []))
  | TDict kvs => negb (bool_decide (kvs = []))
  end.

(** The parameters of [update_guidance]. *)
Definition guidance_params : list string :=
  ["last_processed_path"; "current_context"; "pending_action";
   "extracted_entities_count"].

(** [update_guidance] called with the members of [guidance_input] as
    keyword arguments: the argument must be a mapping and every key the
    name of a parameter. *)
Definition update_guidance_kwargs (guidance_input : tree) : res tree :=
  match guidance_input with
  | TDict kvs =>
      if forallb (λ kv, bool_decide (kv.1 ∈ guidance_params)) kvs then
        Ok (update_guidance
              (default (Leaf (VStr "")) (tree_lookup "last_processed_path" kvs))
              (default (Leaf (VStr "")) (tree_lookup "current_context" kvs))
              (default (Leaf (VStr "")) (tree_lookup "pending_action" kvs))
              (default (Leaf (VInt 0)) (tree_lookup "extracted_entities_count" kvs)))
      else Raise TypeError
  | _ => Raise TypeError
  end.

(** What [json.loads] did for a value that now goes to the patch engine:
    every [list] and [dict] is an object of its own. *)
Fixpoint alloc_tree (t : tree) : M val :=
  match t with
  | Leaf v => mret v
  | TList xs =>
      vs ← (fix go (xs : list tree) : M (list val) :=
              match xs with
              | [] => mret []
              | x :: r => v ← alloc_tree x; vs ← go r; mret (v :: vs)
              end) xs;
      l ← m_alloc (OList vs);
      mret (VRef l)
  | TDict kvs =>
      vs ← (fix go (kvs : list (string * tree)) : M (list (string * val)) :=
              match kvs with
              | [] => mret []
              | (k, x) :: r => v ← alloc_tree x; vs ← go r; mret ((k, v) :: vs)
              end) kvs;
      l ← m_alloc (ODict vs);
      mret (VRef l)
  end.

Definition alloc_member (t : option tree) : M (option val) :=
  match t with
  | None => mret None
  | Some t => v ← alloc_tree t; mret (Some v)
  end.

(** Arguments at the types the tools declare; a value of another type
    has no meaning in the model. *)
Definition arg_str (t : tree) : option string :=
  match t with Leaf (VStr s) => Some s | _ => None end.

Definition arg_int (t : tree) : option Z :=
  match t with
  | Leaf (VInt z) => Some z
  | Leaf (VBool b) => Some (Z.b2z b)
  | _ => None
  end.

Definition m_arg {A} (a : option A) : M A :=
  match a with Some a => mret a | None => m_stuck end.

(** The [patches] argument as a [list] of [dict]s. *)
Definition operation_of_tree (t : tree) : M jsonpatch.operation :=
  match t with
  | TDict kvs =>
      op ← alloc_member (tree_lookup "op" kvs);
      path ← alloc_member (tree_lookup "path" kvs);
      value ← alloc_member (tree_lookup "value" kvs);
      from ← alloc_member (tree_lookup "from" kvs);
      mret {| jsonpatch.op_op := op; jsonpatch.op_path := path;
              jsonpatch.op_value := value; jsonpatch.op_from := from |}
  | _ => m_stuck
  end.

Fixpoint operations_of_trees (ts : list tree) : M (list jsonpatch.operation) :=
  match ts with
  | [] => mret []
  | t :: r => o ← operation_of_tree t; os ← operations_of_trees r; mret (o :: os)
  end.

Definition arg_patches (t : tree) : M (list jsonpatch.operation) :=
  match t with
  | TList ts => operations_of_trees ts
  | _ => m_stuck
  end.

(** ** [agent/nodes.py] *)

Inductive message : Type :=
| SystemMessage (content : string)
| HumanMessage (content : string)
| AIMessage (content : string).

(** The [result] member of an entry of [actions_results]. *)
Inductive tool_result : Type :=
| RInspect (r : inspect_result)
| RRead (r : read_result)
| RSearch (r : search_result)
| RPatch (r : patch_result)
| RGuidance (r : tree)
| RError (error : string)
| RUnknownAction (action_name : option tree).

(** An entry of [actions_results]; the entry of a finalizing turn has no
    [input] member. *)
Record action_result : Type := {
  ar_action : option tree;
  ar_input : option tree;
  ar_result : tool_result;
}.

(** The state of a run. [error] and [current_chunk] are absent from the
    initial state. *)
Record AgentState : Type := {
  text : string;
  target_schema : option tree;
  max_iterations : Z;
  chunks : list string;
  current_chunk_idx : Z;
  current_chunk : option string;
  json_document : val;
  guidance : tree;
  messages : list message;
  actions_results : list action_result;
  is_chunk_finalized : bool;
  iteration_count : Z;
  error : option string;
}.

(** One [key: value] of the [dict] a node returns. *)
Inductive assign : Type :=
| SetChunks (v : list string)
| SetCurrentChunkIdx (v : Z)
| SetCurrentChunk (v : string)
| SetJsonDocument (v : val)
| SetGuidance (v : tree)
| SetMessages (v : list message)
| SetActionsResults (v : list action_result)
| SetIsChunkFinalized (v : bool)
| SetIterationCount (v : Z)
| SetMaxIterations (v : Z)
| SetError (v : string).

(** The collaborators of the loop: the JSON parser (a parsed value, or
    the text of the [JSONDecodeError]), the chunker, the prompt builders,
    the model (the reply to the [n]-th call) and the way the state graph
    merges a [messages] update into the state. *)
Class Collaborators : Type := {
  json_loads : string → tree + string;
  chunk_with_fallback : string → list string;
  build_system_prompt : option tree → tree → heap → val → string;
  build_user_message : string → Z → Z → string;
  build_observation_message : heap → list action_result → string;
  llm_invoke : nat → list message → string;
  add_messages : list message → list message → list message;
}.

Section nodes.
Context `{PyRuntime} `{Collaborators}.

(** The state after a node's return value is merged into it. *)
Definition apply_assign (s : AgentState) (a : assign) : AgentState :=
  match a with
  | SetChunks v =>
      {| text := text s; target_schema := target_schema s;
         max_iterations := max_iterations s; chunks := v;
         current_chunk_idx := current_chunk_idx s; current_chunk := current_chunk s;
         json_document := json_document s; guidance := guidance s;
         messages := messages s; actions_results := actions_results s;
         is_chunk_finalized := is_chunk_finalized s;
         iteration_count := iteration_count s; error := error s |}
  | SetCurrentChunkIdx v =>
      {| text := text s; target_schema := target_schema s;
         max_iterations := max_iterations s; chunks := chunks s;
         current_chunk_idx := v; current_chunk := current_chunk s;
         json_document := json_document s; guidance := guidance s;
         messages := messages s; actions_results := actions_results s;
         is_chunk_finalized := is_chunk_finalized s;
         iteration_count := iteration_count s; error := error s |}
  | SetCurrentChunk v =>
      {| text := text s; target_schema := target_schema s;
         max_iterations := max_iterations s; chunks := chunks s;
         current_chunk_idx := current_chunk_idx s; current_chunk := Some v;
         json_document := json_document s; guidance := guidance s;
         messages := messages s; actions_results := actions_results s;
         is_chunk_finalized := is_chunk_finalized s;
         iteration_count := iteration_count s; error := error s |}
  | SetJsonDocument v =>
      {| text := text s; target_schema := target_schema s;
         max_iterations := max_iterations s; chunks := chunks s;
         current_chunk_idx := current_chunk_idx s; current_chunk := current_chunk s;
         json_document := v; guidance := guidance s;
         messages := messages s; actions_results := actions_results s;
         is_chunk_finalized := is_chunk_finalized s;
         iteration_count := iteration_count s; error := error s |}
  | SetGuidance v =>
      {| text := text s; target_schema := target_schema s;
         max_iterations := max_iterations s; chunks := chunks s;
         current_chunk_idx := current_chunk_idx s; current_chunk := current_chunk s;
         json_document := json_document s; guidance := v;
         messages := messages s; actions_results := actions_results s;
         is_chunk_finalized := is_chunk_finalized s;
         iteration_count := iteration_count s; error := error s |}
  | SetMessages v =>
      {| text := text s; target_schema := target_schema s;
         max_iterations := max_iterations s; chunks := chunks s;
         current_chunk_idx := current_chunk_idx s; current_chunk := current_chunk s;
         json_document := json_document s; guidance := guidance s;
         messages := add_messages (messages s) v;
         actions_results := actions_results s;
         is_chunk_finalized := is_chunk_finalized s;
         iteration_count := iteration_count s; error := error s |}
  | SetActionsResults v =>
      {| text := text s; target_schema := target_schema s;
         max_iterations := max_iterations s; chunks := chunks s;
         current_chunk_idx := current_chunk_idx s; current_chunk := current_chunk s;
         json_document := json_document s; guidance := guidance s;
         messages := messages s; actions_results := v;
         is_chunk_finalized := is_chunk_finalized s;
         iteration_count := iteration_count s; error := error s |}
  | SetIsChunkFinalized v =>
      {| text := text s; target_schema := target_schema s;
         max_iterations := max_iterations s; chunks := chunks s;
         current_chunk_idx := current_chunk_idx s; current_chunk := current_chunk s;
         json_document := json_document s; guidance := guidance s;
         messages := messages s; actions_results := actions_results s;
         is_chunk_finalized := v;
         iteration_count := iteration_count s; error := error s |}
  | SetIterationCount v =>
      {| text := text s; target_schema := target_schema s;
         max_iterations := max_iterations s; chunks := chunks s;
         current_chunk_idx := current_chunk_idx s; current_chunk := current_chunk s;
         json_document := json_document s; guidance := guidance s;
         messages := messages s; actions_results := actions_results s;
         is_chunk_finalized := is_chunk_finalized s;
         iteration_count := v; error := error s |}
  | SetMaxIterations v =>
      {| text := text s; target_schema := target_schema s;
         max_iterations := v; chunks := chunks s;
         current_chunk_idx := current_chunk_idx s; current_chunk := current_chunk s;
         json_document := json_document s; guidance := guidance s;
         messages := messages s; actions_results := actions_results s;
         is_chunk_finalized := is_chunk_finalized s;
         iteration_count := iteration_count s; error := error s |}
  | SetError v =>
      {| text := text s; target_schema := target_schema s;
         max_iterations := max_iterations s; chunks := chunks s;
         current_chunk_idx := current_chunk_idx s; current_chunk := current_chunk s;
         json_document := json_document s; guidance := guidance s;
         messages := messages s; actions_results := actions_results s;
         is_chunk_finalized := is_chunk_finalized s;
         iteration_count := iteration_count s; error := Some v |}
  end.

Definition apply_update (s : AgentState) (u : list assign) : AgentState :=
  fold_left apply_assign u s.

(** [seq[i]] with Python's reading of a negative index. *)
Definition py_index {A} (l : list A) (i : Z) : option A :=
  if (0 <=? i)%Z then l !! Z.to_nat i
  else if (0 <=? list_len l + i)%Z then l !! Z.to_nat (list_len l + i)
  else None.

(** [chunk_text_node] *)
Definition chunk_text_node (state : AgentState) : M (list assign) :=
  if decide (text state = "") then
    d ← m_alloc (ODict []);
    mret [SetChunks []; SetCurrentChunkIdx 0; SetJsonDocument (VRef d);
          SetError "No text provided for processing."]
  else
    let chunks := chunk_with_fallback (text state) in
    d ← m_alloc (ODict []);
    mret [SetChunks chunks; SetCurrentChunkIdx 0; SetJsonDocument (VRef d);
          SetGuidance (TDict []); SetIsChunkFinalized false;
          SetIterationCount 0; SetMaxIterations (max_iterations state)].

(** [prepare_chunk_node] *)
Definition prepare_chunk_node (state : AgentState) : M (list assign) :=
  let current_idx := current_chunk_idx state in
  if (list_len (chunks state) <=? current_idx)%Z then mret [SetCurrentChunk ""]
  else
    match py_index (chunks state) current_idx with
    | None => m_raise IndexError
    | Some current_chunk =>
        system_prompt ← m_read (λ h,
          mret (build_system_prompt (target_schema state) (guidance state)
                  h (json_document state)));
        let user_message :=
          build_user_message current_chunk current_idx (list_len (chunks state)) in
        mret [SetCurrentChunk current_chunk;
              SetMessages [SystemMessage system_prompt; HumanMessage user_message];
              SetActionsResults []; SetIsChunkFinalized false; SetIterationCount 0]
    end.

(** [call_llm_node], as the [n]-th call of the model. *)
Definition call_llm_node (n : nat) (state : AgentState) : M (list assign) :=
  msgs ← m_read (λ h,
    mret (match actions_results state with
          | [] => messages state
          | rs => (messages state ++ [HumanMessage (build_observation_message h rs)])%list
          end));
  let response := AIMessage (llm_invoke n msgs) in
  mret [SetMessages [response];
        SetIterationCount (iteration_count state + 1)%Z].

(** The loop [for msg in reversed(messages)] that looks for the last
    [AIMessage]; the result is its content. *)
Fixpoint first_ai_message (msgs : list message) : option string :=
  match msgs with
  | [] => None
  | AIMessage c :: _ => Some c
  | _ :: r => first_ai_message r
  end.

Definition last_ai_message (msgs : list message) : option string :=
  first_ai_message (rev msgs).

(** The error entry for an [update_guidance] that is not alone. *)
Definition must_be_only_error : string :=
  "update_guidance must be the ONLY action when finalizing. "
  ++ "Other actions were present in the same response.".

(** [action_name == name] *)
Definition name_is (action_name : option tree) (name : string) : bool :=
  match action_name with
  | Some (Leaf (VStr s)) => bool_decide (s = name)
  | _ => false
  end.

(** A pure step that may raise, as a computation on the store. *)
Definition m_lift {A} (r : res A) : M A :=
  match r with
  | Ok a => mret a
  | Raise e => m_raise e
  end.

(** The state of the loop over [actions]: [new_document] and [results]. *)
Definition loop_state : Type := val * list action_result.

(** One iteration of [for action_item in actions]. *)
Definition execute_action (state : AgentState) (action_item : tree) (st : loop_state)
  : M loop_state :=
  let '(new_document, results) := st in
  action_name ← m_lift (tree_get action_item "action");
  action_input ← m_lift (tree_get_default action_item "input" (TDict []));
  let entry r := {| ar_action := action_name; ar_input := Some action_input;
                    ar_result := r |} in
  let arg k d := m_lift (tree_get_default action_input k d) in
  if name_is action_name "inspect_keys" then
    path ← arg "path" (Leaf (VStr "")); path ← m_arg (arg_str path);
    result ← m_read (λ h, inspect_keys h new_document path);
    mret (new_document, (results ++ [entry (RInspect result)])%list)
  else if name_is action_name "read_value" then
    path ← arg "path" (Leaf (VStr ""));
    max_string_length ← arg "max_string_length" (Leaf (VInt 160));
    max_depth ← arg "max_depth" (Leaf (VInt 6));
    max_array_items ← arg "max_array_items" (Leaf (VInt 50));
    max_object_keys ← arg "max_object_keys" (Leaf (VInt 50));
    path ← m_arg (arg_str path);
    max_string_length ← m_arg (arg_int max_string_length);
    max_depth ← m_arg (arg_int max_depth);
    max_array_items ← m_arg (arg_int max_array_items);
    max_object_keys ← m_arg (arg_int max_object_keys);
    result ← m_read (λ h, read_value h new_document path max_string_length
                            max_depth max_array_items max_object_keys);
    mret (new_document, (results ++ [entry (RRead result)])%list)
  else if name_is action_name "search_pointer" then
    query ← arg "query" (Leaf (VStr ""));
    search_type ← arg "type" (Leaf (VStr "value"));
    fuzzy_match ← arg "fuzzy_match" (Leaf (VBool false));
    limit ← arg "limit" (Leaf (VInt 20));
    max_value_length ← arg "max_value_length" (Leaf (VInt 120));
    query ← m_arg (arg_str query);
    search_type ← m_arg (arg_str search_type);
    limit ← m_arg (arg_int limit);
    max_value_length ← m_arg (arg_int max_value_length);
    result ← m_read (λ h,
      r ← search_pointer h new_document query search_type
             (tree_truthy fuzzy_match) limit max_value_length;
      Some (Ok r));
    mret (new_document, (results ++ [entry (RSearch result)])%list)
  else if name_is action_name "apply_patches" then
    patches ← arg "patches" (TList []);
    patches ← arg_patches patches;
    result ← apply_patches new_document patches (target_schema state);
    let new_document :=
      match result with
      | PatchSuccess document _ _ => document
      | PatchFailure _ _ _ => new_document
      end in
    mret (new_document, (results ++ [entry (RPatch result)])%list)
  else if name_is action_name "update_guidance" then
    mret (new_document, (results ++ [entry (RError must_be_only_error)])%list)
  else
    mret (new_document, (results ++ [entry (RUnknownAction action_name)])%list).

(** [for action_item in actions] *)
Fixpoint execute_actions (state : AgentState) (actions : list tree) (st : loop_state)
  : M loop_state :=
  match actions with
  | [] => mret st
  | action_item :: rest =>
      st ← execute_action state action_item st;
      execute_actions state rest st
  end.

(** The items a [for] loop over parsed data goes through, and [len] of
    it; a [str] gives its characters and a [dict] its keys. *)
Definition tree_items (t : tree) : res (list tree) :=
  match t with
  | TList xs => Ok xs
  | TDict kvs => Ok ((λ kv, Leaf (VStr kv.1)) <$> kvs)
  | Leaf (VStr s) => Ok ((λ c, Leaf (VStr (String c EmptyString))) <$> list_ascii_of_string s)
  | Leaf _ => Raise TypeError
  end.

(** [actions[0]] for an [actions] of length one. *)
Definition tree_first (t : tree) : res tree :=
  match t with
  | TList (x :: _) => Ok x
  | Leaf (VStr (String c _)) => Ok (Leaf (VStr (String c EmptyString)))
  | TDict _ => Raise KeyError
  | TList [] | Leaf (VStr _) => Raise IndexError
  | Leaf _ => Raise TypeError
  end.

(** [execute_tools_node] *)
Definition execute_tools_node (state : AgentState) : M (list assign) :=
  match last_ai_message (messages state) with
  | None => mret [SetError "No LLM response found."]
  | Some content =>
      match json_loads content with
      | inr e => mret [SetError ("Error parsing LLM response: " ++ e)]
      | inl response_data =>
          think ← m_lift (tree_get_default response_data "think" (Leaf (VStr "")));
          actions ← m_lift (tree_get_default response_data "actions" (TList []));
          if negb (tree_truthy actions) then
            mret [SetError "No actions specified by the LLM."]
          else
            items ← m_lift (tree_items actions);
            sole ← (if bool_decide (length items = 1%nat) then
                      first ← m_lift (tree_first actions);
                      name ← m_lift (tree_get first "action");
                      if name_is name "update_guidance"
                      then mret (Some first) else mret None
                    else mret None);
            match sole with
            | Some first =>
                guidance_input ← m_lift (tree_get_default first "input" (TDict []));
                guidance_result ← m_lift (update_guidance_kwargs guidance_input);
                new_guidance ←
                  m_lift (match tree_get guidance_result "guidance" with
                        | Ok (Some g) => Ok g
                        | Ok None => Raise KeyError
                        | Raise e => Raise e
                        end);
                mret [SetGuidance new_guidance; SetIsChunkFinalized true;
                      SetActionsResults
                        [{| ar_action := Some (Leaf (VStr "update_guidance"));
                            ar_input := None;
                            ar_result := RGuidance guidance_result |}]]
            | None =>
                st ← execute_actions state items (json_document state, []);
                mret [SetJsonDocument st.1; SetActionsResults st.2]
            end
      end
  end.

(** [finalize_chunk_node] *)
Definition finalize_chunk_node (state : AgentState) : list assign :=
  [SetCurrentChunkIdx (current_chunk_idx state + 1)%Z;
   SetIsChunkFinalized false; SetActionsResults []].

(** Truth value of [state.get("error")]. *)
Definition error_set (state : AgentState) : bool :=
  match error state with
  | Some e => negb (bool_decide (e = ""))
  | None => false
  end.

Inductive node : Type :=
| ChunkText | PrepareChunk | CallLLM | ExecuteTools | FinalizeChunk | END.

#[global] Instance node_eq_dec : EqDecision node.
Proof. solve_decision. Defined.

(** [has_more_chunks] *)
Definition has_more_chunks (state : AgentState) : node :=
  if error_set state then END
  else if (current_chunk_idx state <? list_len (chunks state))%Z then CallLLM
  else END.

(** [is_chunk_done] *)
Definition is_chunk_done (state : AgentState) : node :=
  if is_chunk_finalized state then FinalizeChunk
  else if (max_iterations state <=? iteration_count state)%Z then FinalizeChunk
  else if error_set state then FinalizeChunk
  else CallLLM.

End nodes.

(** ** [agent/graph.py] *)

Section graph.
Context `{PyRuntime} `{Collaborators}.

(** A point of a run: the node about to run, the state, and the number
    of model calls made so far. *)
Record config : Type := {
  at_node : node;
  state_of : AgentState;
  llm_calls : nat;
}.

(** One node of the graph built by [create_graph], followed by the edge
    that leaves it. *)
Definition graph_step (c : config) : M config :=
  let s := state_of c in
  match at_node c with
  | ChunkText =>
      u ← chunk_text_node s;
      mret {| at_node := PrepareChunk; state_of := apply_update s u;
              llm_calls := llm_calls c |}
  | PrepareChunk =>
      u ← prepare_chunk_node s;
      let s' := apply_update s u in
      mret {| at_node := has_more_chunks s'; state_of := s';
              llm_calls := llm_calls c |}
  | CallLLM =>
      u ← call_llm_node (llm_calls c) s;
      mret {| at_node := ExecuteTools; state_of := apply_update s u;
              llm_calls := S (llm_calls c) |}
  | ExecuteTools =>
      u ← execute_tools_node s;
      let s' := apply_update s u in
      mret {| at_node := is_chunk_done s'; state_of := s';
              llm_calls := llm_calls c |}
  | FinalizeChunk =>
      mret {| at_node := PrepareChunk;
              state_of := apply_update s (finalize_chunk_node s);
              llm_calls := llm_calls c |}
  | END => mret c
  end.

(** [n] steps of the graph. *)
Fixpoint graph_steps (n : nat) (c : config) : M config :=
  match n with
  | O => mret c
  | S n' => c' ← graph_step c; graph_steps n' c'
  end.

(** [app.invoke(initial_state)]: the run up to [END], within [fuel]
    steps. *)
Fixpoint invoke (fuel : nat) (c : config) : M config :=
  match at_node c with
  | END => mret c
  | _ =>
      match fuel with
      | O => m_stuck
      | S fuel' => c' ← graph_step c; invoke fuel' c'
      end
  end.

(** The result of [extract]. *)
Record extract_result : Type := {
  result_json_document : val;
  total_chunks : Z;
  final_guidance : tree;
  result_error : option string;
}.

(** [extract] *)
Definition extract (fuel : nat) (text : string) (schema : option tree)
    (max_iterations_per_chunk : Z) : M extract_result :=
  d ← m_alloc (ODict []);
  let initial_state :=
    {| text := text; target_schema := schema;
       max_iterations := max_iterations_per_chunk; chunks := [];
       current_chunk_idx := 0; current_chunk := None;
       json_document := VRef d; guidance := TDict []; messages := [];
       actions_results := []; is_chunk_finalized := false;
       iteration_count := 0; error := None |} in
  final ← invoke fuel {| at_node := ChunkText; state_of := initial_state;
                         llm_calls := 0 |};
  let final_state := state_of final in
  mret {| result_json_document := json_document final_state;
          total_chunks := list_len (chunks final_state);
          final_guidance := guidance final_state;
          result_error := error final_state |}.

End graph.

(** * Specification vocabulary *)

(** ** Well-formed stores *)

(** Every object a value refers to is in the set [S]. *)
Fixpoint val_in (S : gset loc) (v : val) : bool :=
  match v with
  | VRef l => bool_decide (l ∈ S)
  | VEndOfList v' => val_in S v'
  | _ => true
  end.

Definition obj_vals (o : obj) : list val :=
  match o with
  | ODict kvs => kvs.*2
  | OList xs => xs
  end.

(** The objects of [S] are in the store and refer to objects of [S]
    only: [S] holds whole documents. *)
Definition closed_in (h : heap) (S : gset loc) : bool :=
  forallb (λ l, match h !! l with
                | Some o => forallb (val_in S) (obj_vals o)
                | None => false
                end) (elements S).

(** ** What an encoded token looks like *)

(** The text [encode_pointer_token] puts for one character, and the text
    left for it between the two passes of the codec. *)
Definition escape_char (c : ascii) : string :=
  if Ascii.eqb c "~" then "~0"
  else if Ascii.eqb c "/" then "~1"
  else String c EmptyString.

Definition tilde_char (c : ascii) : string :=
  if Ascii.eqb c "~" then "~0" else String c EmptyString.

Fixpoint expand_chars (f : ascii → string) (s : string) : string :=
  match s with
  | EmptyString => EmptyString
  | String c r => f c ++ expand_chars f r
  end.

(** ** Truncated values *)

(** No [list] or [dict] sits [d] or more levels below the root of [t],
    and no leaf is a reference to one. *)
Fixpoint no_compound_from (d : nat) (t : tree) {struct d} : bool :=
  match t with
  | Leaf (VRef _) => false
  | Leaf _ => true
  | TList xs =>
      match d with
      | O => false
      | S d' => forallb (no_compound_from d') xs
      end
  | TDict kvs =>
      match d with
      | O => false
      | S d' => forallb (λ kv, no_compound_from d' kv.2) kvs
      end
  end.

(** ** Previews *)

(** The preview [inspect_keys] gives of a value whose text is [s]: the
    text itself when it has at most [100] characters, else its first
    [100] characters and the marker. *)
Definition inspect_preview (s : string) : string :=
  if (100 <? str_len s)%Z then str_slice_to 100 s ++ "..." else s.

(** ** Documents as values *)

(** The JSON value a Python value stands for in a store, down to [fuel]
    levels. *)
Fixpoint snapshot (fuel : nat) (h : heap) (v : val) : option tree :=
  match v with
  | VRef l =>
      match fuel with
      | O => None
      | S fuel' =>
          match h !! l with
          | Some (ODict kvs) =>
              TDict <$> mapM (λ kv, (λ t, (kv.1, t)) <$> snapshot fuel' h kv.2) kvs
          | Some (OList xs) => TList <$> mapM (snapshot fuel' h) xs
          | None => None
          end
      end
  | _ => Some (Leaf v)
  end.

(** The value of a patch operation, when it has one, is made of objects
    of [S]. *)
Definition op_value_inb (S : gset loc) (o : jsonpatch.operation) : bool :=
  match jsonpatch.op_value o with
  | Some v => val_in S v
  | None => true
  end.

(** Two sets of objects share nothing. *)
Definition apart (A B : gset loc) : bool :=
  forallb (λ l, negb (bool_decide (l ∈ B))) (elements A).

(** ** Replaying a patch *)

(** [replay patches d h d' h']: applying the operations one at a time,
    each as a patch of its own, from the document [d] in the store [h]
    succeeds for all of them and ends with [d'] in [h']. *)
Inductive replay : list jsonpatch.operation → val → heap → val → heap → Prop :=
| replay_nil d h : replay [] d h d h
| replay_cons p rest d h d1 h1 d' h' :
    jsonpatch.apply [p] d h = Some (Ok d1, h1) →
    replay rest d1 h1 d' h' →
    replay (p :: rest) d h d' h'.

(** The operation passes the test of the validation loop. *)
Definition recognized (o : jsonpatch.operation) : Prop :=
  op_not_in_valid_ops (jsonpatch.op_op o) = Ok false.

(** The index of the first operation that cannot be applied when the
    list is applied as one patch: the operations are applied in order to
    the same copy of the document. *)
Fixpoint first_failing_operation (i : nat)
    (ops : list (jsonpatch.operation * jsonpatch.op_kind * list string)) (obj : val)
  : M (option nat) :=
  match ops with
  | [] => mret None
  | b :: rest =>
      r ← m_catch (jsonpatch.operation_apply b obj);
      match r with
      | Ok obj' => first_failing_operation (S i) rest obj'
      | Raise _ => mret (Some i)
      end
  end.

Fixpoint first_unbuilt (i : nat) (patches : list jsonpatch.operation) : option nat :=
  match patches with
  | [] => None
  | o :: rest =>
      match jsonpatch.get_operation o with
      | Raise _ => Some i
      | Ok _ => first_unbuilt (S i) rest
      end
  end.

Definition first_unapplied (patches : list jsonpatch.operation) (document : val)
  : M (option nat) :=
  match jsonpatch.get_operations patches with
  | Ok ops =>
      obj ← jsonpatch.copy_deepcopy document;
      first_failing_operation 0 ops obj
  | Raise _ => mret (first_unbuilt 0 patches)
  end.

(** ** Closed sets of objects, as propositions *)

Definition closedP (h : heap) (S : gset loc) : Prop :=
  ∀ l, l ∈ S → ∃ o, h !! l = Some o ∧ Forall (λ v, val_in S v = true) (obj_vals o).

(** The items of a classified value are values of [S]. *)
Definition class_in (S : gset loc) (c : pyclass) : Prop :=
  match c with
  | CDict kvs => Forall (λ v, val_in S v = true) kvs.*2
  | CList xs => Forall (λ v, val_in S v = true) xs
  | _ => True
  end.

(** ** What a search keeps *)

(** What a call or a loop of the search that starts in [st] and ends in
    [st'] with the flag [b] keeps: objects are only added to [seen]; the
    number of matches stays within a limit it was within; and the flag is
    raised only with the limit reached. *)
Definition search_post (limit : Z) (st : search_state) (b : bool) (st' : search_state)
  : Prop :=
  st.2 ⊆ st'.2
  ∧ ((list_len st.1 <= limit)%Z → (list_len st'.1 <= limit)%Z)
  ∧ (b = true → (limit <= list_len st'.1)%Z).

(** ** The store during a call of the patch engine *)

Section frame_vocabulary.
(** [h0] is the store at the call, [D] a closed set of objects that
    holds the caller's document, and [W0] a closed set, apart from [D],
    that holds the values of the patch. *)
Context (h0 : heap) (D W0 : gset loc).

(** The objects the engine works on: those of the patch and those made
    since the call. *)
Definition work (h : heap) : gset loc := W0 ∪ (dom h ∖ dom h0).

(** The store of a call in progress: nothing of [D] has changed, and the
    working objects refer to working objects only. *)
Definition good (h : heap) : Prop :=
  dom h0 ⊆ dom h ∧ (∀ l, l ∈ D → h !! l = h0 !! l) ∧ closedP h (work h).

(** The store has only grown. *)
Definition ext (h h' : heap) : Prop := dom h ⊆ dom h'.

(** What a step of the engine keeps, whether it returns or raises: the
    store stays good and only grows; [Q] is what holds of a returned
    result and the new store. *)
Definition keeps {A} (m : M A) (h : heap) (Q : A → heap → Prop) : Prop :=
  ∀ r h', m h = Some (r, h') →
    good h' ∧ ext h h' ∧ ∀ a, r = Ok a → Q a h'.

(** The result of an operation is a working value in the new store. *)
Definition working : val → heap → Prop := λ v h', val_in (work h') v = true.

(** The copies recorded in [memo] are working objects. *)
Definition memo_ok (memo : gmap loc loc) (h : heap) : Prop :=
  ∀ l y, memo !! l = Some y → y ∈ work h.

Definition copied : val * gmap loc loc → heap → Prop :=
  λ r h', val_in (work h') r.1 = true ∧ memo_ok r.2 h'.

(** The value of an operation, when it has one, is a working value. *)
Definition op_value_in (h : heap) (o : jsonpatch.operation) : Prop :=
  ∀ v, jsonpatch.op_value o = Some v → val_in (work h) v = true.

End frame_vocabulary.

(** ** Results of [apply_patches] *)

(** The text of the validation error for the operation name [shown] at
    index [i]. *)
Definition invalid_operation_error `{PyRuntime} (shown : string) (i : nat) : string :=
  "Invalid operation '" ++ shown ++ "' at index " ++ pretty i
    ++ ". Supported: " ++ valid_ops_repr.

(** The exceptions of the library that [apply_patches] names. *)
Definition library_failure (e : exn) : bool :=
  bool_decide (e ∈ [JsonPatchConflict; InvalidJsonPatch; JsonPointerException]).

(** ** Turns of the model *)

(** An action item that names the action [name]. *)
Definition action_named (item : tree) (name : string) : Prop :=
  ∃ kvs, item = TDict kvs ∧ tree_lookup "action" kvs = Some (Leaf (VStr name)).

(** The [input] of an action item, [{}] when it has none. *)
Definition item_input (item : tree) : tree :=
  match item with
  | TDict kvs => default (TDict []) (tree_lookup "input" kvs)
  | _ => TDict []
  end.

(** The turn is the one shape that finalizes: one action, and it is
    [update_guidance]. *)
Definition sole_finalize (actions : list tree) : Prop :=
  ∃ item, actions = [item] ∧ action_named item "update_guidance".

(** The entry recorded for an [update_guidance] met in the loop. *)
Definition must_be_only_entry (item : tree) : action_result :=
  {| ar_action := Some (Leaf (VStr "update_guidance"));
     ar_input := Some (item_input item);
     ar_result := RError must_be_only_error |}.

(** The parsed reply of the state is an object whose [actions] is the
    non-empty list [actions]. *)
Definition turn_with_actions `{Collaborators} (state : AgentState) (actions : list tree)
  : Prop :=
  ∃ content kvs,
    last_ai_message (messages state) = Some content
    ∧ json_loads content = inl (TDict kvs)
    ∧ tree_lookup "actions" kvs = Some (TList actions)
    ∧ actions ≠ [].

Definition no_actions_error : string := "No actions specified by the LLM.".

(** The part of the state the two routers read, besides the iteration
    count, and the position in the list of chunks. *)
Definition same_control (s s' : AgentState) : Prop :=
  is_chunk_finalized s' = is_chunk_finalized s
  ∧ error s' = error s
  ∧ max_iterations s' = max_iterations s
  ∧ current_chunk_idx s' = current_chunk_idx s
  ∧ chunks s' = chunks s.

(** A turn that neither finalizes nor sets an error: the update of the
    loop over the actions. *)
Definition plain_turn (u : list assign) : Prop :=
  ∃ new_document results, u = [SetJsonDocument new_document; SetActionsResults results].

(** The number of model calls a chunk gets when no turn ends it. *)
Definition calls_per_chunk (max_iterations : Z) : nat :=
  Z.to_nat (Z.max 1 max_iterations).

(** ** Pointers and tokens *)

(** The character [c] occurs in [s]. *)
Fixpoint has_char (c : ascii) (s : string) : bool :=
  match s with
  | EmptyString => false
  | String x r => Ascii.eqb c x || has_char c r
  end.

(** The pointer that [join_pointer] makes from the empty pointer and the
    tokens, one after the other. *)
Definition pointer_of_tokens (tokens : list string) : string :=
  fold_left join_pointer tokens "".

(** A pointer that [parse_json_pointer] reads token by token: the empty
    pointer, or one that starts with [/] and is not [/] alone. *)
Definition proper_pointer (p : string) : Prop :=
  p = "" ∨ (PyStr.startswith "/" p = true ∧ p ≠ "/").

(** ** Values within the limits of [read_value] *)

(** Nothing in [t] is cut by [_truncate_value] with [d] levels left:
    no [str] is longer than [max_string_length], no [list] longer than
    [max_array_items], no [dict] has more than [max_object_keys] keys,
    and every [list] and [dict] sits less than [d] levels down. *)
Fixpoint within_limits (max_string_length max_array_items max_object_keys : Z)
    (d : nat) (t : tree) {struct d} : bool :=
  match t with
  | Leaf (VStr s) => (str_len s <=? max_string_length)%Z
  | Leaf _ => true
  | TList xs =>
      match d with
      | O => false
      | S d' =>
          (list_len xs <=? max_array_items)%Z
          && forallb (within_limits max_string_length max_array_items max_object_keys d') xs
      end
  | TDict kvs =>
      match d with
      | O => false
      | S d' =>
          (list_len kvs <=? max_object_keys)%Z
          && forallb (λ kv, within_limits max_string_length max_array_items
                              max_object_keys d' kv.2) kvs
      end
  end.

(** No [list] of [t] has more than [max_array_items + 1] items and no
    [dict] more than [max_object_keys + 1] keys. *)
Fixpoint width_within (max_array_items max_object_keys : Z) (t : tree) : bool :=
  match t with
  | Leaf _ => true
  | TList xs =>
      (list_len xs <=? max_array_items + 1)%Z
      && forallb (width_within max_array_items max_object_keys) xs
  | TDict kvs =>
      (list_len kvs <=? max_object_keys + 1)%Z
      && forallb (λ kv, width_within max_array_items max_object_keys kv.2) kvs
  end.

(** ** Patches *)

(** The [op] member of the operation is not a dict or a list, so that
    Python can look it up in the set of names. *)
Definition hashable_op (o : jsonpatch.operation) : Prop :=
  ∀ l, jsonpatch.op_op o ≠ Some (VRef l).

(** ** Entries of the results *)

(** The entry records the action item: its [action] member and its
    [input], [{}] when it has none. *)
Definition entry_of (item : tree) (entry : action_result) : Prop :=
  tree_get item "action" = Ok (ar_action entry)
  ∧ ∃ input, tree_get_default item "input" (TDict []) = Ok input
             ∧ ar_input entry = Some input.

(** The entry is not that of an [apply_patches] action. *)
Definition reads_only (entry : action_result) : Prop :=
  name_is (ar_action entry) "apply_patches" = false.

(** ** Runs of the graph *)

(** The three updates the dispatcher returns: an error, a finalization,
    or the outcome of the loop over the actions. *)
Definition dispatcher_update (u : list assign) : Prop :=
  (∃ e, u = [SetError e] ∧ e ≠ "")
  ∨ (∃ g rs, u = [SetGuidance g; SetIsChunkFinalized true; SetActionsResults rs])
  ∨ plain_turn u.

(** What a run keeps once the text is cut into the chunks [cs], with the
    cap [N] on the iterations: the chunks and the cap stay, the index
    stays within the chunks, the iteration count within the calls a
    chunk gets, and the model calls made so far within those the chunks
    before this one got and those this one has had. *)
Definition run_inv (cs : list string) (N : Z) (c : config) : Prop :=
  let s := state_of c in
  let n := Z.of_nat (calls_per_chunk N) in
  let calls := Z.of_nat (llm_calls c) in
  let idx := current_chunk_idx s in
  let it := iteration_count s in
  chunks s = cs ∧ max_iterations s = N ∧ (0 <= idx)%Z
  ∧ match at_node c with
    | ChunkText => False
    | PrepareChunk => (idx <= list_len cs)%Z ∧ (calls <= idx * n)%Z
    | CallLLM => (idx < list_len cs)%Z ∧ (0 <= it < n)%Z ∧ (calls <= idx * n + it)%Z
    | ExecuteTools => (idx < list_len cs)%Z ∧ (1 <= it <= n)%Z ∧ (calls <= idx * n + it)%Z
    | FinalizeChunk => (idx < list_len cs)%Z ∧ (calls <= (idx + 1) * n)%Z
    | END => (calls <= list_len cs * n)%Z
    end.

(** A bound on the steps of the graph that are left in such a run: two
    per model call the chunk can still get, two to finalize a chunk and
    prepare the next, and as much for every chunk not yet started. *)
Definition steps_left (cs : list string) (N : Z) (c : config) : nat :=
  let s := state_of c in
  let n := Z.of_nat (calls_per_chunk N) in
  let later := ((list_len cs - current_chunk_idx s - 1) * (2 * n + 2))%Z in
  Z.to_nat
    match at_node c with
    | ChunkText | END => 0
    | PrepareChunk => 1 + (list_len cs - current_chunk_idx s) * (2 * n + 2)
    | CallLLM => 2 * (n - iteration_count s) + 2 + later
    | ExecuteTools => 2 * (n - iteration_count s) + 3 + later
    | FinalizeChunk => 2 + later
    end%Z.

(** The chunks of a run on [text]. *)
Definition chunks_of `{Collaborators} (text : string) : list string :=
  if decide (text = "") then [] else chunk_with_fallback text.

(** The steps within which a run on [cs] with the cap [N] ends. *)
Definition run_steps (cs : list string) (N : Z) : nat :=
  2 + length cs * (2 * calls_per_chunk N + 2).

(** ** Matches of a search *)

Definition match_pointer (m : search_match) : string :=
  match m with
  | KeyMatch pointer _ _ => pointer
  | ValueMatch pointer _ => pointer
  end.

(** The match [m] is right: its pointer resolves in the document, and
    what it resolves to is what the search says it found there. For a
    match on a key, the key matches the query, it is the last token of
    the pointer, and the preview is that of the value; for a match on a
    value, the value is no dict and no list, its text matches the query,
    and the text recorded is the beginning of it. *)
Definition sound_match `{PyRuntime} (h : heap) (document : val) (query search_type : string)
    (fuzzy : bool) (max_value_length : Z) (m : search_match) : Prop :=
  ∃ value,
    jsonpointer.resolve_pointer h document (match_pointer m) = Some (Ok value)
    ∧ match m with
      | KeyMatch pointer key value_preview =>
          search_type = "key"
          ∧ _matches key query fuzzy = true
          ∧ (∃ parts, jsonpointer.JsonPointer pointer = Ok (parts ++ [key])%list)
          ∧ _preview_value h value max_value_length = Some value_preview
      | ValueMatch pointer matched_value =>
          search_type = "value"
          ∧ is_compound h value = Some false
          ∧ _matches (py_str h value) query fuzzy = true
          ∧ matched_value = str_slice_to max_value_length (py_str h value)
      end.

(** The keys of every dict of the store are pairwise distinct, as the
    keys of a Python dict are. *)
Definition obj_keys (o : obj) : list string :=
  match o with
  | ODict kvs => kvs.*1
  | OList _ => []
  end.

Definition unique_keys (h : heap) : bool :=
  bool_decide (map_Forall (λ _ o, NoDup (obj_keys o)) h).

(** The pointer [path] has the tokens [parts] and leads from the
    document to [obj]. *)
Definition pointer_reaches (h : heap) (document : val) (path : string)
    (parts : list string) (obj : val) : Prop :=
  jsonpointer.JsonPointer path = Ok parts
  ∧ jsonpointer.resolve h document parts = Some (Ok obj).

(** ** Concrete stores, patches and turns *)

Module Examples.

(** A runtime: some rendering of objects, and the five names in some
    order. *)
Definition runtime : PyRuntime :=
  {| py_repr := λ _ _, "<object>";
     valid_ops_repr := "{'add', 'remove', 'replace', 'move', 'copy'}" |}.

(** The double quote, and a quoted JSON string. *)
Definition dq : string := String "034" EmptyString.
Definition quoted (s : string) : string := dq ++ s ++ dq.

(** [{}] on its own. *)
Definition empty_document : heap := {[ 1%positive := ODict [] ]}.

(** [{"name": "Client X Corp", "items": [{"total": 5}], "self": ...}]
    where [self] is the document itself. *)
Definition cyclic_document : heap :=
  {[ 1%positive := ODict [("name", VStr "Client X Corp");
                          ("items", VRef 2%positive);
                          ("self", VRef 1%positive)];
     2%positive := OList [VRef 3%positive];
     3%positive := ODict [("total", VInt 5)] ]}.

(** The same document without [self], and the value [{"y": 1}] of a
    patch beside it. *)
Definition document_and_value : heap :=
  {[ 1%positive := ODict [("name", VStr "Client X Corp");
                          ("items", VRef 2%positive)];
     2%positive := OList [VRef 3%positive];
     3%positive := ODict [("total", VInt 5)];
     4%positive := ODict [("y", VInt 1)] ]}.

Definition operation (op path : string) (value from : option val) : jsonpatch.operation :=
  {| jsonpatch.op_op := Some (VStr op); jsonpatch.op_path := Some (VStr path);
     jsonpatch.op_value := value; jsonpatch.op_from := from |}.

(** [add /x {"y": 1}] then [remove /missing]: the second fails. *)
Definition failing_patches : list jsonpatch.operation :=
  [operation "add" "/x" (Some (VRef 4%positive)) None;
   operation "remove" "/missing" None None].

(** [add /x {"y": 1}] then [add /x/z 2]: both apply. *)
Definition applying_patches : list jsonpatch.operation :=
  [operation "add" "/x" (Some (VRef 4%positive)) None;
   operation "add" "/x/z" (Some (VInt 2)) None].

(** [add "" 5] then [add "" 6]: the first replaces the root by [5], and
    the second finds a root that is neither an object nor an array. *)
Definition root_patches : list jsonpatch.operation :=
  [operation "add" "" (Some (VInt 5)) None;
   operation "add" "" (Some (VInt 6)) None].

(** Replies of the model and what [json.loads] makes of them. *)
Definition unknown_action_text : string :=
  "{" ++ quoted "actions" ++ ": [{" ++ quoted "action" ++ ": " ++ quoted "noop" ++ "}]}".
Definition unknown_action_reply : tree :=
  TDict [("actions", TList [TDict [("action", Leaf (VStr "noop"))]])].

Definition finalize_text : string :=
  "{" ++ quoted "actions" ++ ": [{" ++ quoted "action" ++ ": " ++ quoted "update_guidance"
    ++ ", " ++ quoted "input" ++ ": {" ++ quoted "pending_action" ++ ": "
    ++ quoted "expect_total" ++ "}}]}".
Definition finalize_reply : tree :=
  TDict [("actions",
          TList [TDict [("action", Leaf (VStr "update_guidance"));
                        ("input", TDict [("pending_action", Leaf (VStr "expect_total"))])]])].

Definition misspelt_finalize_text : string :=
  "{" ++ quoted "actions" ++ ": [{" ++ quoted "action" ++ ": " ++ quoted "update_guidance"
    ++ ", " ++ quoted "input" ++ ": {" ++ quoted "pending" ++ ": "
    ++ quoted "expect_total" ++ "}}]}".
Definition misspelt_finalize_reply : tree :=
  TDict [("actions",
          TList [TDict [("action", Leaf (VStr "update_guidance"));
                        ("input", TDict [("pending", Leaf (VStr "expect_total"))])]])].

Definition no_actions_text : string :=
  "{" ++ quoted "think" ++ ": " ++ quoted "nothing to do" ++ "}".
Definition no_actions_reply : tree :=
  TDict [("think", Leaf (VStr "nothing to do"))].

Definition loads (content : string) : tree + string :=
  if decide (content = unknown_action_text) then inl unknown_action_reply
  else if decide (content = finalize_text) then inl finalize_reply
  else if decide (content = misspelt_finalize_text) then inl misspelt_finalize_reply
  else if decide (content = no_actions_text) then inl no_actions_reply
  else inr "Expecting value: line 1 column 1 (char 0)".

(** Collaborators: a model that always asks for the unknown action
    [noop], one chunk per text, and messages appended to the history. *)
Definition collaborators : Collaborators :=
  {| json_loads := loads;
     chunk_with_fallback := λ text, [text];
     build_system_prompt := λ _ _ _ _, "system";
     build_user_message := λ chunk _ _, chunk;
     build_observation_message := λ _ _, "observation";
     llm_invoke := λ _ _, unknown_action_text;
     add_messages := λ old new, (old ++ new)%list |}.

(** The state of a run over one chunk, after the model replied
    [reply]. *)
Definition state_after (reply : string) (max_iterations : Z) : AgentState :=
  {| text := "Ann owes 5"; target_schema := None; max_iterations := max_iterations;
     chunks := ["Ann owes 5"]; current_chunk_idx := 0;
     current_chunk := Some "Ann owes 5"; json_document := VRef 1%positive;
     guidance := TDict [];
     messages := [SystemMessage "system"; HumanMessage "Ann owes 5"; AIMessage reply];
     actions_results := []; is_chunk_finalized := false; iteration_count := 1;
     error := None |}.

(** The run at the first model call of its chunk. *)
Definition chunk_start (max_iterations : Z) : config :=
  {| at_node := CallLLM;
     state_of :=
       {| text := "Ann owes 5"; target_schema := None; max_iterations := max_iterations;
          chunks := ["Ann owes 5"]; current_chunk_idx := 0;
          current_chunk := Some "Ann owes 5"; json_document := VRef 1%positive;
          guidance := TDict [];
          messages := [SystemMessage "system"; HumanMessage "Ann owes 5"];
          actions_results := []; is_chunk_finalized := false; iteration_count := 0;
          error := None |};
     llm_calls := 0 |}.

(** A text of [101] characters, and a document that holds it. *)
Definition long_text : string := string_of_list_ascii (replicate 101 "a"%char).

Definition long_document : heap :=
  {[ 1%positive := ODict [("note", VStr long_text)] ]}.

(** A parser that reads the one reply of the model and nothing else,
    and the collaborators with it: the dispatcher returns on every
    state. *)
Definition one_reply_loads (content : string) : tree + string :=
  if decide (content = unknown_action_text) then inl unknown_action_reply
  else inr "Expecting value: line 1 column 1 (char 0)".

Definition steady_collaborators : Collaborators :=
  {| json_loads := one_reply_loads;
     chunk_with_fallback := λ text, [text];
     build_system_prompt := λ _ _ _ _, "system";
     build_user_message := λ chunk _ _, chunk;
     build_observation_message := λ _ _, "observation";
     llm_invoke := λ _ _, unknown_action_text;
     add_messages := λ old new, (old ++ new)%list |}.

(** The run before its first step. *)
Definition run_start (max_iterations : Z) : config :=
  {| at_node := ChunkText;
     state_of :=
       {| text := "Ann owes 5"; target_schema := None; max_iterations := max_iterations;
          chunks := []; current_chunk_idx := 0; current_chunk := None;
          json_document := VRef 1%positive; guidance := TDict [];
          messages := []; actions_results := []; is_chunk_finalized := false;
          iteration_count := 0; error := None |};
     llm_calls := 0 |}.

(** A turn of two actions: the unknown [noop] and an [update_guidance]
    that is not alone. *)
Definition two_actions : list tree :=
  [TDict [("action", Leaf (VStr "noop"))];
   TDict [("action", Leaf (VStr "update_guidance"));
          ("input", TDict [("pending_action", Leaf (VStr "expect_total"))])]].

End Examples.

#[local] Set Warnings "-clear-no-such-hyp".

(** * The pointer codec *)

Module PointerCodecFacts.

Lemma append_cons a s t : String a s ++ t = String a (s ++ t).
Proof. reflexivity. Qed.

Lemma append_nil t : EmptyString ++ t = t.
Proof. reflexivity. Qed.

Ltac scan_step :=
  rewrite ?append_cons, ?append_nil;
  cbn [PyStr.replace_scan PyStr.startswith String.length Nat.sub].

Lemma replace_tilde s :
  PyStr.replace "~" "~0" s = expand_chars tilde_char s.
Proof.
  unfold PyStr.replace. induction s as [|c r IH]; [done|].
  cbn [expand_chars]. unfold tilde_char at 1. scan_step.
  rewrite (Ascii.eqb_sym "~" c).
  destruct (Ascii.eqb c "~") eqn:E; scan_step; by rewrite IH.
Qed.

Lemma replace_slash_after_tilde s :
  PyStr.replace "/" "~1" (expand_chars tilde_char s) = expand_chars escape_char s.
Proof.
  unfold PyStr.replace. induction s as [|c r IH]; [done|].
  cbn [expand_chars]. unfold tilde_char at 1, escape_char at 1.
  destruct (Ascii.eqb c "~") eqn:E.
  - scan_step. cbn [Ascii.eqb Bool.eqb]. by rewrite IH.
  - scan_step. rewrite (Ascii.eqb_sym "/" c).
    destruct (Ascii.eqb c "/") eqn:E2; scan_step; by rewrite IH.
Qed.

Lemma encode_expand_chars s : encode_pointer_token s = expand_chars escape_char s.
Proof.
  unfold encode_pointer_token. by rewrite replace_tilde, replace_slash_after_tilde.
Qed.

Lemma unescape_slash s :
  PyStr.replace "~1" "/" (expand_chars escape_char s) = expand_chars tilde_char s.
Proof.
  unfold PyStr.replace. induction s as [|c r IH]; [done|].
  cbn [expand_chars]. unfold escape_char at 1, tilde_char at 1.
  destruct (Ascii.eqb c "~") eqn:E.
  - scan_step. cbn [Ascii.eqb Bool.eqb]. by rewrite IH.
  - destruct (Ascii.eqb c "/") eqn:E2.
    + apply Ascii.eqb_eq in E2 as ->. scan_step. cbn [Ascii.eqb Bool.eqb].
      scan_step. by rewrite IH.
    + scan_step. rewrite (Ascii.eqb_sym "~" c), E. by rewrite IH.
Qed.

Lemma unescape_tilde s :
  PyStr.replace "~0" "~" (expand_chars tilde_char s) = s.
Proof.
  unfold PyStr.replace. induction s as [|c r IH]; [done|].
  cbn [expand_chars]. unfold tilde_char at 1.
  destruct (Ascii.eqb c "~") eqn:E.
  - apply Ascii.eqb_eq in E as ->. scan_step. cbn [Ascii.eqb Bool.eqb].
    by rewrite IH.
  - scan_step. rewrite (Ascii.eqb_sym "~" c), E. by rewrite IH.
Qed.

End PointerCodecFacts.

(** C7: for every string [s], decoding the encoded token gives [s] back:
    [decode_pointer_token (encode_pointer_token s) = s].  The encoder
    replaces [~] by [~0] and then [/] by [~1]; the decoder replaces [~1]
    by [/] and then [~0] by [~]. *)
Theorem pointer_token_round_trip (s : string) :
  decode_pointer_token (encode_pointer_token s) = s.
Proof.
  unfold decode_pointer_token.
  rewrite PointerCodecFacts.encode_expand_chars, PointerCodecFacts.unescape_slash.
  apply PointerCodecFacts.unescape_tilde.
Qed.

(** * Facts about stores *)

Section store_facts.
Context (h : heap) (S : gset loc).
Hypothesis Hclosed : closed_in h S = true.

Lemma closed_in_lookup l :
  l ∈ S → ∃ o, h !! l = Some o ∧ Forall (λ v, val_in S v = true) (obj_vals o).
Proof.
  intros Hl. unfold closed_in in Hclosed.
  rewrite forallb_forall in Hclosed.
  specialize (Hclosed l). destruct (h !! l) as [o|].
  - exists o. split; [done|]. apply Forall_forall. intros v Hv.
    assert (Hin : In l (elements S)) by (apply list_elem_of_In; set_solver).
    specialize (Hclosed Hin). rewrite forallb_forall in Hclosed.
    apply Hclosed. by apply list_elem_of_In.
  - assert (Hin : In l (elements S)) by (apply list_elem_of_In; set_solver).
    by specialize (Hclosed Hin).
Qed.

Lemma classify_in v :
  val_in S v = true → ∃ c, classify h v = Some c ∧ class_in S c.
Proof.
  destruct v; cbn; try by eexists.
  intros Hl%bool_decide_eq_true.
  destruct (closed_in_lookup _ Hl) as (o & -> & Ho).
  destruct o; by eexists.
Qed.

Lemma dict_get_in k kvs v :
  Forall (λ v, val_in S v = true) kvs.*2 → dict_get k kvs = Some v → val_in S v = true.
Proof.
  induction kvs as [|[k' v'] r IH]; cbn; [done|].
  intros [Hv Hr]%Forall_cons. case_decide; [by intros [= <-]|auto].
Qed.

Lemma seq_part_cases p :
  jsonpointer.seq_part p = Some (Ok jsonpointer.PEnd)
  ∨ (∃ n, jsonpointer.seq_part p = Some (Ok (jsonpointer.PIndex n)))
  ∨ jsonpointer.seq_part p = Some (Raise JsonPointerException).
Proof.
  unfold jsonpointer.seq_part. case_decide; [by left|].
  destruct (jsonpointer.parse_index p); [right; left; by eexists|by right; right].
Qed.

(** A step of a pointer from a value of [S] either fails with a
    [JsonPointerException] or gives a value of [S]. *)
Lemma walk_in doc p :
  val_in S doc = true →
  jsonpointer.walk h doc p = Some (Raise JsonPointerException)
  ∨ ∃ v, jsonpointer.walk h doc p = Some (Ok v) ∧ val_in S v = true.
Proof.
  intros Hdoc. unfold jsonpointer.walk.
  destruct (classify_in _ Hdoc) as (c & -> & Hc). destruct c as [kvs|xs|s|]; cbn in Hc.
  - destruct (dict_get p kvs) eqn:E; [right|by left].
    eexists; split; [done|]. by eapply dict_get_in.
  - destruct (seq_part_cases p) as [->|[[n ->]| ->]]; cbn; [right; by eexists| |by left].
    destruct (xs !! n) eqn:E; [right|by left].
    eexists; split; [done|]. rewrite Forall_forall in Hc. apply Hc.
    by eapply list_elem_of_lookup_2.
  - destruct (seq_part_cases p) as [->|[[n ->]| ->]]; cbn; [right; by eexists| |by left].
    destruct (String.get n s); [right; by eexists|by left].
  - by left.
Qed.

Lemma resolve_in parts : ∀ doc,
  val_in S doc = true →
  jsonpointer.resolve h doc parts = Some (Raise JsonPointerException)
  ∨ ∃ v, jsonpointer.resolve h doc parts = Some (Ok v) ∧ val_in S v = true.
Proof.
  induction parts as [|p rest IH]; intros doc Hdoc; cbn.
  - right. by eexists.
  - destruct (walk_in doc p Hdoc) as [->|(v & -> & Hv)]; cbn; [by left|].
    by apply IH.
Qed.

Lemma JsonPointer_raises pointer e :
  jsonpointer.JsonPointer pointer = Raise e → e = JsonPointerException.
Proof.
  unfold jsonpointer.JsonPointer. repeat case_match; congruence.
Qed.

Lemma resolve_or_root_in document path :
  val_in S document = true →
  resolve_or_root h document path = Some (Raise JsonPointerException)
  ∨ ∃ v, resolve_or_root h document path = Some (Ok v) ∧ val_in S v = true.
Proof.
  intros Hdoc. unfold resolve_or_root. case_decide; [right; by eexists|].
  unfold jsonpointer.resolve_pointer.
  destruct (jsonpointer.JsonPointer path) eqn:E.
  - by apply resolve_in.
  - left. by rewrite (JsonPointer_raises _ _ E).
Qed.

Lemma type_name_in v :
  val_in S v = true → ∃ tn, type_name h v = Some tn.
Proof.
  destruct v; cbn; try by eexists.
  intros Hl%bool_decide_eq_true.
  destruct (closed_in_lookup _ Hl) as (o & -> & Ho). destruct o; by eexists.
Qed.

End store_facts.

(** * Facts about strings *)

Lemma length_string_of_list (l : list ascii) :
  String.length (string_of_list_ascii l) = length l.
Proof. induction l; cbn; congruence. Qed.

Lemma length_list_of_string (s : string) :
  length (list_ascii_of_string s) = String.length s.
Proof. induction s; cbn; congruence. Qed.

Lemma str_slice_to_length (n : nat) (s : string) :
  String.length (str_slice_to (Z.of_nat n) s) = Nat.min n (String.length s).
Proof.
  unfold str_slice_to, slice_to.
  destruct (Z.leb_spec 0 (Z.of_nat n)); [|lia].
  rewrite length_string_of_list, length_take, length_list_of_string, Nat2Z.id. lia.
Qed.

Lemma length_append (s t : string) :
  String.length (s ++ t) = (String.length s + String.length t)%nat.
Proof. induction s as [|c s IH]; cbn; [done|]. by rewrite <- IH. Qed.

Lemma inspect_preview_length (s : string) :
  (String.length (inspect_preview s) <= 103)%nat.
Proof.
  unfold inspect_preview, str_len.
  destruct (Z.ltb_spec 100 (Z.of_nat (String.length s))); [|lia].
  rewrite length_append. change 100%Z with (Z.of_nat 100).
  rewrite str_slice_to_length. change (String.length "...") with 3%nat. lia.
Qed.

(** * [inspect_keys] *)


(** * [read_value] *)

Lemma e_mapM_total {A B} (f : A → E B) (P : B → Prop) (l : list A) :
  Forall (λ a, ∃ b, f a = Some (Ok b) ∧ P b) l →
  ∃ bs, e_mapM f l = Some (Ok bs) ∧ Forall P bs.
Proof.
  induction 1 as [|a r (b & Hb & HP) _ (bs & Hbs & HPs)]; cbn.
  - by eexists.
  - rewrite Hb. cbn. rewrite Hbs. cbn. eexists. split; [reflexivity|]. by constructor.
Qed.

Lemma forallb_Forall_iff {A} (p : A → bool) (l : list A) :
  forallb p l = true ↔ Forall (λ a, p a = true) l.
Proof. rewrite forallb_forall, Forall_forall. by setoid_rewrite list_elem_of_In. Qed.

Lemma tdict_set_forall (p : string * tree → bool) k v kvs :
  p (k, v) = true → forallb p kvs = true → forallb p (tdict_set k v kvs) = true.
Proof.
  intros Hv. induction kvs as [|[k' v'] r IH]; cbn.
  - by rewrite Hv.
  - intros [H1 H2]%andb_true_iff. case_decide; cbn.
    + by rewrite Hv, H2.
    + by rewrite H1, IH.
Qed.

Lemma slice_to_Forall {A} (P : A → Prop) (n : Z) (l : list A) :
  Forall P l → Forall P (slice_to n l).
Proof. intros Hl. unfold slice_to. case_match; by apply Forall_take. Qed.

Lemma no_compound_leaf d v :
  (∀ l, v ≠ VRef l) → no_compound_from d (Leaf v) = true.
Proof. intros Hv. destruct d, v; try done; by destruct (Hv l). Qed.

Lemma classify_scalar h v c :
  classify h v = Some c →
  match c with CStr _ | COther => ∀ l, v ≠ VRef l | _ => True end.
Proof.
  destruct v; cbn; try (intros [= <-]; done).
  repeat case_match; by intros [= <-].
Qed.

Section truncate.
Context (h : heap) (S : gset loc).
Hypothesis Hclosed : closed_in h S = true.
Variables max_string_length max_depth max_array_items max_object_keys : Z.

Abbreviation trunc fuel value depth :=
  (_truncate_value fuel h value max_string_length max_depth max_array_items
     max_object_keys depth).

(** At [max_depth] or below, a [dict] or a [list] becomes its
    placeholder. *)
Lemma truncate_at_max_depth fuel value current_depth :
  (max_depth <= current_depth)%Z →
  match classify h value with
  | Some (CDict kvs) =>
      trunc fuel value current_depth =
        Some (Ok (Leaf (VStr ("{...} (" ++ str_of_int (list_len kvs) ++ " keys)"))))
  | Some (CList xs) =>
      trunc fuel value current_depth =
        Some (Ok (Leaf (VStr ("[...] (" ++ str_of_int (list_len xs) ++ " items)"))))
  | _ => True
  end.
Proof.
  intros Hd%Z.leb_le.
  destruct (classify h value) as [[]|] eqn:Hc; try done;
    destruct fuel; cbn; by rewrite Hd, Hc.
Qed.

(** With as many levels of fuel as are left above [max_depth], the
    truncation returns, and its result has no compound value at
    [max_depth] or below. *)
Lemma truncate_total_bounded fuel : ∀ value current_depth,
  val_in S value = true →
  (Z.to_nat (max_depth - current_depth) <= fuel)%nat →
  ∃ t, trunc fuel value current_depth = Some (Ok t)
       ∧ no_compound_from (Z.to_nat (max_depth - current_depth)) t = true.
Proof.
  induction fuel as [|fuel IH]; intros value cd Hv Hfuel.
  - assert (Hd : (max_depth <=? cd)%Z = true) by (apply Z.leb_le; lia).
    destruct (classify_in h S Hclosed value Hv) as (c & Hc & _).
    cbn. rewrite Hd, Hc.
    pose proof (classify_scalar _ _ _ Hc) as Hs.
    destruct c; try case_match; eexists; (split; [reflexivity|]);
      by apply no_compound_leaf.
  - destruct (classify_in h S Hclosed value Hv) as (c & Hc & Hin).
    cbn. rewrite Hc. destruct (Z.leb_spec max_depth cd) as [Hd|Hd].
    + pose proof (classify_scalar _ _ _ Hc) as Hs.
      destruct c; try case_match; eexists; (split; [reflexivity|]);
        by apply no_compound_leaf.
    + assert (Hs : Z.to_nat (max_depth - cd) = Datatypes.S (Z.to_nat (max_depth - (cd + 1))))
        by lia.
      rewrite Hs.
      assert (Hrec : ∀ v, val_in S v = true →
        ∃ t, trunc fuel v (cd + 1)%Z = Some (Ok t)
             ∧ no_compound_from (Z.to_nat (max_depth - (cd + 1))) t = true).
      { intros v Hv'. apply IH; [done|lia]. }
      destruct c as [kvs|xs|s|]; cbn in Hin.
      * set (go := λ kv : string * val,
                     trunc fuel kv.2 (cd + 1)%Z ≫= λ t, mret (kv.1, t)).
        assert (Hgo : ∀ l, Forall (λ v, val_in S v = true) l.*2 →
          ∃ bs, e_mapM go l = Some (Ok bs)
                ∧ Forall (λ kv, no_compound_from (Z.to_nat (max_depth - (cd + 1))) kv.2 = true) bs).
        { intros l Hl. apply e_mapM_total. rewrite Forall_fmap in Hl.
          eapply Forall_impl; [exact Hl|]. intros [k v] Hkv. cbn in Hkv.
          destruct (Hrec v Hkv) as (t & Ht & Hb). exists (k, t).
          unfold go. cbn. rewrite Ht. by cbn. }
        case_match.
        -- destruct (Hgo (slice_to max_object_keys kvs)) as (bs & -> & Hbs).
           { rewrite Forall_fmap. apply slice_to_Forall. by rewrite <- Forall_fmap. }
           cbn. eexists. split; [reflexivity|]. cbn.
           apply tdict_set_forall; [by apply no_compound_leaf|]. by apply forallb_Forall_iff.
        -- destruct (Hgo kvs Hin) as (bs & -> & Hbs).
           cbn. eexists. split; [reflexivity|]. cbn. by apply forallb_Forall_iff.
      * assert (Hgo : ∀ l, Forall (λ v, val_in S v = true) l →
          ∃ bs, e_mapM (λ item, trunc fuel item (cd + 1)%Z) l = Some (Ok bs)
                ∧ Forall (λ t, no_compound_from (Z.to_nat (max_depth - (cd + 1))) t = true) bs).
        { intros l Hl. apply e_mapM_total. eapply Forall_impl; [exact Hl|].
          intros v Hv'. apply (Hrec v Hv'). }
        case_match.
        -- destruct (Hgo (slice_to max_array_items xs)) as (bs & -> & Hbs).
           { by apply slice_to_Forall. }
           cbn. eexists. split; [reflexivity|]. cbn.
           rewrite forallb_app. cbn [forallb]. rewrite no_compound_leaf by done. rewrite !andb_true_r. by apply forallb_Forall_iff.
        -- destruct (Hgo xs Hin) as (bs & -> & Hbs).
           cbn. eexists. split; [reflexivity|]. cbn. by apply forallb_Forall_iff.
      * pose proof (classify_scalar _ _ _ Hc) as Hsc.
        destruct (max_string_length <? str_len s)%Z; eexists;
          (split; [reflexivity|]); by apply no_compound_leaf.
      * pose proof (classify_scalar _ _ _ Hc) as Hsc.
        eexists; (split; [reflexivity|]). by apply no_compound_leaf.
Qed.

End truncate.

(** C5: for a document held in a closed set of objects, every path and
    every limit, [read_value] returns a result, and a value it returns
    holds no [dict] and no [list] at [max_depth] levels or more below its
    root.  A [dict] or [list] met at a depth that is at least [max_depth]
    becomes the text that gives the number of its keys or items. *)
Theorem read_value_depth_bound (h : heap) (S : gset loc) (document : val)
    (path : string) (max_string_length max_depth max_array_items max_object_keys : Z) :
  closed_in h S = true →
  val_in S document = true →
  (∃ r, read_value h document path max_string_length max_depth max_array_items
          max_object_keys = Some (Ok r)
        ∧ ∀ p value tn, r = ReadFound p value tn →
            no_compound_from (Z.to_nat max_depth) value = true)
  ∧ ∀ fuel value current_depth, (max_depth <= current_depth)%Z →
      match classify h value with
      | Some (CDict kvs) =>
          _truncate_value fuel h value max_string_length max_depth max_array_items
            max_object_keys current_depth
          = Some (Ok (Leaf (VStr ("{...} (" ++ str_of_int (list_len kvs) ++ " keys)"))))
      | Some (CList xs) =>
          _truncate_value fuel h value max_string_length max_depth max_array_items
            max_object_keys current_depth
          = Some (Ok (Leaf (VStr ("[...] (" ++ str_of_int (list_len xs) ++ " items)"))))
      | _ => True
      end.
Proof.
  intros Hc Hdoc. split; [|intros; by apply truncate_at_max_depth].
  unfold read_value.
  destruct (resolve_or_root_in h S Hc document path Hdoc) as [->|(v & -> & Hv)].
  { eexists. split; [reflexivity|]. by intros. }
  destruct (truncate_total_bounded h S Hc max_string_length max_depth max_array_items
              max_object_keys (Z.to_nat max_depth) v 0%Z Hv) as (t & Ht & Hb); [lia|].
  rewrite Ht. cbn.
  destruct (type_name_in h S Hc v Hv) as (tn & ->).
  eexists. split; [reflexivity|]. intros p value tn' [= _ <- _].
  by rewrite Z.sub_0_r in Hb.
Qed.

(** * [search_pointer] *)

Section search_facts.
Context `{PyRuntime} (h : heap) (S : gset loc).
Hypothesis Hclosed : closed_in h S = true.
Variables (query search_type : string) (fuzzy : bool) (max_value_length : Z).

Lemma is_compound_in v : val_in S v = true → ∃ c, is_compound h v = Some c.
Proof.
  destruct v; cbn; try by eexists.
  intros Hl%bool_decide_eq_true.
  destruct (closed_in_lookup h S Hclosed _ Hl) as (o & -> & _). by eexists.
Qed.

Lemma preview_value_in v n : val_in S v = true → ∃ s, _preview_value h v n = Some s.
Proof.
  intros Hv. unfold _preview_value.
  destruct (classify_in h S Hclosed v Hv) as (c & -> & _).
  destruct c; try case_match; by eexists.
Qed.

(** The test on one item appends at most one match. *)
Lemma dict_item_match_spec new_path key v matches :
  val_in S v = true →
  ∃ matches', dict_item_match h query search_type fuzzy max_value_length
                new_path key v matches = Some matches'
    ∧ (matches' = matches ∨ ∃ m, matches' = (matches ++ [m])%list).
Proof.
  intros Hv. unfold dict_item_match.
  destruct (preview_value_in v max_value_length Hv) as (s & ->).
  destruct (is_compound_in v Hv) as (c & ->). cbn.
  repeat case_match; eexists; (split; [reflexivity|]); eauto.
Qed.

Lemma list_item_match_spec new_path v matches :
  val_in S v = true →
  ∃ matches', list_item_match h query search_type fuzzy max_value_length
                new_path v matches = Some matches'
    ∧ (matches' = matches ∨ ∃ m, matches' = (matches ++ [m])%list).
Proof.
  intros Hv. unfold list_item_match.
  destruct (is_compound_in v Hv) as (c & ->). cbn.
  repeat case_match; eexists; (split; [reflexivity|]); eauto.
Qed.

Lemma search_post_trans limit st1 st2 b st3 :
  search_post limit st1 false st2 → search_post limit st2 b st3 →
  search_post limit st1 b st3.
Proof. unfold search_post. intros (?&?&?) (?&?&?). split_and!; [set_solver|auto..]. Qed.

Section loops.
Variables (limit : Z) (fuel : nat).
Variable recur : val → string → search_state → option (bool * search_state).
Hypothesis recur_ok : ∀ v p st,
  val_in S v = true → (size (S ∖ st.2) <= fuel)%nat →
  ∃ b st', recur v p st = Some (b, st') ∧ search_post limit st b st'.

Lemma after_item_post (st : search_state) matches' :
  (list_len st.1 < limit)%Z →
  (matches' = st.1 ∨ ∃ m, matches' = (st.1 ++ [m])%list) →
  search_post limit st false (matches', st.2).
Proof.
  intros Hlt Hm. split_and!; cbn; [done| |done].
  intros _. destruct Hm as [->|[m ->]]; [lia|].
  unfold list_len in *. rewrite length_app. cbn. lia.
Qed.

Lemma search_dict_items_ok current_path kvs : ∀ st,
  Forall (λ v, val_in S v = true) kvs.*2 →
  (size (S ∖ st.2) <= fuel)%nat →
  ∃ b st', search_dict_items h query search_type fuzzy limit max_value_length
             recur current_path kvs st = Some (b, st')
    ∧ search_post limit st b st'.
Proof.
  induction kvs as [|[key v] rest IH]; intros st Hin Hsize; cbn [search_dict_items].
  { exists false, st. split; [done|]. by split_and!. }
  apply Forall_cons in Hin as [Hv Hrest].
  destruct (Z.leb_spec limit (list_len st.1)) as [Hge|Hlt].
  { exists true, st. split; [done|]. by split_and!. }
  destruct (dict_item_match_spec (current_path ++ "/" ++ _escape_pointer_token key)
              key v st.1 Hv) as (matches' & -> & Hm).
  destruct (is_compound_in v Hv) as (c & ->). cbn [mbind option_bind].
  pose proof (after_item_post st matches' Hlt Hm) as Hpost.
  destruct c.
  - destruct (recur_ok v (current_path ++ "/" ++ _escape_pointer_token key)
                (matches', st.2) Hv Hsize) as (b & st1 & -> & Hpost1).
    cbn [mbind option_bind fst snd]. destruct b.
    + exists true, st1. split; [done|]. by eapply search_post_trans.
    + destruct (IH st1 Hrest) as (b & st2 & -> & Hpost2).
      { destruct Hpost1 as (Hsub & _). cbn in Hsub.
        etransitivity; [|exact Hsize]. apply subseteq_size. set_solver. }
      exists b, st2. split; [done|].
      eapply search_post_trans; [|exact Hpost2]. by eapply search_post_trans.
  - destruct (IH (matches', st.2) Hrest Hsize) as (b & st2 & -> & Hpost2).
    exists b, st2. split; [done|]. by eapply search_post_trans.
Qed.

Lemma search_list_items_ok current_path xs : ∀ idx st,
  Forall (λ v, val_in S v = true) xs →
  (size (S ∖ st.2) <= fuel)%nat →
  ∃ b st', search_list_items h query search_type fuzzy limit max_value_length
             recur current_path idx xs st = Some (b, st')
    ∧ search_post limit st b st'.
Proof.
  induction xs as [|v rest IH]; intros idx st Hin Hsize; cbn [search_list_items].
  { exists false, st. split; [done|]. by split_and!. }
  apply Forall_cons in Hin as [Hv Hrest].
  destruct (Z.leb_spec limit (list_len st.1)) as [Hge|Hlt].
  { exists true, st. split; [done|]. by split_and!. }
  destruct (list_item_match_spec (current_path ++ "/" ++ pretty idx)
              v st.1 Hv) as (matches' & -> & Hm).
  destruct (is_compound_in v Hv) as (c & ->). cbn [mbind option_bind].
  pose proof (after_item_post st matches' Hlt Hm) as Hpost.
  destruct c.
  - destruct (recur_ok v (current_path ++ "/" ++ pretty idx)
                (matches', st.2) Hv Hsize) as (b & st1 & -> & Hpost1).
    cbn [mbind option_bind fst snd]. destruct b.
    + exists true, st1. split; [done|]. by eapply search_post_trans.
    + destruct (IH (Datatypes.S idx) st1 Hrest) as (b & st2 & -> & Hpost2).
      { destruct Hpost1 as (Hsub & _). cbn in Hsub.
        etransitivity; [|exact Hsize]. apply subseteq_size. set_solver. }
      exists b, st2. split; [done|].
      eapply search_post_trans; [|exact Hpost2]. by eapply search_post_trans.
  - destruct (IH (Datatypes.S idx) (matches', st.2) Hrest Hsize) as (b & st2 & -> & Hpost2).
    exists b, st2. split; [done|]. by eapply search_post_trans.
Qed.

End loops.

(** With one unit of fuel for every object of [S] not yet in [seen], the
    search returns. *)
Lemma search_recursive_ok limit fuel : ∀ obj current_path st,
  val_in S obj = true → (size (S ∖ st.2) <= fuel)%nat →
  ∃ b st', _search_recursive h query search_type fuzzy limit max_value_length
             fuel obj current_path st = Some (b, st')
    ∧ search_post limit st b st'.
Proof.
  induction fuel as [|fuel IH]; intros obj current_path st Hobj Hsize.
  - cbn. destruct (Z.leb_spec limit (list_len st.1)).
    { exists true, st. split; [done|]. by split_and!. }
    destruct obj; try (exists false, st; split; [done|]; by split_and!).
    case_decide; [exists false, st; split; [done|]; by split_and!|].
    cbn in Hobj. apply bool_decide_eq_true in Hobj.
    assert (l ∈ S ∖ st.2) as Hl by set_solver.
    assert (size (S ∖ st.2) ≠ 0%nat); [|lia].
    intros Hz%size_empty_inv. set_solver.
  - cbn. destruct (Z.leb_spec limit (list_len st.1)).
    { exists true, st. split; [done|]. by split_and!. }
    destruct obj; try (exists false, st; split; [done|]; by split_and!).
    case_decide as Hseen; [exists false, st; split; [done|]; by split_and!|].
    cbn in Hobj. apply bool_decide_eq_true in Hobj.
    destruct (closed_in_lookup h S Hclosed _ Hobj) as (o & -> & Ho).
    assert (Hsize' : ∀ st' : search_state, {[l]} ∪ st.2 ⊆ st'.2 →
                       (size (S ∖ st'.2) <= fuel)%nat).
    { intros st' Hsub.
      assert (size (S ∖ st'.2) < size (S ∖ st.2))%nat; [|lia].
      apply subset_size. set_solver. }
    destruct o as [kvs|xs]; cbn in Ho.
    + destruct (search_dict_items_ok limit fuel
                  (_search_recursive h query search_type fuzzy limit max_value_length fuel)
                  IH current_path kvs (st.1, {[l]} ∪ st.2) Ho) as (b & st' & -> & Hpost).
      { by apply Hsize'. }
      exists b, st'. split; [done|].
      destruct Hpost as (Hsub & Hlen & Hb). cbn in *. split_and!; [set_solver|done..].
    + destruct (search_list_items_ok limit fuel
                  (_search_recursive h query search_type fuzzy limit max_value_length fuel)
                  IH current_path xs 0%nat (st.1, {[l]} ∪ st.2) Ho) as (b & st' & -> & Hpost).
      { by apply Hsize'. }
      exists b, st'. split; [done|].
      destruct Hpost as (Hsub & Hlen & Hb). cbn in *. split_and!; [set_solver|done..].
Qed.

(** A search that was not cut short does the same under a larger
    limit. *)
Section larger_limit.
Variables (limit limit' : Z).
Hypothesis Hle : (limit <= limit')%Z.
Variables recur recur' : val → string → search_state → option (bool * search_state).
Hypothesis recur_same : ∀ v p st st',
  recur v p st = Some (false, st') → recur' v p st = Some (false, st').

Lemma search_dict_items_larger current_path kvs : ∀ st st',
  search_dict_items h query search_type fuzzy limit max_value_length
    recur current_path kvs st = Some (false, st') →
  search_dict_items h query search_type fuzzy limit' max_value_length
    recur' current_path kvs st = Some (false, st').
Proof.
  induction kvs as [|[key v] rest IH]; intros st st'; cbn [search_dict_items]; [done|].
  destruct (Z.leb_spec limit (list_len st.1)); [done|].
  destruct (Z.leb_spec limit' (list_len st.1)); [lia|].
  destruct (dict_item_match _ _ _ _ _ _ _ _ _) as [matches'|]; [cbn [mbind option_bind]|done].
  destruct (is_compound h v) as [[]|]; [cbn [mbind option_bind]| |done].
  - destruct (recur _ _ _) as [[[] st1]|] eqn:E; cbn [mbind option_bind fst snd]; [done| |done].
    rewrite (recur_same _ _ _ _ E). cbn [mbind option_bind fst snd]. apply IH.
  - apply IH.
Qed.

Lemma search_list_items_larger current_path xs : ∀ idx st st',
  search_list_items h query search_type fuzzy limit max_value_length
    recur current_path idx xs st = Some (false, st') →
  search_list_items h query search_type fuzzy limit' max_value_length
    recur' current_path idx xs st = Some (false, st').
Proof.
  induction xs as [|v rest IH]; intros idx st st'; cbn [search_list_items]; [done|].
  destruct (Z.leb_spec limit (list_len st.1)); [done|].
  destruct (Z.leb_spec limit' (list_len st.1)); [lia|].
  destruct (list_item_match _ _ _ _ _ _ _ _) as [matches'|]; [cbn [mbind option_bind]|done].
  destruct (is_compound h v) as [[]|]; [cbn [mbind option_bind]| |done].
  - destruct (recur _ _ _) as [[[] st1]|] eqn:E; cbn [mbind option_bind fst snd]; [done| |done].
    rewrite (recur_same _ _ _ _ E). cbn [mbind option_bind fst snd]. apply IH.
  - apply IH.
Qed.

End larger_limit.

Lemma search_recursive_larger limit limit' fuel :
  (limit <= limit')%Z → ∀ obj current_path st st',
  _search_recursive h query search_type fuzzy limit max_value_length
    fuel obj current_path st = Some (false, st') →
  _search_recursive h query search_type fuzzy limit' max_value_length
    fuel obj current_path st = Some (false, st').
Proof.
  intros Hle. induction fuel as [|fuel IH]; intros obj current_path st st'; cbn.
  - destruct (Z.leb_spec limit (list_len st.1)); [done|].
    destruct (Z.leb_spec limit' (list_len st.1)); [lia|].
    destruct obj; done.
  - destruct (Z.leb_spec limit (list_len st.1)); [done|].
    destruct (Z.leb_spec limit' (list_len st.1)); [lia|].
    destruct obj; try done. case_decide; [done|].
    destruct (h !! l) as [[kvs|xs]|]; [| |done].
    + by apply search_dict_items_larger.
    + by apply search_list_items_larger.
Qed.

End search_facts.

Lemma closed_in_subseteq_dom (h : heap) (S : gset loc) :
  closed_in h S = true → S ⊆ dom h.
Proof.
  intros Hc l Hl. destruct (closed_in_lookup h S Hc l Hl) as (o & Ho & _).
  apply elem_of_dom. by eexists.
Qed.

(** C6: for a document held in a closed set of objects, which may refer
    to itself, and every query, search type, fuzzy flag and limit,
    [search_pointer] returns a result whose count is the number of its
    matches.  For a limit that is not negative the count is at most the
    limit.  A result marked truncated has at least [limit] matches, and a
    result that is not marked is the result of the search with any larger
    limit: the search stopped early only when the mark is set. *)
Theorem search_pointer_terminates_bounded `{PyRuntime} (h : heap) (S : gset loc)
    (document : val) (query search_type : string) (fuzzy_match : bool)
    (limit max_value_length : Z) :
  closed_in h S = true →
  val_in S document = true →
  ∃ r, search_pointer h document query search_type fuzzy_match limit
         max_value_length = Some r
    ∧ sr_count r = list_len (sr_matches r)
    ∧ ((0 <= limit)%Z → (sr_count r <= limit)%Z)
    ∧ (sr_truncated r = true → (limit <= sr_count r)%Z)
    ∧ (sr_truncated r = false → ∀ limit', (limit <= limit')%Z →
         search_pointer h document query search_type fuzzy_match limit'
           max_value_length = Some r).
Proof.
  intros Hc Hdoc. unfold search_pointer.
  destruct (search_recursive_ok h S Hc query search_type fuzzy_match max_value_length
              limit (size h) document "" ([], ∅) Hdoc) as (b & st' & Hrun & Hpost).
  { cbn. rewrite <- size_dom. apply subseteq_size.
    pose proof (closed_in_subseteq_dom h S Hc). set_solver. }
  rewrite Hrun. cbn. eexists. split; [done|]. cbn.
  destruct Hpost as (_ & Hlen & Hb). cbn in Hlen.
  split_and!; [done|auto..].
  intros -> limit' Hle.
  by rewrite (search_recursive_larger h query search_type fuzzy_match max_value_length
                limit limit' (size h) Hle _ _ _ _ Hrun).
Qed.

(** * Computations on the store *)

Lemma m_bind_inv {A B} (m : M A) (f : A → M B) h r h' :
  (m ≫= f) h = Some (r, h') →
  (∃ a h1, m h = Some (Ok a, h1) ∧ f a h1 = Some (r, h'))
  ∨ (∃ e, m h = Some (Raise e, h') ∧ r = Raise e).
Proof.
  unfold mbind, M_bind. destruct (m h) as [[[a|e] h1]|]; [|intros [= <- <-]|done].
  - left. eauto.
  - right. eauto.
Qed.

Lemma m_ret_inv {A} (a : A) h r h' :
  @mret M _ A a h = Some (r, h') → r = Ok a ∧ h' = h.
Proof. by intros [= <- <-]. Qed.

Lemma m_raise_inv {A} e h (r : res A) h' :
  m_raise e h = Some (r, h') → r = Raise e ∧ h' = h.
Proof. by intros [= <- <-]. Qed.

Lemma m_read_inv {A} (f : heap → E A) h r h' :
  m_read f h = Some (r, h') → f h = Some r ∧ h' = h.
Proof. unfold m_read. destruct (f h); [|done]. by intros [= <- <-]. Qed.

Lemma m_lift_inv {A} (x : res A) h r h' :
  m_lift x h = Some (r, h') → r = x ∧ h' = h.
Proof. destruct x; by intros [= <- <-]. Qed.

Lemma class_of_inv v h r h' :
  jsonpatch.class_of v h = Some (r, h') → ∃ c, classify h v = Some c ∧ r = Ok c ∧ h' = h.
Proof.
  unfold jsonpatch.class_of. destruct (classify h v); [|done].
  intros [= <- <-]. eauto.
Qed.

Lemma subobj_loc_inv v h r h' :
  jsonpatch.subobj_loc v h = Some (r, h') → ∃ l, v = VRef l ∧ r = Ok l ∧ h' = h.
Proof. destruct v; try done. intros [= <- <-]. eauto. Qed.

Lemma m_load_inv l h r h' :
  m_load l h = Some (r, h') → ∃ o, h !! l = Some o ∧ r = Ok o ∧ h' = h.
Proof. unfold m_load. destruct (h !! l); [|done]. intros [= <- <-]. eauto. Qed.

Lemma m_store_inv l o h r h' :
  m_store l o h = Some (r, h') → is_Some (h !! l) ∧ r = Ok tt ∧ h' = (<[l := o]> h).
Proof. unfold m_store. destruct (h !! l); [|done]. intros [= <- <-]. eauto. Qed.

Lemma m_alloc_inv o h r h' :
  m_alloc o h = Some (r, h') →
  ∃ l, (l ∉ dom h) ∧ r = Ok l ∧ h' = (<[l := o]> h).
Proof.
  intros [= <- <-]. eexists. split; [|done]. apply is_fresh.
Qed.

Lemma m_catch_inv {A} (m : M A) h r h' :
  m_catch m h = Some (r, h') → ∃ x, m h = Some (x, h') ∧ r = Ok x.
Proof.
  unfold m_catch. destruct (m h) as [[x h1]|]; [|done]. intros [= <- <-]. eauto.
Qed.

(** Take a computation apart, step by step. *)
Ltac m_inv H :=
  first
    [ apply m_ret_inv in H as [-> ->]
    | apply m_raise_inv in H as [-> ->]
    | let a := fresh "a" in let h1 := fresh "h" in let H1 := fresh H in
      let e := fresh "e" in
      apply m_bind_inv in H as [(a & h1 & H1 & H)|(e & H & ->)] ].

(** * Closed sets of objects *)

Lemma closed_in_closedP h S : closed_in h S = true ↔ closedP h S.
Proof.
  split; [intros Hc l; by apply closed_in_lookup|].
  intros Hc. unfold closed_in. apply forallb_forall. intros l Hl%list_elem_of_In.
  destruct (Hc l) as (o & -> & Ho); [set_solver|].
  apply forallb_forall. intros v Hv%list_elem_of_In.
  rewrite Forall_forall in Ho. by apply Ho.
Qed.

Lemma val_in_mono S S' v : S ⊆ S' → val_in S v = true → val_in S' v = true.
Proof.
  intros Hsub. induction v; cbn; try done.
  intros Hl%bool_decide_eq_true. apply bool_decide_eq_true. set_solver.
Qed.

Lemma Forall_val_in_mono S S' vs :
  S ⊆ S' → Forall (λ v, val_in S v = true) vs → Forall (λ v, val_in S' v = true) vs.
Proof.
  intros Hsub Hvs. eapply Forall_impl; [exact Hvs|]. intros v. by apply val_in_mono.
Qed.

Lemma closedP_union h S1 S2 : closedP h S1 → closedP h S2 → closedP h (S1 ∪ S2).
Proof.
  intros H1 H2 l [Hl|Hl]%elem_of_union.
  - destruct (H1 l Hl) as (o & Ho & Hv). exists o. split; [done|].
    eapply Forall_val_in_mono; [|done]. set_solver.
  - destruct (H2 l Hl) as (o & Ho & Hv). exists o. split; [done|].
    eapply Forall_val_in_mono; [|done]. set_solver.
Qed.

Lemma closedP_dom h S : closedP h S → S ⊆ dom h.
Proof. intros Hc l Hl. destruct (Hc l Hl) as (o & Ho & _). by apply elem_of_dom. Qed.

(** ** Pointers stay inside a closed set *)

Section pointer_in.
Context (h : heap) (S : gset loc).
Hypothesis Hclosed : closedP h S.

Lemma classify_inP v c :
  val_in S v = true → classify h v = Some c → class_in S c.
Proof.
  intros Hv Hc. apply closed_in_closedP in Hclosed.
  destruct (classify_in h S Hclosed v Hv) as (c' & Hc' & Hin). congruence.
Qed.

Lemma walk_inP doc p v :
  val_in S doc = true → jsonpointer.walk h doc p = Some (Ok v) → val_in S v = true.
Proof.
  intros Hv Hw. apply closed_in_closedP in Hclosed.
  destruct (walk_in h S Hclosed doc p Hv) as [?|(v' & ? & ?)]; congruence.
Qed.

Lemma to_last_inP parts : ∀ doc subobj part,
  val_in S doc = true →
  jsonpointer.to_last h doc parts = Some (Ok (subobj, part)) →
  val_in S subobj = true.
Proof.
  induction parts as [|p rest IH]; intros doc subobj part Hdoc; cbn.
  { by intros [= <- _]. }
  destruct rest as [|p' rest'].
  - destruct (jsonpointer.get_part h doc p) as [[]|]; cbn; try done. by intros [= <- _].
  - destruct (jsonpointer.walk h doc p) as [[d|]|] eqn:Hw; cbn; try done.
    apply IH. by eapply walk_inP.
Qed.

End pointer_in.

(** * The patch engine leaves the caller's document alone *)

Section frame.
(** [h0] is the store at the call, [D] a closed set of objects that
    holds the caller's document, and [W0] a closed set, apart from [D],
    that holds the values of the patch. *)
Context (h0 : heap) (D W0 : gset loc).
Hypothesis HD : closedP h0 D.
Hypothesis HW0 : closedP h0 W0.
Hypothesis Hdisj : D ## W0.

#[local] Abbreviation work := (work h0 W0).
#[local] Abbreviation good := (good h0 D W0).
#[local] Abbreviation keeps := (keeps h0 D W0).
#[local] Abbreviation working := (working h0 W0).
#[local] Abbreviation memo_ok := (memo_ok h0 W0).
#[local] Abbreviation copied := (copied h0 W0).
#[local] Abbreviation op_value_in := (op_value_in h0 W0).

Lemma ext_refl h : ext h h.
Proof. by unfold ext. Qed.

Lemma ext_trans h1 h2 h3 : ext h1 h2 → ext h2 h3 → ext h1 h3.
Proof. unfold ext. set_solver. Qed.

Lemma good_h0 : good h0.
Proof.
  split_and!; [done..|]. intros l Hl. unfold work in *.
  assert (l ∈ W0) as Hl' by set_solver.
  destruct (HW0 l Hl') as (o & Ho & Hv). exists o. split; [done|].
  eapply Forall_val_in_mono; [|done]. set_solver.
Qed.

Lemma work_mono h h' : ext h h' → work h ⊆ work h'.
Proof. unfold work, ext. set_solver. Qed.

Lemma work_disjoint h : work h ## D.
Proof. pose proof (closedP_dom _ _ HD). unfold work. set_solver. Qed.

Lemma work_dom h : good h → work h ⊆ dom h.
Proof.
  intros (Hdom & _ & _). pose proof (closedP_dom _ _ HW0). unfold work. set_solver.
Qed.

Lemma good_closed_D h : good h → closedP h D.
Proof.
  intros (_ & Hfr & _) l Hl. rewrite (Hfr l Hl). by apply HD.
Qed.

Lemma good_closed_all h : good h → closedP h (D ∪ work h).
Proof. intros Hg. apply closedP_union; [by apply good_closed_D|apply Hg]. Qed.

Lemma val_in_work_ext h h' v :
  ext h h' → val_in (work h) v = true → val_in (work h') v = true.
Proof. intros He. apply val_in_mono. by apply work_mono. Qed.

(** Storing working values into a working object. *)
Lemma store_good h l o :
  good h → l ∈ work h → Forall (λ v, val_in (work h) v = true) (obj_vals o) →
  good (<[l := o]> h) ∧ ext h (<[l := o]> h) ∧ work (<[l := o]> h) = work h.
Proof.
  intros Hg Hl Ho.
  assert (Hdom : dom (<[l := o]> h) = dom h).
  { rewrite dom_insert_L. pose proof (work_dom h Hg). set_solver. }
  assert (Hw : work (<[l := o]> h) = work h) by (unfold work; by rewrite Hdom).
  split_and!; [|by unfold ext; rewrite Hdom|done].
  destruct Hg as (Hd & Hfr & Hcl). split_and!.
  - by rewrite Hdom.
  - intros l' Hl'. rewrite lookup_insert_ne; [by apply Hfr|].
    pose proof (work_disjoint h). set_solver.
  - rewrite Hw. intros l' Hl'. destruct (decide (l = l')) as [<-|Hne].
    + rewrite lookup_insert_eq. eauto.
    + rewrite lookup_insert_ne by done. by apply Hcl.
Qed.

(** A new object that holds working values. *)
Lemma alloc_good h l o :
  good h → l ∉ dom h → Forall (λ v, val_in (work h) v = true) (obj_vals o) →
  good (<[l := o]> h) ∧ ext h (<[l := o]> h) ∧ l ∈ work (<[l := o]> h).
Proof.
  intros Hg Hl Ho.
  assert (Hdom : dom (<[l := o]> h) = {[l]} ∪ dom h) by apply dom_insert_L.
  assert (Hext : ext h (<[l := o]> h)) by (unfold ext; set_solver).
  destruct Hg as (Hd & Hfr & Hcl).
  assert (Hlw : l ∈ work (<[l := o]> h)) by (unfold work; set_solver).
  split_and!; [|done|done]. split_and!.
  - set_solver.
  - intros l' Hl'. rewrite lookup_insert_ne; [by apply Hfr|].
    pose proof (closedP_dom _ _ HD). set_solver.
  - intros l' Hl'. destruct (decide (l = l')) as [<-|Hne].
    + rewrite lookup_insert_eq. eexists. split; [done|].
      eapply Forall_val_in_mono; [|done]. by apply work_mono.
    + rewrite lookup_insert_ne by done.
      assert (l' ∈ work h) as Hl'' by (unfold work in *; set_solver).
      destruct (Hcl l' Hl'') as (o' & Ho' & Hv'). exists o'. split; [done|].
      eapply Forall_val_in_mono; [|done]. by apply work_mono.
Qed.

Lemma keeps_ret {A} (a : A) h (Q : A → heap → Prop) :
  good h → Q a h → keeps (mret a) h Q.
Proof.
  intros Hg HQ r h' [-> ->]%m_ret_inv. split_and!; [done|apply ext_refl|].
  by intros ? [= <-].
Qed.

Lemma keeps_raise {A} e h (Q : A → heap → Prop) :
  good h → keeps (m_raise e) h Q.
Proof. intros Hg r h' [-> ->]%m_raise_inv. split_and!; [done|apply ext_refl|done]. Qed.

Lemma keeps_stuck {A} h (Q : A → heap → Prop) : keeps m_stuck h Q.
Proof. by intros r h'. Qed.

Lemma keeps_bind {A B} (m : M A) (f : A → M B) h
    (Q : A → heap → Prop) (R : B → heap → Prop) :
  keeps m h Q →
  (∀ a h1, good h1 → ext h h1 → Q a h1 → keeps (f a) h1 (λ b h2, ext h h2 → R b h2)) →
  keeps (m ≫= f) h R.
Proof.
  intros Hm Hf r h' Hrun.
  apply m_bind_inv in Hrun as [(a & h1 & Hm1 & Hf1)|(e & Hm1 & ->)].
  - destruct (Hm _ _ Hm1) as (Hg1 & He1 & HQ).
    destruct (Hf a h1 Hg1 He1 (HQ a eq_refl) _ _ Hf1) as (Hg2 & He2 & HR).
    assert (ext h h') by (by eapply ext_trans).
    split_and!; [done..|]. intros b ->. by apply (HR b).
  - destruct (Hm _ _ Hm1) as (Hg1 & He1 & _). by split_and!.
Qed.

Lemma keeps_weaken {A} (m : M A) h (Q Q' : A → heap → Prop) :
  keeps m h Q → (∀ a h', good h' → ext h h' → Q a h' → Q' a h') → keeps m h Q'.
Proof.
  intros Hm HQ r h' Hrun. destruct (Hm _ _ Hrun) as (Hg & He & Hq).
  split_and!; [done..|]. intros a ->. apply HQ; auto.
Qed.

Lemma keeps_read {A} (f : heap → E A) h (Q : A → heap → Prop) :
  good h → (∀ a, f h = Some (Ok a) → Q a h) → keeps (m_read f) h Q.
Proof.
  intros Hg HQ r h' [Hf ->]%m_read_inv. split_and!; [done|apply ext_refl|].
  intros a ->. by apply HQ.
Qed.

Lemma keeps_class_of v h (Q : pyclass → heap → Prop) :
  good h → (∀ c, classify h v = Some c → Q c h) → keeps (jsonpatch.class_of v) h Q.
Proof.
  intros Hg HQ r h' (c & Hc & -> & ->)%class_of_inv.
  split_and!; [done|apply ext_refl|].
  intros a [= <-]. by apply HQ.
Qed.

(** A step that only reads the store. *)
Lemma keeps_bind_pure {A B} (m : M A) (k : A → M B) h (R : B → heap → Prop) :
  (∀ r h', m h = Some (r, h') → h' = h) →
  good h →
  (∀ a, m h = Some (Ok a, h) → keeps (k a) h R) →
  keeps (m ≫= k) h R.
Proof.
  intros Hpure Hg Hk r h' Hrun.
  apply m_bind_inv in Hrun as [(a & h1 & Hm1 & Hf1)|(e & Hm1 & ->)].
  - pose proof (Hpure _ _ Hm1) as ->. by apply (Hk a).
  - pose proof (Hpure _ _ Hm1) as ->. split_and!; [done|apply ext_refl|done].
Qed.

Lemma m_read_pure {A} (f : heap → E A) h r h' : m_read f h = Some (r, h') → h' = h.
Proof. by intros [_ ->]%m_read_inv. Qed.

Lemma class_of_pure v h r h' : jsonpatch.class_of v h = Some (r, h') → h' = h.
Proof. by intros (? & _ & _ & ->)%class_of_inv. Qed.

Lemma subobj_loc_pure v h r h' : jsonpatch.subobj_loc v h = Some (r, h') → h' = h.
Proof. by intros (? & _ & _ & ->)%subobj_loc_inv. Qed.

Lemma m_load_pure l h r h' : m_load l h = Some (r, h') → h' = h.
Proof. by intros (? & _ & _ & ->)%m_load_inv. Qed.

Lemma from_pointer_pure o h r h' : jsonpatch.from_pointer o h = Some (r, h') → h' = h.
Proof.
  unfold jsonpatch.from_pointer. repeat case_match; by intros [= _ <-].
Qed.

Lemma value_member_pure o h r h' : jsonpatch.value_member o h = Some (r, h') → h' = h.
Proof. unfold jsonpatch.value_member. case_match; by intros [= _ <-]. Qed.

Lemma val_in_all_ext h h' v :
  ext h h' → val_in (D ∪ work h) v = true → val_in (D ∪ work h') v = true.
Proof. intros He. apply val_in_mono. pose proof (work_mono _ _ He). set_solver. Qed.

Lemma val_in_work_all h v : val_in (work h) v = true → val_in (D ∪ work h) v = true.
Proof. apply val_in_mono. set_solver. Qed.

(** ** Updates of a working object *)

Lemma keeps_list_update h l (f : list val → list val) :
  good h → l ∈ work h →
  (∀ xs, Forall (λ v, val_in (work h) v = true) xs →
         Forall (λ v, val_in (work h) v = true) (f xs)) →
  keeps (jsonpatch.list_update l f) h (λ _ _, True).
Proof.
  intros Hg Hl Hf r h' Hrun. unfold jsonpatch.list_update in Hrun.
  apply m_bind_inv in Hrun as [(o & h1 & Hload & Hrun)|(e & Hload & ->)].
  - apply m_load_inv in Hload as (o' & Ho & [= <-] & ->).
    destruct Hg as (Hd & Hfr & Hcl). destruct (Hcl l Hl) as (o'' & Ho'' & Hv).
    assert (o'' = o) as -> by congruence.
    destruct o as [kvs|xs]; [done|].
    apply m_store_inv in Hrun as (_ & -> & ->).
    destruct (store_good h l (OList (f xs))) as (Hg' & He' & _);
      [done|done|by apply Hf|]. by split_and!.
  - apply m_load_inv in Hload as (? & _ & [=] & _).
Qed.

Lemma keeps_dict_update h l (f : list (string * val) → list (string * val)) :
  good h → l ∈ work h →
  (∀ kvs, Forall (λ v, val_in (work h) v = true) kvs.*2 →
          Forall (λ v, val_in (work h) v = true) (f kvs).*2) →
  keeps (jsonpatch.dict_update l f) h (λ _ _, True).
Proof.
  intros Hg Hl Hf r h' Hrun. unfold jsonpatch.dict_update in Hrun.
  apply m_bind_inv in Hrun as [(o & h1 & Hload & Hrun)|(e & Hload & ->)].
  - apply m_load_inv in Hload as (o' & Ho & [= <-] & ->).
    destruct Hg as (Hd & Hfr & Hcl). destruct (Hcl l Hl) as (o'' & Ho'' & Hv).
    assert (o'' = o) as -> by congruence.
    destruct o as [kvs|xs]; [|done].
    apply m_store_inv in Hrun as (_ & -> & ->).
    destruct (store_good h l (ODict (f kvs))) as (Hg' & He' & _);
      [done|done|by apply Hf|]. by split_and!.
  - apply m_load_inv in Hload as (? & _ & [=] & _).
Qed.

Lemma dict_set_in S k v kvs :
  val_in S v = true → Forall (λ v, val_in S v = true) kvs.*2 →
  Forall (λ v, val_in S v = true) (dict_set k v kvs).*2.
Proof.
  intros Hv. induction kvs as [|[k' v'] r IH]; cbn.
  - intros _. by constructor.
  - intros [H1 H2]%Forall_cons. case_decide; cbn; constructor; auto.
Qed.

Lemma dict_del_in S k kvs :
  Forall (λ v, val_in S v = true) kvs.*2 →
  Forall (λ v, val_in S v = true) (dict_del k kvs).*2.
Proof.
  induction kvs as [|[k' v'] r IH]; cbn; [done|].
  intros [H1 H2]%Forall_cons. case_decide; cbn; [done|]. constructor; auto.
Qed.

(** The value at the end of a pointer is a working value when the root
    is one. *)
Lemma to_last_work h obj parts subobj part :
  good h → val_in (work h) obj = true →
  jsonpointer.to_last h obj parts = Some (Ok (subobj, part)) →
  val_in (work h) subobj = true.
Proof. intros Hg. apply to_last_inP. apply Hg. Qed.

Lemma classify_work h v c :
  good h → val_in (work h) v = true → classify h v = Some c → class_in (work h) c.
Proof. intros Hg. apply classify_inP. apply Hg. Qed.

(** ** The operations *)

Ltac read_step :=
  apply keeps_bind_pure;
  [first [apply m_read_pure|apply class_of_pure|apply subobj_loc_pure
         |apply m_load_pure|apply from_pointer_pure|apply value_member_pure]
  |done|].

Ltac ret_working :=
  apply keeps_ret; [done|]; intros;
  first [done | eapply val_in_work_ext; [eassumption|done]].

Lemma keeps_add_apply h parts value obj :
  good h → val_in (work h) obj = true → val_in (work h) value = true →
  keeps (jsonpatch.add_apply parts value obj) h working.
Proof.
  intros Hg Hobj Hval. unfold jsonpatch.add_apply.
  read_step. intros [subobj part] [Hlast _]%m_read_inv.
  pose proof (to_last_work _ _ _ _ _ Hg Hobj Hlast) as Hsub.
  read_step. intros c (c' & Hc & [= <-] & _)%class_of_inv.
  pose proof (classify_work _ _ _ Hg Hsub Hc) as Hcin.
  destruct c as [kvs|xs|s|]; cbn in Hcin.
  - read_step. intros l (l' & -> & [= <-] & _)%subobj_loc_inv.
    cbn in Hsub. apply bool_decide_eq_true in Hsub.
    destruct part as [[k|n|]|]; try apply keeps_stuck.
    + eapply keeps_bind.
      * apply keeps_dict_update; [done..|]. intros. by apply dict_set_in.
      * intros [] h1 Hg1 He1 _. ret_working.
    + by apply keeps_ret.
  - read_step. intros l (l' & -> & [= <-] & _)%subobj_loc_inv.
    cbn in Hsub. apply bool_decide_eq_true in Hsub.
    destruct part as [[k|n|]|]; try apply keeps_stuck; try by apply keeps_raise.
    + case_decide; [by apply keeps_raise|].
      eapply keeps_bind.
      * apply keeps_list_update; [done..|]. intros ys Hys. unfold list_insert_at.
        apply Forall_app. split; [by apply Forall_take|].
        constructor; [done|by apply Forall_drop].
      * intros [] h1 Hg1 He1 _. ret_working.
    + eapply keeps_bind.
      * apply keeps_list_update; [done..|]. intros ys Hys.
        apply Forall_app. split; [done|]. by constructor.
      * intros [] h1 Hg1 He1 _. ret_working.
  - destruct part; by apply keeps_raise.
  - destruct part; by apply keeps_raise.
Qed.

Lemma keeps_remove_apply h parts obj :
  good h → val_in (work h) obj = true →
  keeps (jsonpatch.remove_apply parts obj) h working.
Proof.
  intros Hg Hobj. unfold jsonpatch.remove_apply.
  read_step. intros [subobj part] [Hlast _]%m_read_inv.
  pose proof (to_last_work _ _ _ _ _ Hg Hobj Hlast) as Hsub.
  read_step. intros c (c' & Hc & [= <-] & _)%class_of_inv.
  pose proof (classify_work _ _ _ Hg Hsub Hc) as Hcin.
  destruct c as [kvs|xs|s|]; cbn in Hcin.
  - read_step. intros l (l' & -> & [= <-] & _)%subobj_loc_inv.
    cbn in Hsub. apply bool_decide_eq_true in Hsub.
    destruct part as [[k|n|]|]; try apply keeps_stuck; try by apply keeps_raise.
    destruct (dict_get k kvs); [|by apply keeps_raise].
    eapply keeps_bind.
    * apply keeps_dict_update; [done..|]. intros. by apply dict_del_in.
    * intros [] h1 Hg1 He1 _. ret_working.
  - read_step. intros l (l' & -> & [= <-] & _)%subobj_loc_inv.
    cbn in Hsub. apply bool_decide_eq_true in Hsub.
    destruct part as [[k|n|]|]; try apply keeps_stuck; try by apply keeps_raise.
    case_decide; [|by apply keeps_raise].
    eapply keeps_bind.
    * apply keeps_list_update; [done..|]. intros ys Hys.
      apply Forall_app. split; [by apply Forall_take|by apply Forall_drop].
    * intros [] h1 Hg1 He1 _. ret_working.
  - destruct part as [[]|]; by apply keeps_raise.
  - by apply keeps_raise.
Qed.

Lemma keeps_replace_apply h parts value obj :
  good h → val_in (work h) obj = true → val_in (work h) value = true →
  keeps (jsonpatch.replace_apply parts value obj) h working.
Proof.
  intros Hg Hobj Hval. unfold jsonpatch.replace_apply.
  read_step. intros [subobj part] [Hlast _]%m_read_inv.
  pose proof (to_last_work _ _ _ _ _ Hg Hobj Hlast) as Hsub.
  assert (Hmain : ∀ pt, keeps
    (jsonpatch.class_of subobj ≫= λ c,
       match c, pt with
       | CList xs, jsonpointer.PIndex n =>
           l ← jsonpatch.subobj_loc subobj;
           if decide (n < length xs)%nat
           then jsonpatch.list_update l (λ xs, <[n := value]> xs);; mret obj
           else m_raise JsonPatchConflict
       | CDict kvs, jsonpointer.PKey k =>
           l ← jsonpatch.subobj_loc subobj;
           match dict_get k kvs with
           | Some _ => jsonpatch.dict_update l (dict_set k value);; mret obj
           | None => m_raise JsonPatchConflict
           end
       | CList _, _ | CDict _, _ => m_stuck
       | _, _ => m_raise JsonPatchConflict
       end) h working).
  { intros pt. read_step. intros c (c' & Hc & [= <-] & _)%class_of_inv.
    pose proof (classify_work _ _ _ Hg Hsub Hc) as Hcin.
    destruct c as [kvs|xs|s|], pt as [k|n|]; cbn in Hcin;
      try apply keeps_stuck; try by apply keeps_raise.
    - read_step. intros l (l' & -> & [= <-] & _)%subobj_loc_inv.
      cbn in Hsub. apply bool_decide_eq_true in Hsub.
      destruct (dict_get k kvs); [|by apply keeps_raise].
      eapply keeps_bind.
      * apply keeps_dict_update; [done..|]. intros. by apply dict_set_in.
      * intros [] h1 Hg1 He1 _. ret_working.
    - read_step. intros l (l' & -> & [= <-] & _)%subobj_loc_inv.
      cbn in Hsub. apply bool_decide_eq_true in Hsub.
      case_decide; [|by apply keeps_raise].
      eapply keeps_bind.
      * apply keeps_list_update; [done..|]. intros ys Hys. by apply Forall_insert.
      * intros [] h1 Hg1 He1 _. ret_working. }
  destruct part as [pt|]; [|by apply keeps_ret].
  destruct (jsonpatch.part_is_dash pt); [by apply keeps_raise|apply Hmain].
Qed.

Lemma keeps_get_item h subobj part :
  good h → val_in (work h) subobj = true →
  keeps (jsonpatch.get_item subobj part) h working.
Proof.
  intros Hg Hsub. unfold jsonpatch.get_item.
  read_step. intros c (c' & Hc & [= <-] & _)%class_of_inv.
  pose proof (classify_work _ _ _ Hg Hsub Hc) as Hcin.
  destruct c as [kvs|xs|s|], part as [[k|n|]|]; cbn in Hcin;
    try apply keeps_stuck; try by apply keeps_raise.
  - destruct (dict_get k kvs) eqn:E; [|by apply keeps_raise].
    apply keeps_ret; [done|]. by eapply dict_get_in.
  - destruct (xs !! n) eqn:E; [|by apply keeps_raise].
    apply keeps_ret; [done|]. rewrite Forall_forall in Hcin. apply Hcin.
    by eapply list_elem_of_lookup_2.
  - destruct (String.get n s); [|by apply keeps_raise]. by apply keeps_ret.
Qed.

(** ** [copy.deepcopy] *)

Lemma memo_ok_ext memo h h' : ext h h' → memo_ok memo h → memo_ok memo h'.
Proof. intros He Hm l y Hl. apply (work_mono _ _ He). by eapply Hm. Qed.

Lemma memo_ok_insert memo h l y : y ∈ work h → memo_ok memo h → memo_ok (<[l := y]> memo) h.
Proof.
  intros Hy Hm l' y'. destruct (decide (l = l')) as [<-|Hne].
  - rewrite lookup_insert_eq. by intros [= <-].
  - rewrite lookup_insert_ne by done. apply Hm.
Qed.

Section deepcopy_loops.
Variable recur : val → gmap loc loc → M (val * gmap loc loc).
Hypothesis recur_keeps : ∀ x memo h,
  good h → val_in (D ∪ work h) x = true → memo_ok memo h →
  keeps (recur x memo) h copied.

Lemma keeps_deepcopy_list_items y xs : ∀ memo h,
  good h → y ∈ work h →
  Forall (λ v, val_in (D ∪ work h) v = true) xs → memo_ok memo h →
  keeps (jsonpatch.deepcopy_list_items recur y xs memo) h (λ memo' h', memo_ok memo' h').
Proof.
  induction xs as [|a rest IH]; intros memo h Hg Hy Hxs Hmemo; cbn.
  { by apply keeps_ret. }
  apply Forall_cons in Hxs as [Ha Hrest].
  eapply keeps_bind; [by apply recur_keeps|].
  intros [c memo1] h1 Hg1 He1 [Hc Hm1]. cbn in Hc, Hm1. cbn [fst snd].
  assert (Hy1 : y ∈ work h1) by (by apply (work_mono _ _ He1)).
  read_step. intros o' (o & Ho & [= ->] & _)%m_load_inv.
  destruct o as [|ys]; [apply keeps_stuck|].
  destruct Hg1 as (Hd1 & Hfr1 & Hcl1). destruct (Hcl1 y Hy1) as (o'' & Ho'' & Hys).
  assert (o'' = OList ys) as -> by congruence. cbn in Hys.
  assert (Hg1 : good h1) by done.
  eapply keeps_bind with (Q := λ _ h', work h' = work h1).
  - intros r h' Hst. apply m_store_inv in Hst as (_ & -> & ->).
    destruct (store_good h1 y (OList (ys ++ [c]))) as (Hg' & He' & Hw');
      [done|done| |].
    { cbn. apply Forall_app. split; [done|]. by constructor. }
    split_and!; [done..|]. intros ? _. exact Hw'.
  - intros [] h2 Hg2 He2 Hw2. cbn in Hw2.
    eapply keeps_weaken.
    + apply IH; [done|by apply (work_mono _ _ He2)| |by eapply memo_ok_ext].
      eapply Forall_impl; [exact Hrest|]. intros v Hv.
      eapply val_in_all_ext; [|exact Hv]. by eapply ext_trans.
    + by intros.
Qed.

Lemma keeps_deepcopy_dict_items y kvs : ∀ memo h,
  good h → y ∈ work h →
  Forall (λ v, val_in (D ∪ work h) v = true) kvs.*2 → memo_ok memo h →
  keeps (jsonpatch.deepcopy_dict_items recur y kvs memo) h (λ memo' h', memo_ok memo' h').
Proof.
  induction kvs as [|[k a] rest IH]; intros memo h Hg Hy Hxs Hmemo; cbn.
  { by apply keeps_ret. }
  apply Forall_cons in Hxs as [Ha Hrest].
  eapply keeps_bind; [by apply recur_keeps|].
  intros [c memo1] h1 Hg1 He1 [Hc Hm1]. cbn in Hc, Hm1. cbn [fst snd].
  assert (Hy1 : y ∈ work h1) by (by apply (work_mono _ _ He1)).
  read_step. intros o' (o & Ho & [= ->] & _)%m_load_inv.
  destruct o as [ys|]; [|apply keeps_stuck].
  destruct Hg1 as (Hd1 & Hfr1 & Hcl1). destruct (Hcl1 y Hy1) as (o'' & Ho'' & Hys).
  assert (o'' = ODict ys) as -> by congruence. cbn in Hys.
  assert (Hg1 : good h1) by done.
  eapply keeps_bind with (Q := λ _ h', work h' = work h1).
  - intros r h' Hst. apply m_store_inv in Hst as (_ & -> & ->).
    destruct (store_good h1 y (ODict (dict_set k c ys))) as (Hg' & He' & Hw');
      [done|done| |].
    { cbn. by apply dict_set_in. }
    split_and!; [done..|]. intros ? _. exact Hw'.
  - intros [] h2 Hg2 He2 Hw2. cbn in Hw2.
    eapply keeps_weaken.
    + apply IH; [done|by apply (work_mono _ _ He2)| |by eapply memo_ok_ext].
      eapply Forall_impl; [exact Hrest|]. intros v Hv.
      eapply val_in_all_ext; [|exact Hv]. by eapply ext_trans.
    + by intros.
Qed.

End deepcopy_loops.

Lemma keeps_alloc_empty h o :
  good h → obj_vals o = [] →
  keeps (m_alloc o) h (λ y h', y ∈ work h').
Proof.
  intros Hg Ho r h' (l & Hl & -> & ->)%m_alloc_inv.
  destruct (alloc_good h l o) as (Hg' & He' & Hw'); [done|done|by rewrite Ho|].
  split_and!; [done..|]. by intros ? [= <-].
Qed.

Lemma keeps_deepcopy fuel : ∀ x memo h,
  good h → val_in (D ∪ work h) x = true → memo_ok memo h →
  keeps (jsonpatch.deepcopy fuel x memo) h copied.
Proof.
  induction fuel as [|fuel IH]; intros x memo h Hg Hx Hmemo.
  - destruct x; cbn; try (apply keeps_ret; [done|]; by split).
    + destruct (memo !! l) eqn:E; [|apply keeps_stuck].
      apply keeps_ret; [done|]. split; [|done]. cbn. apply bool_decide_eq_true.
      by eapply Hmemo.
    + apply keeps_stuck.
  - destruct x; cbn; try (apply keeps_ret; [done|]; by split).
    + destruct (memo !! l) eqn:E.
      { apply keeps_ret; [done|]. split; [|done]. cbn. apply bool_decide_eq_true.
        by eapply Hmemo. }
      read_step. intros o' (o & Ho & [= ->] & _)%m_load_inv.
      cbn in Hx. apply bool_decide_eq_true in Hx.
      destruct (good_closed_all h Hg l Hx) as (o'' & Ho'' & Hvs).
      assert (o'' = o) as -> by congruence.
      destruct o as [kvs|xs]; cbn in Hvs.
      * eapply keeps_bind; [by apply keeps_alloc_empty|].
        intros y h1 Hg1 He1 Hy.
        eapply keeps_bind.
        -- apply keeps_deepcopy_dict_items; [exact IH|done|done| |].
           ++ eapply Forall_impl; [exact Hvs|]. intros v. by apply val_in_all_ext.
           ++ apply memo_ok_insert; [done|]. by eapply memo_ok_ext.
        -- intros memo' h2 Hg2 He2 Hm2. apply keeps_ret; [done|].
           intros _. split; [|done]. cbn. apply bool_decide_eq_true.
           by apply (work_mono _ _ He2).
      * eapply keeps_bind; [by apply keeps_alloc_empty|].
        intros y h1 Hg1 He1 Hy.
        eapply keeps_bind.
        -- apply keeps_deepcopy_list_items; [exact IH|done|done| |].
           ++ eapply Forall_impl; [exact Hvs|]. intros v. by apply val_in_all_ext.
           ++ apply memo_ok_insert; [done|]. by eapply memo_ok_ext.
        -- intros memo' h2 Hg2 He2 Hm2. apply keeps_ret; [done|].
           intros _. split; [|done]. cbn. apply bool_decide_eq_true.
           by apply (work_mono _ _ He2).
    + eapply keeps_bind; [by apply IH|].
      intros [c memo'] h1 Hg1 He1 [Hc Hm]. by apply keeps_ret.
Qed.

Lemma keeps_copy_deepcopy h x :
  good h → val_in (D ∪ work h) x = true →
  keeps (jsonpatch.copy_deepcopy x) h working.
Proof.
  intros Hg Hx r h' Hrun. unfold jsonpatch.copy_deepcopy in Hrun.
  revert r h' Hrun. change (keeps (r ← jsonpatch.deepcopy (Datatypes.S (size h)) x ∅; mret r.1) h working).
  eapply keeps_bind; [by apply keeps_deepcopy|].
  intros [c memo] h1 Hg1 He1 [Hc _]. by apply keeps_ret.
Qed.

(** ** Whole patches *)

Lemma keeps_move_apply h o parts obj :
  good h → val_in (work h) obj = true →
  keeps (jsonpatch.move_apply o parts obj) h working.
Proof.
  intros Hg Hobj. unfold jsonpatch.move_apply.
  read_step. intros from_parts _.
  read_step. intros [subobj part] [Hlast _]%m_read_inv.
  pose proof (to_last_work _ _ _ _ _ Hg Hobj Hlast) as Hsub.
  eapply keeps_bind; [by apply keeps_get_item|].
  intros value h1 Hg1 He1 Hvalue.
  case_decide; [apply keeps_ret; [done|]; intros; by eapply val_in_work_ext|].
  read_step. intros c _.
  case_match; [by apply keeps_raise|].
  eapply keeps_bind.
  - apply keeps_remove_apply; [done|]. by eapply val_in_work_ext.
  - intros obj1 h2 Hg2 He2 Hobj1.
    eapply keeps_weaken.
    + apply keeps_add_apply; [done..|]. by eapply val_in_work_ext.
    + by intros.
Qed.

Lemma keeps_copy_apply h o parts obj :
  good h → val_in (work h) obj = true →
  keeps (jsonpatch.copy_apply o parts obj) h working.
Proof.
  intros Hg Hobj. unfold jsonpatch.copy_apply.
  read_step. intros from_parts _.
  read_step. intros [subobj part] [Hlast _]%m_read_inv.
  pose proof (to_last_work _ _ _ _ _ Hg Hobj Hlast) as Hsub.
  eapply keeps_bind; [by apply keeps_get_item|].
  intros item h1 Hg1 He1 Hitem.
  eapply keeps_bind; [apply keeps_copy_deepcopy; [done|by apply val_in_work_all]|].
  intros value h2 Hg2 He2 Hvalue.
  eapply keeps_weaken.
  - apply keeps_add_apply; [done| |done].
    eapply val_in_work_ext; [|exact Hobj]. by eapply ext_trans.
  - by intros.
Qed.

Lemma keeps_operation_apply h b obj :
  good h → val_in (work h) obj = true → op_value_in h b.1.1 →
  keeps (jsonpatch.operation_apply b obj) h working.
Proof.
  intros Hg Hobj Hval. destruct b as [[o k] parts]. cbn in Hval.
  unfold jsonpatch.operation_apply. destruct k.
  - read_step. intros value Hv. apply keeps_add_apply; [done..|].
    apply Hval. unfold jsonpatch.value_member in Hv.
    destruct (jsonpatch.op_value o); by inversion Hv.
  - by apply keeps_remove_apply.
  - read_step. intros value Hv. apply keeps_replace_apply; [done..|].
    apply Hval. unfold jsonpatch.value_member in Hv.
    destruct (jsonpatch.op_value o); by inversion Hv.
  - by apply keeps_move_apply.
  - by apply keeps_copy_apply.
  - apply keeps_stuck.
Qed.

Lemma op_value_in_ext h h' o : ext h h' → op_value_in h o → op_value_in h' o.
Proof. intros He Ho v Hv. eapply val_in_work_ext; [done|]. by apply Ho. Qed.

Lemma keeps_apply_operations ops : ∀ h obj,
  good h → val_in (work h) obj = true →
  Forall (λ b, op_value_in h b.1.1) ops →
  keeps (jsonpatch.apply_operations ops obj) h working.
Proof.
  induction ops as [|b rest IH]; intros h obj Hg Hobj Hops; cbn.
  { by apply keeps_ret. }
  apply Forall_cons in Hops as [Hb Hrest].
  eapply keeps_bind; [by apply keeps_operation_apply|].
  intros obj1 h1 Hg1 He1 Hobj1.
  eapply keeps_weaken.
  - apply IH; [done..|]. eapply Forall_impl; [exact Hrest|].
    intros b'. by apply op_value_in_ext.
  - by intros.
Qed.

Lemma get_operations_values h patch ops :
  Forall (op_value_in h) patch → jsonpatch.get_operations patch = Ok ops →
  Forall (λ b, op_value_in h b.1.1) ops.
Proof.
  revert ops. induction patch as [|o rest IH]; intros ops Hp; cbn.
  { intros [= <-]. constructor. }
  apply Forall_cons in Hp as [Ho Hrest].
  destruct (jsonpatch.get_operation o) as [[k parts]|]; [|done].
  destruct (jsonpatch.get_operations rest) as [ops'|]; [|done].
  intros [= <-]. constructor; [done|]. by apply IH.
Qed.

(** [JsonPatch(patch).apply(obj)] on a document of [D] or a working
    document. *)
Lemma keeps_apply h patch obj :
  good h → val_in (D ∪ work h) obj = true → Forall (op_value_in h) patch →
  keeps (jsonpatch.apply patch obj) h working.
Proof.
  intros Hg Hobj Hp. unfold jsonpatch.apply.
  destruct (jsonpatch.get_operations patch) as [ops|e] eqn:Hops; [|by apply keeps_raise].
  eapply keeps_bind; [by apply keeps_copy_deepcopy|].
  intros obj1 h1 Hg1 He1 Hobj1.
  eapply keeps_weaken.
  - apply keeps_apply_operations; [done..|].
    eapply get_operations_values; [|done].
    eapply Forall_impl; [exact Hp|]. intros o. by apply op_value_in_ext.
  - by intros.
Qed.

(** ** [apply_patches] *)

Lemma validate_patches_pure `{PyRuntime} i patches h r h' :
  validate_patches i patches h = Some (r, h') → h' = h.
Proof.
  revert i. induction patches as [|patch rest IH]; intros i; cbn.
  { by intros [= _ <-]. }
  destruct (op_not_in_valid_ops _) as [[]|]; [| |by intros [= _ <-]].
  - intros Hrun. apply m_bind_inv in Hrun as [(a & h1 & H1 & H2)|(e & H1 & ->)].
    + apply m_read_inv in H1 as [_ ->]. by apply m_ret_inv in H2 as [_ ->].
    + by apply m_read_inv in H1 as [_ ->].
  - case_match; [by intros [= _ <-]|apply IH].
Qed.

Lemma keeps_find_failed_from patches : ∀ i h current_doc,
  good h → val_in (D ∪ work h) current_doc = true →
  Forall (op_value_in h) patches →
  keeps (find_failed_from i patches current_doc) h (λ _ _, True).
Proof.
  induction patches as [|patch rest IH]; intros i h doc Hg Hdoc Hp; cbn.
  { by apply keeps_ret. }
  apply Forall_cons in Hp as [Hpatch Hrest].
  eapply keeps_bind with
    (Q := λ r h1, ∀ d, r = Ok d → val_in (work h1) d = true).
  - intros r h' (x & Hrun & ->)%m_catch_inv.
    destruct (keeps_apply h [patch] doc Hg Hdoc) with (r := x) (h' := h')
      as (Hg' & He' & Hd'); [by constructor|done|].
    split_and!; [done..|]. intros a [= <-]. exact Hd'.
  - intros r h1 Hg1 He1 Hr. destruct r as [d|e].
    + eapply keeps_weaken.
      * apply IH; [done|apply val_in_work_all; by apply Hr|].
        eapply Forall_impl; [exact Hrest|]. intros o. by apply op_value_in_ext.
      * by intros.
    + by apply keeps_ret.
Qed.

Lemma keeps_find_failed_patch_index h document patches :
  good h → val_in (D ∪ work h) document = true →
  Forall (op_value_in h) patches →
  keeps (_find_failed_patch_index document patches) h (λ _ _, True).
Proof.
  intros Hg Hdoc Hp. unfold _find_failed_patch_index.
  eapply keeps_bind; [by apply keeps_find_failed_from|].
  intros [i|] h1 Hg1 He1 _; by apply keeps_ret.
Qed.

Lemma validate_patches_failure `{PyRuntime} i patches h f h' :
  validate_patches i patches h = Some (Ok (Some f), h') →
  ∃ e k, f = PatchFailure e None k.
Proof.
  revert i. induction patches as [|patch rest IH]; intros i; cbn; [done|].
  destruct (op_not_in_valid_ops _) as [[]|]; [| |done].
  - intros Hrun. apply m_bind_inv in Hrun as [(a & h1 & H1 & H2)|(e & H1 & [=])].
    apply m_ret_inv in H2 as [Heq _]. inversion Heq. eauto.
  - case_match; [intros Heq; inversion Heq; eauto|apply IH].
Qed.

(** A call of [apply_patches] from [h0]: the store stays good, and the
    document of a success over a non-empty list is a working value. *)
Lemma keeps_apply_patches `{PyRuntime} document patches target_schema :
  val_in D document = true →
  Forall (op_value_in h0) patches →
  keeps (apply_patches document patches target_schema) h0
    (λ r h', ∀ doc' n msg, r = PatchSuccess doc' n msg → patches ≠ [] →
               val_in (work h') doc' = true).
Proof.
  intros Hdoc Hp. pose proof good_h0 as Hg.
  assert (Hdoc' : val_in (D ∪ work h0) document = true).
  { eapply val_in_mono; [|done]. set_solver. }
  unfold apply_patches. destruct patches as [|p ps] eqn:Epatches.
  { apply keeps_ret; [done|]. by intros. }
  rewrite <- Epatches in *. clear Epatches.
  apply keeps_bind_pure; [apply validate_patches_pure|done|].
  intros [failure|] Hval.
  { apply validate_patches_failure in Hval as (e & k & ->).
    apply keeps_ret; [done|]. by intros. }
  eapply keeps_bind with
    (Q := λ r h1, ∀ d, r = Ok d → val_in (work h1) d = true).
  - intros r h' (x & Hrun & ->)%m_catch_inv.
    destruct (keeps_apply h0 patches document Hg Hdoc' Hp x h' Hrun)
      as (Hg' & He' & Hd').
    split_and!; [done..|]. intros a [= <-]. exact Hd'.
  - intros r h1 Hg1 He1 Hr.
    assert (Hfind : ∀ (k : Z → patch_result),
      (∀ i, ∃ e c, k i = PatchFailure e c i) →
      keeps (i ← _find_failed_patch_index document patches; mret (k i)) h1
        (λ r h', ext h0 h' → ∀ doc' n msg, r = PatchSuccess doc' n msg →
                   patches ≠ [] → val_in (work h') doc' = true)).
    { intros k Hk. eapply keeps_bind.
      - apply keeps_find_failed_patch_index; [done| |].
        + by eapply val_in_all_ext.
        + eapply Forall_impl; [exact Hp|]. intros o. by apply op_value_in_ext.
      - intros i h2 Hg2 He2 _. apply keeps_ret; [done|].
        intros _ _ doc' n msg Hs. destruct (Hk i) as (e & c & Hki). congruence. }
    destruct r as [new_document|e].
    + apply keeps_ret; [done|]. intros _ doc' n msg [= <- _ _] _. by apply Hr.
    + destruct e; try (apply keeps_ret; [done|]; by intros);
        apply Hfind; intros i; eauto.
Qed.

End frame.

(** * [apply_patches] and the caller's document *)

Lemma apart_disjoint (A B : gset loc) : apart A B = true → A ## B.
Proof.
  unfold apart. rewrite forallb_forall. intros Hf l HA HB.
  assert (Hin : In l (elements A)) by (apply list_elem_of_In; set_solver).
  specialize (Hf l Hin). apply negb_true_iff, bool_decide_eq_false in Hf. done.
Qed.

Lemma op_values_in (h : heap) (W0 : gset loc) patches :
  forallb (op_value_inb W0) patches = true →
  Forall (op_value_in h W0 h) patches.
Proof.
  rewrite forallb_forall, Forall_forall. intros Hf o Ho v Hv.
  specialize (Hf o (proj1 (list_elem_of_In _ _) Ho)).
  unfold op_value_inb in Hf. rewrite Hv in Hf.
  eapply val_in_mono; [|done]. unfold work. set_solver.
Qed.

(** The value a document of a closed set stands for depends on the
    objects of the set only. *)
Lemma snapshot_frame (h h' : heap) (D : gset loc) :
  closedP h D → (∀ l, l ∈ D → h' !! l = h !! l) →
  ∀ fuel v, val_in D v = true → snapshot fuel h' v = snapshot fuel h v.
Proof.
  intros Hc Hfr. induction fuel as [|fuel IH]; intros v Hv; destruct v; try done.
  cbn in Hv. apply bool_decide_eq_true in Hv. cbn. rewrite (Hfr l Hv).
  destruct (Hc l Hv) as (o & -> & Ho). destruct o as [kvs|xs]; cbn in Ho.
  - f_equal. induction kvs as [|[k v] r IHr]; [done|].
    cbn in Ho. apply Forall_cons in Ho as [H1 H2]. cbn. rewrite (IH v H1).
    by rewrite (IHr H2).
  - f_equal. induction xs as [|v r IHr]; [done|].
    apply Forall_cons in Ho as [H1 H2]. cbn. rewrite (IH v H1).
    by rewrite (IHr H2).
Qed.

Section apply_patches_frame.
Context `{PyRuntime} (h : heap) (D W0 : gset loc).
Hypothesis HD : closed_in h D = true.
Hypothesis HW0 : closed_in h W0 = true.
Hypothesis Hapart : apart D W0 = true.
Variables (document : val) (patches : list jsonpatch.operation)
          (target_schema : option tree).
Hypothesis Hdoc : val_in D document = true.
Hypothesis Hvalues : forallb (op_value_inb W0) patches = true.

Lemma apply_patches_frame r h' :
  apply_patches document patches target_schema h = Some (r, h') →
  (∀ l, l ∈ D → h' !! l = h !! l)
  ∧ (∀ fuel, snapshot fuel h' document = snapshot fuel h document)
  ∧ (∀ doc' n msg, r = Ok (PatchSuccess doc' n msg) → patches ≠ [] →
       val_in (W0 ∪ (dom h' ∖ dom h)) doc' = true).
Proof.
  intros Hrun.
  apply closed_in_closedP in HD, HW0. apply apart_disjoint in Hapart.
  destruct (keeps_apply_patches h D W0 HD HW0 Hapart document patches target_schema
              Hdoc (op_values_in h W0 patches Hvalues) r h' Hrun)
    as ((_ & Hfr & _) & _ & Hok).
  split; [exact Hfr|split].
  - intros fuel. exact (snapshot_frame h h' D HD Hfr fuel document Hdoc).
  - intros doc' n msg -> Hne. by eapply Hok.
Qed.

End apply_patches_frame.



(** * The index [apply_patches] reports *)

Section failed_index.
Context `{PyRuntime}.

Lemma recognized_not_test o :
  recognized o → bool_decide (jsonpatch.op_op o = Some (VStr "test")) = false.
Proof.
  unfold recognized. intros Hr. apply bool_decide_eq_false. intros Heq.
  rewrite Heq in Hr. by vm_compute in Hr.
Qed.

Lemma validate_patches_rejects h pre p post : ∀ i,
  Forall recognized pre →
  op_not_in_valid_ops (jsonpatch.op_op p) = Ok true →
  validate_patches i (pre ++ p :: post) h =
    Some (Ok (Some (PatchFailure
                      (invalid_operation_error
                         (py_str h (default VNone (jsonpatch.op_op p)))
                         (i + length pre))
                      None (Z.of_nat (i + length pre)))), h).
Proof.
  induction pre as [|o pre IH]; intros i Hpre Hp.
  - cbn [app validate_patches]. rewrite Hp. cbn. by rewrite Nat.add_0_r.
  - apply Forall_cons in Hpre as [Ho Hpre].
    cbn [app validate_patches]. rewrite Ho, (recognized_not_test o Ho).
    rewrite (IH (Datatypes.S i) Hpre Hp). cbn [length].
    by replace (Datatypes.S i + length pre)%nat with (i + Datatypes.S (length pre))%nat by lia.
Qed.

Lemma validate_patches_passes h patches : ∀ i,
  Forall recognized patches → validate_patches i patches h = Some (Ok None, h).
Proof.
  induction patches as [|o rest IH]; intros i Hp; [done|].
  apply Forall_cons in Hp as [Ho Hrest].
  cbn [validate_patches]. rewrite Ho, (recognized_not_test o Ho). by apply IH.
Qed.

(** What the loop of [_find_failed_patch_index] finds: the first
    operation that raises when the operations are replayed one at a
    time, or nothing when the replay goes through. *)
Lemma find_failed_from_spec patches : ∀ i d h r h',
  find_failed_from i patches d h = Some (Ok r, h') →
  match r with
  | Some k =>
      ∃ pre p post d1 h1 e,
        patches = (pre ++ p :: post)%list ∧ k = (i + length pre)%nat
        ∧ replay pre d h d1 h1
        ∧ jsonpatch.apply [p] d1 h1 = Some (Raise e, h')
  | None => ∃ d', replay patches d h d' h'
  end.
Proof.
  induction patches as [|p rest IH]; intros i d h r h' Hrun.
  - apply m_ret_inv in Hrun as [[= ->] ->]. eexists. constructor.
  - cbn [find_failed_from] in Hrun.
    apply m_bind_inv in Hrun as [(x & h1 & Hc & Hrun)|(e & Hc & [=])].
    apply m_catch_inv in Hc as (x' & Happ & [= ->]).
    destruct x' as [d1|e].
    + specialize (IH _ _ _ _ _ Hrun). destruct r as [k|].
      * destruct IH as (pre & p' & post & d2 & h2 & e & -> & -> & Hrep & Hfail).
        exists (p :: pre), p', post, d2, h2, e.
        split_and!; [done|cbn; lia| |done]. by econstructor.
      * destruct IH as (d' & Hrep). exists d'. by econstructor.
    + apply m_ret_inv in Hrun as [[= ->] ->].
      exists [], p, rest, d, h, e. split_and!; [done|cbn; lia|constructor|done].
Qed.

Lemma find_failed_patch_index_spec document patches h i h' :
  _find_failed_patch_index document patches h = Some (Ok i, h') →
  (∃ pre p post d1 h1 e,
      patches = (pre ++ p :: post)%list ∧ i = Z.of_nat (length pre)
      ∧ replay pre document h d1 h1
      ∧ jsonpatch.apply [p] d1 h1 = Some (Raise e, h'))
  ∨ ((∃ d', replay patches document h d' h') ∧ i = (list_len patches - 1)%Z).
Proof.
  unfold _find_failed_patch_index. intros Hrun.
  apply m_bind_inv in Hrun as [(r & h1 & Hf & Hrun)|(e & Hf & [=])].
  apply find_failed_from_spec in Hf. destruct r as [k|].
  - apply m_ret_inv in Hrun as [[= ->] ->]. left.
    destruct Hf as (pre & p & post & d1 & h2 & e & -> & -> & Hrep & Hfail).
    exists pre, p, post, d1, h2, e. by split_and!.
  - apply m_ret_inv in Hrun as [[= ->] ->]. by right.
Qed.

End failed_index.


(** * The dispatcher *)

Section dispatcher.
Context `{PyRuntime} `{Collaborators}.

Lemma execute_action_update_guidance state item st h :
  action_named item "update_guidance" →
  execute_action state item st h =
    Some (Ok (st.1, (st.2 ++ [must_be_only_entry item])%list), h).
Proof.
  intros (kvs & -> & Hname). destruct st as [d rs].
  unfold execute_action. cbn [tree_get tree_get_default]. rewrite Hname.
  destruct (tree_lookup "input" kvs) eqn:E; cbn; unfold must_be_only_entry;
    cbn; by rewrite E.
Qed.

Lemma execute_actions_app state pre post : ∀ st h,
  execute_actions state (pre ++ post) st h =
    (st1 ← execute_actions state pre st; execute_actions state post st1) h.
Proof.
  induction pre as [|a pre IH]; intros st h; [done|].
  cbn [app execute_actions]. unfold mbind, M_bind.
  destruct (execute_action state a st h) as [[[st1|e] h1]|]; [|done..].
  apply IH.
Qed.

Lemma valid_guidance_kwargs kvs :
  Forall (λ kv : string * tree, kv.1 ∈ guidance_params) kvs →
  update_guidance_kwargs (TDict kvs) =
    Ok (update_guidance
          (default (Leaf (VStr "")) (tree_lookup "last_processed_path" kvs))
          (default (Leaf (VStr "")) (tree_lookup "current_context" kvs))
          (default (Leaf (VStr "")) (tree_lookup "pending_action" kvs))
          (default (Leaf (VInt 0)) (tree_lookup "extracted_entities_count" kvs))).
Proof.
  intros Hk. cbn.
  assert (forallb (λ kv : string * tree, bool_decide (kv.1 ∈ guidance_params)) kvs = true) as ->;
    [|done].
  apply forallb_forall. intros kv Hin%list_elem_of_In. apply bool_decide_eq_true.
  rewrite Forall_forall in Hk. by apply Hk.
Qed.

End dispatcher.

(** C1: the dispatcher on a turn whose parsed reply has a list of
    actions that is not empty.  If the list is one [update_guidance]
    whose input is an object with no key besides the four parameters of
    [update_guidance], the turn installs the guidance made from the input,
    sets [is_chunk_finalized] and leaves the store as it is.  For every
    other list, a turn that returns sets the document and the results of
    the loop over the actions and never [is_chunk_finalized].  In that
    loop an [update_guidance] adds the entry that it must be the only
    action, changes neither the document nor the store, and the actions
    after it are processed in order. *)
Theorem finalization_gate `{PyRuntime} `{Collaborators} (state : AgentState)
    (actions : list tree) (h : heap) :
  turn_with_actions state actions →
  (∀ item input, actions = [item] → action_named item "update_guidance" →
     item_input item = TDict input →
     Forall (λ kv, kv.1 ∈ guidance_params) input →
     let new_guidance :=
       guidance_of (default (Leaf (VStr "")) (tree_lookup "last_processed_path" input))
                   (default (Leaf (VStr "")) (tree_lookup "current_context" input))
                   (default (Leaf (VStr "")) (tree_lookup "pending_action" input))
                   (default (Leaf (VInt 0)) (tree_lookup "extracted_entities_count" input)) in
     execute_tools_node state h =
       Some (Ok [SetGuidance new_guidance; SetIsChunkFinalized true;
                 SetActionsResults
                   [{| ar_action := Some (Leaf (VStr "update_guidance"));
                       ar_input := None;
                       ar_result := RGuidance (TDict [("finalized", Leaf (VBool true));
                                                      ("guidance", new_guidance)]) |}]],
             h))
  ∧ (¬ sole_finalize actions →
     ∀ u h', execute_tools_node state h = Some (Ok u, h') →
       ∃ new_document results,
         u = [SetJsonDocument new_document; SetActionsResults results]
         ∧ execute_actions state actions (json_document state, []) h
             = Some (Ok (new_document, results), h'))
  ∧ (∀ item st h1, action_named item "update_guidance" →
       execute_action state item st h1 =
         Some (Ok (st.1, (st.2 ++ [must_be_only_entry item])%list), h1))
  ∧ (∀ pre item post st h1, action_named item "update_guidance" →
       execute_actions state (pre ++ item :: post) st h1 =
         (st1 ← execute_actions state pre st;
          execute_actions state post (st1.1, (st1.2 ++ [must_be_only_entry item])%list)) h1).
Proof.
  intros (content & kvs & Hlast & Hparse & Hactions & Hne).
  assert (Hnode : execute_tools_node state h =
    (sole ← (if bool_decide (length actions = 1%nat) then
               first ← m_lift (tree_first (TList actions));
               name ← m_lift (tree_get first "action");
               if name_is name "update_guidance" then mret (Some first) else mret None
             else mret None);
     match sole with
     | Some first =>
         guidance_input ← m_lift (tree_get_default first "input" (TDict []));
         guidance_result ← m_lift (update_guidance_kwargs guidance_input);
         new_guidance ←
           m_lift (match tree_get guidance_result "guidance" with
                   | Ok (Some g) => Ok g
                   | Ok None => Raise KeyError
                   | Raise e => Raise e
                   end);
         mret [SetGuidance new_guidance; SetIsChunkFinalized true;
               SetActionsResults
                 [{| ar_action := Some (Leaf (VStr "update_guidance"));
                     ar_input := None;
                     ar_result := RGuidance guidance_result |}]]
     | None =>
         st ← execute_actions state actions (json_document state, []);
         mret [SetJsonDocument st.1; SetActionsResults st.2]
     end) h).
  { unfold execute_tools_node. rewrite Hlast, Hparse.
    cbn [tree_get_default tree_get]. rewrite Hactions.
    destruct (tree_lookup "think" kvs); cbn [m_lift]; unfold mbind at 1 2, M_bind at 1 2;
      cbn [mret M_ret tree_truthy];
      (destruct actions; [done|]); reflexivity. }
  split_and!.
  - intros item input -> (ikvs & -> & Hname) Hinput Hvalid new_guidance.
    rewrite Hnode. cbn [length tree_first tree_get m_lift].
    rewrite bool_decide_eq_true_2 by done.
    unfold mbind, M_bind. cbn [mret M_ret m_lift tree_get]. rewrite Hname.
    cbn [name_is]. rewrite bool_decide_eq_true_2 by done.
    cbn [mret M_ret]. cbn in Hinput.
    assert (Hin : tree_get_default (TDict ikvs) "input" (TDict []) = Ok (TDict input)).
    { unfold tree_get_default. cbn [tree_get].
      destruct (tree_lookup "input" ikvs); cbn in *; congruence. }
    rewrite Hin. cbn [m_lift mret M_ret].
    rewrite (valid_guidance_kwargs input Hvalid). reflexivity.
  - intros Hnot u h' Hrun. rewrite Hnode in Hrun.
    assert (Hsole : ∀ hh r hh',
      (if bool_decide (length actions = 1%nat) then
         first ← m_lift (tree_first (TList actions));
         name ← m_lift (tree_get first "action");
         if name_is name "update_guidance" then mret (Some first) else mret None
       else mret None) hh = Some (Ok r, hh') → r = None ∧ hh' = hh).
    { intros hh r hh'. case_bool_decide as Hlen; [|by intros [= <- <-]].
      destruct actions as [|item [|]]; try done. cbn [tree_first m_lift].
      unfold mbind, M_bind. cbn.
      destruct (tree_get item "action") as [name|] eqn:Hget; cbn; [|done].
      destruct (name_is name "update_guidance") eqn:Hn; [|by intros [= <- <-]].
      exfalso. apply Hnot. exists item. split; [done|].
      destruct item as [| |ikvs]; try done. exists ikvs. split; [done|].
      cbn in Hget. injection Hget as <-.
      destruct (tree_lookup "action" ikvs) as [[[]| |]|]; try done.
      cbn in Hn. by apply bool_decide_eq_true in Hn as ->. }
    apply m_bind_inv in Hrun as [(sole & h1 & Hs & Hrun)|(e & Hs & [=])].
    apply Hsole in Hs as [-> ->].
    apply m_bind_inv in Hrun as [(st & h2 & Hloop & Hrun)|(e & Hs & [=])].
    apply m_ret_inv in Hrun as [[= ->] ->].
    exists st.1, st.2. split; [done|]. by destruct st.
  - intros item st h1 Hitem. by apply execute_action_update_guidance.
  - intros pre item post st h1 Hitem.
    rewrite execute_actions_app. unfold mbind, M_bind.
    destruct (execute_actions state pre st h1) as [[[st1|e] h2]|]; [|done..].
    cbn [execute_actions]. unfold mbind, M_bind.
    by rewrite (execute_action_update_guidance state item st1 h2 Hitem).
Qed.

(** * The end of a run *)

Section orchestrator.
Context `{PyRuntime} `{Collaborators}.

Lemma graph_steps_add a : ∀ b c h,
  graph_steps (a + b) c h = (c' ← graph_steps a c; graph_steps b c') h.
Proof.
  induction a as [|a IH]; intros b c h; [done|].
  cbn [Nat.add graph_steps]. unfold mbind, M_bind.
  destruct (graph_step c h) as [[[c1|e] h1]|]; [|done..]. apply IH.
Qed.

Lemma graph_steps_END n : ∀ c h,
  at_node c = END → graph_steps n c h = Some (Ok c, h).
Proof.
  induction n as [|n IH]; intros c h Hend; [done|].
  cbn [graph_steps]. unfold mbind, M_bind, graph_step. rewrite Hend. cbn.
  by apply IH.
Qed.

Lemma invoke_steps n : ∀ c h c' h' fuel,
  graph_steps n c h = Some (Ok c', h') → at_node c' = END → (n <= fuel)%nat →
  invoke fuel c h = Some (Ok c', h').
Proof.
  induction n as [|n IH]; intros c h c' h' fuel Hrun Hend Hfuel.
  - injection Hrun as <- <-. destruct fuel; cbn; by rewrite Hend.
  - destruct fuel as [|fuel]; [lia|].
    destruct (decide (at_node c = END)) as [Hc|Hc].
    { rewrite graph_steps_END in Hrun by done. injection Hrun as <- <-.
      cbn. by rewrite Hc. }
    cbn [graph_steps] in Hrun.
    apply m_bind_inv in Hrun as [(c1 & h1 & Hstep & Hrun)|(e & _ & [=])].
    assert (invoke (Datatypes.S fuel) c h = (c1 ← graph_step c; invoke fuel c1) h) as ->.
    { cbn. by destruct (at_node c). }
    unfold mbind, M_bind. rewrite Hstep. eapply IH; [done..|lia].
Qed.

Lemma graph_step_execute_tools s calls h u h' :
  execute_tools_node s h = Some (Ok u, h') →
  graph_step {| at_node := ExecuteTools; state_of := s; llm_calls := calls |} h =
    Some (Ok {| at_node := is_chunk_done (apply_update s u);
                state_of := apply_update s u; llm_calls := calls |}, h').
Proof.
  intros Hnode. unfold graph_step. cbn [at_node state_of llm_calls].
  unfold mbind, M_bind. by rewrite Hnode.
Qed.

Lemma graph_steps_step n c h c1 h1 :
  graph_step c h = Some (Ok c1, h1) →
  graph_steps (Datatypes.S n) c h = graph_steps n c1 h1.
Proof. intros Hstep. cbn [graph_steps]. unfold mbind, M_bind. by rewrite Hstep. Qed.

(** Once an error is set, a chunk that leaves the dispatcher goes to
    [finalize_chunk], to [prepare_chunk] and to the end of the run. *)
Lemma error_ends_run (s : AgentState) (calls : nat) (h : heap) :
  error_set s = true → (0 <= current_chunk_idx s)%Z →
  ∃ final,
    graph_steps 2 {| at_node := FinalizeChunk; state_of := s; llm_calls := calls |} h
      = Some (Ok final, h)
    ∧ at_node final = END
    ∧ error (state_of final) = error s
    ∧ json_document (state_of final) = json_document s
    ∧ guidance (state_of final) = guidance s
    ∧ llm_calls final = calls.
Proof.
  intros Herr Hidx. destruct s as [t ts mi ch idx cc jd g ms ar fin it err].
  unfold error_set in Herr. cbn in Herr, Hidx.
  destruct err as [e|]; [|done].
  cbn [graph_steps graph_step at_node state_of llm_calls].
  unfold mbind at 1, M_bind at 1. cbn [mret M_ret].
  unfold mbind at 1, M_bind at 1, graph_step. cbn [at_node state_of llm_calls].
  unfold prepare_chunk_node, finalize_chunk_node, apply_update.
  cbn [fold_left apply_assign chunks current_chunk_idx text target_schema max_iterations
       current_chunk json_document guidance messages actions_results is_chunk_finalized
       iteration_count error].
  destruct (Z.leb_spec (list_len ch) (idx + 1)) as [Hle|Hlt].
  - unfold mbind, M_bind, mret, M_ret. cbn.
    unfold has_more_chunks, error_set. cbn. rewrite Herr.
    eexists. split; [reflexivity|]. by cbn.
  - assert (Hpy : ∃ chunk, py_index ch (idx + 1) = Some chunk).
    { unfold py_index.
      destruct (Z.leb_spec 0 (idx + 1)); [|lia].
      apply lookup_lt_is_Some. unfold list_len in *. lia. }
    destruct Hpy as (chunk & ->).
    unfold mbind, M_bind, mret, M_ret, m_read, E_ret. cbn.
    unfold has_more_chunks, error_set. cbn. rewrite Herr.
    eexists. split; [reflexivity|]. by cbn.
Qed.

End orchestrator.


(** * The iteration cap *)

Lemma calls_per_chunk_pos N : (1 <= calls_per_chunk N)%nat.
Proof. unfold calls_per_chunk. lia. Qed.

Lemma calls_per_chunk_cap N m :
  (N <= Z.of_nat m)%Z ∧ (0 < m)%nat ↔ (calls_per_chunk N <= m)%nat.
Proof. unfold calls_per_chunk. lia. Qed.

Section iteration.
Context `{PyRuntime} `{Collaborators}.

Lemma call_llm_step c h :
  at_node c = CallLLM →
  ∃ c1, graph_step c h = Some (Ok c1, h)
    ∧ at_node c1 = ExecuteTools
    ∧ llm_calls c1 = Datatypes.S (llm_calls c)
    ∧ iteration_count (state_of c1) = (iteration_count (state_of c) + 1)%Z
    ∧ same_control (state_of c) (state_of c1).
Proof.
  intros Hn. destruct c as [nd s calls]. cbn in Hn. subst nd.
  destruct s as [t ts mi ch idx cc jd g ms ar fin it err].
  unfold graph_step, call_llm_node. cbn [at_node state_of llm_calls].
  unfold mbind, M_bind, mret, M_ret, m_read, E_ret. cbn.
  eexists. split; [reflexivity|]. by cbn.
Qed.

Lemma plain_turn_step c h u h' :
  at_node c = ExecuteTools →
  execute_tools_node (state_of c) h = Some (Ok u, h') → plain_turn u →
  ∃ c1, graph_step c h = Some (Ok c1, h')
    ∧ at_node c1 = is_chunk_done (state_of c1)
    ∧ llm_calls c1 = llm_calls c
    ∧ iteration_count (state_of c1) = iteration_count (state_of c)
    ∧ same_control (state_of c) (state_of c1).
Proof.
  intros Hn Hnode (d & rs & ->). destruct c as [nd s calls]. cbn in Hn. subst nd.
  cbn [state_of] in Hnode.
  rewrite (graph_step_execute_tools _ calls _ _ _ Hnode).
  destruct s as [t ts mi ch idx cc jd g ms ar fin it err].
  eexists. split; [reflexivity|]. by cbn.
Qed.

Lemma is_chunk_done_cap s :
  is_chunk_finalized s = false → error_set s = false →
  is_chunk_done s =
    if (max_iterations s <=? iteration_count s)%Z then FinalizeChunk else CallLLM.
Proof.
  intros Hf He. unfold is_chunk_done. rewrite Hf, He. by case_match.
Qed.

Lemma same_control_trans s1 s2 s3 :
  same_control s1 s2 → same_control s2 s3 → same_control s1 s3.
Proof. unfold same_control. intros (?&?&?&?&?) (?&?&?&?&?). split_and!; congruence. Qed.

Lemma same_control_error_set s s' : same_control s s' → error_set s' = error_set s.
Proof. intros (_ & He & _). unfold error_set. by rewrite He. Qed.

Section one_chunk.
Variables (c : config) (h : heap).
Hypothesis Hstart : at_node c = CallLLM.
Hypothesis Hcount : iteration_count (state_of c) = 0%Z.
Hypothesis Hfinal : is_chunk_finalized (state_of c) = false.
Hypothesis Herror : error_set (state_of c) = false.

Let n := calls_per_chunk (max_iterations (state_of c)).

Hypothesis Hplain : ∀ m c' h', (m < n)%nat →
  graph_steps (2 * m + 1) c h = Some (Ok c', h') →
  ∃ u h'', execute_tools_node (state_of c') h' = Some (Ok u, h'') ∧ plain_turn u.

(** After [m] turns: [2 * m] steps of the graph, [m] model calls, and
    the graph is back at [call_llm] unless [m] is the last turn. *)
Lemma after_turns m :
  (m <= n)%nat →
  ∃ cm hm, graph_steps (2 * m) c h = Some (Ok cm, hm)
    ∧ llm_calls cm = (llm_calls c + m)%nat
    ∧ iteration_count (state_of cm) = Z.of_nat m
    ∧ same_control (state_of c) (state_of cm)
    ∧ at_node cm = if decide (m = n) then FinalizeChunk else CallLLM.
Proof.
  induction m as [|m IH]; intros Hm.
  - exists c, h. pose proof (calls_per_chunk_pos (max_iterations (state_of c))).
    split_and!; [done|lia|done|by unfold same_control|].
    rewrite decide_False by (subst n; lia). done.
  - destruct IH as (cm & hm & Hrun & Hcalls & Hit & Hsame & Hnode); [lia|].
    rewrite decide_False in Hnode by lia.
    destruct (call_llm_step cm hm Hnode) as (c1 & Hstep1 & Hn1 & Hc1 & Hit1 & Hs1).
    assert (Hrun1 : graph_steps (2 * m + 1) c h = Some (Ok c1, hm)).
    { rewrite graph_steps_add. unfold mbind, M_bind. rewrite Hrun.
      by rewrite (graph_steps_step _ _ _ _ _ Hstep1). }
    destruct (Hplain m c1 hm) as (u & h2 & Hexec & Hu); [lia|done|].
    destruct (plain_turn_step c1 hm u h2 Hn1 Hexec Hu)
      as (c2 & Hstep2 & Hn2 & Hc2 & Hit2 & Hs2).
    exists c2, h2.
    assert (Hsame2 : same_control (state_of c) (state_of c2)).
    { eapply same_control_trans; [exact Hsame|]. by eapply same_control_trans. }
    split_and!.
    + replace (2 * Datatypes.S m)%nat with ((2 * m + 1) + 1)%nat by lia.
      rewrite graph_steps_add. unfold mbind, M_bind. rewrite Hrun1.
      by rewrite (graph_steps_step _ _ _ _ _ Hstep2).
    + lia.
    + lia.
    + done.
    + rewrite Hn2, is_chunk_done_cap.
      * destruct Hsame2 as (_ & _ & Hmax & _). rewrite Hmax, Hit2, Hit1, Hit.
        pose proof (calls_per_chunk_cap (max_iterations (state_of c)) (Datatypes.S m)).
        subst n.
        destruct (Z.leb_spec (max_iterations (state_of c)) (Z.of_nat m + 1));
          case_decide; try done; lia.
      * destruct Hsame2 as (Hf & _). by rewrite Hf.
      * by rewrite (same_control_error_set _ _ Hsame2).
Qed.

End one_chunk.

Lemma finalize_chunk_step c h :
  at_node c = FinalizeChunk →
  ∃ c1, graph_step c h = Some (Ok c1, h)
    ∧ at_node c1 = PrepareChunk
    ∧ current_chunk_idx (state_of c1) = (current_chunk_idx (state_of c) + 1)%Z
    ∧ llm_calls c1 = llm_calls c.
Proof.
  intros Hn. destruct c as [nd s calls]. cbn in Hn. subst nd.
  destruct s as [t ts mi ch idx cc jd g ms ar fin it err].
  eexists. split; [reflexivity|]. by cbn.
Qed.

(** Preparing a chunk that exists puts the iteration count back to
    [0]. *)
Lemma prepare_chunk_resets s h :
  (0 <= current_chunk_idx s < list_len (chunks s))%Z →
  ∃ u, prepare_chunk_node s h = Some (Ok u, h)
    ∧ iteration_count (apply_update s u) = 0%Z
    ∧ is_chunk_finalized (apply_update s u) = false.
Proof.
  intros Hidx. unfold prepare_chunk_node.
  destruct (Z.leb_spec (list_len (chunks s)) (current_chunk_idx s)); [lia|].
  assert (Hpy : ∃ chunk, py_index (chunks s) (current_chunk_idx s) = Some chunk).
  { unfold py_index. destruct (Z.leb_spec 0 (current_chunk_idx s)); [|lia].
    apply lookup_lt_is_Some. unfold list_len in *. lia. }
  destruct Hpy as (chunk & ->).
  unfold mbind, M_bind, mret, M_ret, m_read, E_ret.
  eexists. split; [reflexivity|]. by destruct s.
Qed.

(** A model call adds one to the iteration count. *)
Lemma call_llm_counts k s h :
  ∃ u, call_llm_node k s h = Some (Ok u, h)
    ∧ iteration_count (apply_update s u) = (iteration_count s + 1)%Z.
Proof.
  unfold call_llm_node. unfold mbind, M_bind, mret, M_ret, m_read, E_ret.
  eexists. split; [reflexivity|]. by destruct s.
Qed.

End iteration.


(** * Pointers built from tokens *)

Module PointerFacts.
Import PointerCodecFacts.

Lemma decode_encode_token s : decode_pointer_token (encode_pointer_token s) = s.
Proof.
  unfold decode_pointer_token.
  by rewrite encode_expand_chars, unescape_slash, unescape_tilde.
Qed.

Lemma append_assoc' (a b c : string) : (a ++ b) ++ c = a ++ (b ++ c).
Proof. induction a as [|x a IH]; [done|]. rewrite !append_cons. by rewrite IH. Qed.

Lemma append_empty_r (a : string) : a ++ "" = a.
Proof. induction a as [|x a IH]; [done|]. rewrite append_cons. by rewrite IH. Qed.

Lemma split_on_nonempty sep s : split_on sep s ≠ [].
Proof.
  induction s as [|c r IH]; cbn; [done|].
  destruct (Ascii.eqb c sep); [done|]. by destruct (split_on sep r).
Qed.

Lemma split_on_app sep a b :
  split_on sep (a ++ String sep b) = (split_on sep a ++ split_on sep b)%list.
Proof.
  induction a as [|c a IH].
  - rewrite append_nil. cbn. by rewrite Ascii.eqb_refl.
  - rewrite append_cons. cbn. destruct (Ascii.eqb c sep); [by rewrite IH|].
    rewrite IH. pose proof (split_on_nonempty sep a).
    by destruct (split_on sep a).
Qed.

Lemma split_on_no_sep sep s :
  has_char sep s = false → split_on sep s = [s].
Proof.
  induction s as [|c r IH]; [done|]. cbn. rewrite (Ascii.eqb_sym sep c).
  destruct (Ascii.eqb c sep); [done|]. cbn. intros Hr. by rewrite IH.
Qed.

Lemma has_char_app c a b : has_char c (a ++ b) = has_char c a || has_char c b.
Proof.
  induction a as [|x a IH]; [done|]. rewrite append_cons. cbn. rewrite IH.
  by destruct (Ascii.eqb c x).
Qed.

Lemma escape_char_no_slash c : has_char "/" (escape_char c) = false.
Proof.
  unfold escape_char. destruct (Ascii.eqb c "~"); [done|].
  destruct (Ascii.eqb c "/") eqn:E; [done|].
  change (has_char "/" (String c "")) with (Ascii.eqb "/" c || false).
  by rewrite (Ascii.eqb_sym "/" c), E.
Qed.

Lemma encode_no_slash s : has_char "/" (encode_pointer_token s) = false.
Proof.
  rewrite encode_expand_chars. induction s as [|c r IH]; [done|].
  cbn [expand_chars]. by rewrite has_char_app, escape_char_no_slash, IH.
Qed.

Lemma escape_char_nonempty c : ∃ x r, escape_char c = String x r.
Proof.
  unfold escape_char. destruct (Ascii.eqb c "~"); [by eexists _, _|].
  destruct (Ascii.eqb c "/"); by eexists _, _.
Qed.

Lemma encode_empty s : encode_pointer_token s = "" → s = "".
Proof.
  rewrite encode_expand_chars. destruct s as [|c r]; [done|].
  cbn [expand_chars]. destruct (escape_char_nonempty c) as (x & t & ->).
  by rewrite append_cons.
Qed.

(** A [~] in an escaped character is followed by [0] or [1]. *)
Lemma has_invalid_escape_app a b :
  jsonpointer.has_invalid_escape a = false →
  jsonpointer.has_invalid_escape (a ++ b) = jsonpointer.has_invalid_escape b.
Proof.
  induction a as [|c a IH]; [done|]. rewrite append_cons. cbn.
  destruct (Ascii.eqb c "~").
  - destruct a as [|d a']; [done|]. rewrite append_cons.
    destruct (Ascii.eqb d "0" || Ascii.eqb d "1"); [|done].
    intros Ha. rewrite <- append_cons. by apply IH.
  - apply IH.
Qed.

Lemma escape_char_valid c : jsonpointer.has_invalid_escape (escape_char c) = false.
Proof.
  unfold escape_char. destruct (Ascii.eqb c "~") eqn:E; [done|].
  destruct (Ascii.eqb c "/") eqn:E2; [done|]. cbn. by rewrite E.
Qed.

Lemma encode_valid s : jsonpointer.has_invalid_escape (encode_pointer_token s) = false.
Proof.
  rewrite encode_expand_chars. induction s as [|c r IH]; [done|].
  cbn [expand_chars]. by rewrite has_invalid_escape_app by apply escape_char_valid.
Qed.

Lemma startswith_app p a b : PyStr.startswith p a = true → PyStr.startswith p (a ++ b) = true.
Proof.
  revert a. induction p as [|x p IH]; intros a; [done|].
  destruct a as [|y a]; [done|]. rewrite append_cons. cbn.
  destruct (Ascii.eqb x y); [apply IH|done].
Qed.

Lemma join_pointer_proper base token :
  proper_pointer base → base ≠ "" ∨ token ≠ "" → 
  join_pointer base token ≠ "" ∧ proper_pointer (join_pointer base token).
Proof.
  intros Hp Hne. unfold join_pointer. case_decide as Hb.
  - subst base. rewrite append_cons, append_nil. split; [done|]. right.
    split; [done|]. intros [= He]. apply encode_empty in He. naive_solver.
  - destruct Hp as [->|[Hs Hn]]; [done|].
    destruct base as [|c base]; [done|]. rewrite append_cons. split; [done|].
    right. split.
    { rewrite <- append_cons. by apply startswith_app. }
    change (PyStr.startswith "/" (String c base))
      with (if Ascii.eqb "/" c then PyStr.startswith "" base else false) in Hs.
    destruct (Ascii.eqb "/" c) eqn:E; [|done].
    apply Ascii.eqb_eq in E as <-. destruct base as [|d base]; [done|].
    by rewrite append_cons.
Qed.

(** One more token at the end of a pointer is one more token at the end
    of what [parse_json_pointer] reads. *)
Lemma parse_join_pointer base token ts :
  parse_json_pointer base = Some ts → base ≠ "/" → base ≠ "" ∨ token ≠ "" →
  parse_json_pointer (join_pointer base token) = Some (ts ++ [token])%list.
Proof.
  intros Hparse Hroot Hne.
  assert (Hp : proper_pointer base).
  { unfold parse_json_pointer in Hparse. case_decide as Hb; [left; naive_solver|].
    right. split; [|done]. by destruct (PyStr.startswith "/" base). }
  destruct (join_pointer_proper base token Hp Hne) as (Hj0 & [Hj|[Hjs Hj1]]); [done|].
  unfold parse_json_pointer at 1. rewrite decide_False by naive_solver. rewrite Hjs.
  f_equal. unfold join_pointer. case_decide as Hb.
  - subst base. cbn in Hparse. injection Hparse as <-.
    change ("/" ++ encode_pointer_token token)
      with ("" ++ String "/" (encode_pointer_token token)).
    rewrite split_on_app, (split_on_no_sep _ (encode_pointer_token token))
      by apply encode_no_slash.
    cbn -[decode_pointer_token encode_pointer_token]. by rewrite decode_encode_token.
  - unfold parse_json_pointer in Hparse. rewrite decide_False in Hparse by naive_solver.
    destruct (PyStr.startswith "/" base); [|done]. injection Hparse as <-.
    change (base ++ "/" ++ encode_pointer_token token)
      with (base ++ String "/" (encode_pointer_token token)).
    rewrite split_on_app, (split_on_no_sep _ (encode_pointer_token token))
      by apply encode_no_slash.
    pose proof (split_on_nonempty "/" base).
    destruct (split_on "/" base) as [|w ws]; [done|].
    cbn -[decode_pointer_token encode_pointer_token].
    rewrite fmap_app. cbn -[decode_pointer_token encode_pointer_token].
    by rewrite decode_encode_token.
Qed.

(** The same for the parts the library reads, with no condition on the
    pointer. *)
Lemma JsonPointer_join_pointer base token parts :
  jsonpointer.JsonPointer base = Ok parts →
  jsonpointer.JsonPointer (join_pointer base token) = Ok (parts ++ [token])%list.
Proof.
  unfold jsonpointer.JsonPointer. intros Hb.
  destruct (jsonpointer.has_invalid_escape base) eqn:Hv; [done|].
  assert (Hj : join_pointer base token = base ++ String "/" (encode_pointer_token token)).
  { unfold join_pointer. case_decide as He; [by subst|done]. }
  rewrite Hj, has_invalid_escape_app by done.
  change (jsonpointer.has_invalid_escape (String "/" (encode_pointer_token token)))
    with (jsonpointer.has_invalid_escape (encode_pointer_token token)).
  rewrite encode_valid, split_on_app, (split_on_no_sep _ (encode_pointer_token token))
    by apply encode_no_slash.
  destruct (split_on "/" base) as [|p0 ps]; [done|].
  cbn -[jsonpointer.unescape encode_pointer_token].
  destruct (decide (p0 = "")); [|done]. injection Hb as <-.
  rewrite fmap_app. cbn -[jsonpointer.unescape encode_pointer_token]. f_equal. f_equal.
  change (jsonpointer.unescape (encode_pointer_token token))
    with (decode_pointer_token (encode_pointer_token token)).
  by rewrite decode_encode_token.
Qed.

Lemma pointer_of_tokens_snoc tokens token :
  pointer_of_tokens (tokens ++ [token]) = join_pointer (pointer_of_tokens tokens) token.
Proof. unfold pointer_of_tokens. by rewrite fold_left_app. Qed.

Lemma pointer_of_tokens_proper tokens :
  head tokens ≠ Some "" →
  proper_pointer (pointer_of_tokens tokens) ∧ (pointer_of_tokens tokens = "" → tokens = []).
Proof.
  induction tokens as [|t tokens IH] using rev_ind; [by split; [left|]|].
  intros Hh. rewrite pointer_of_tokens_snoc.
  assert (Hh' : head tokens ≠ Some "") by (by destruct tokens).
  destruct (IH Hh') as [Hp He].
  assert (Hne : pointer_of_tokens tokens ≠ "" ∨ t ≠ "").
  { destruct (decide (pointer_of_tokens tokens = "")) as [E|]; [|by left].
    right. rewrite (He E) in Hh. cbn in Hh. congruence. }
  destruct (join_pointer_proper _ t Hp Hne) as [Hj0 Hj]. by split.
Qed.

End PointerFacts.

(** X1: the text of an encoded token is one segment of a pointer: it has
    no [/], so splitting it on [/] gives it back, and each [~] in it is
    followed by [0] or [1], so the library accepts it. *)
Theorem encoded_token_is_one_segment (s : string) :
  has_char "/" (encode_pointer_token s) = false
  ∧ split_on "/" (encode_pointer_token s) = [encode_pointer_token s]
  ∧ jsonpointer.has_invalid_escape (encode_pointer_token s) = false
  ∧ (encode_pointer_token s = "" → s = "").
Proof.
  split; [apply PointerFacts.encode_no_slash|].
  split; [apply PointerFacts.split_on_no_sep, PointerFacts.encode_no_slash|].
  split; [apply PointerFacts.encode_valid|apply PointerFacts.encode_empty].
Qed.

(** X2: a pointer made by [join_pointer] from the empty pointer, one token
    after the other, is read back by [parse_json_pointer] as the list of
    its tokens, provided the first token is not the empty string. *)
Theorem parse_pointer_of_tokens (tokens : list string) :
  head tokens ≠ Some "" →
  parse_json_pointer (pointer_of_tokens tokens) = Some tokens.
Proof.
  induction tokens as [|t tokens IH] using rev_ind; [done|].
  intros Hh. rewrite PointerFacts.pointer_of_tokens_snoc.
  assert (Hh' : head tokens ≠ Some "") by (by destruct tokens).
  destruct (PointerFacts.pointer_of_tokens_proper tokens Hh') as [Hp He].
  apply PointerFacts.parse_join_pointer; [by apply IH| |].
  - destruct Hp as [->|[_ ?]]; done.
  - destruct (decide (pointer_of_tokens tokens = "")) as [E|]; [|by left].
    right. rewrite (He E) in Hh. cbn in Hh. congruence.
Qed.

(** X3: the library reads a pointer made by [join_pointer] as the list of
    its tokens, whatever the tokens are. *)
Theorem JsonPointer_pointer_of_tokens (tokens : list string) :
  jsonpointer.JsonPointer (pointer_of_tokens tokens) = Ok tokens.
Proof.
  induction tokens as [|t tokens IH] using rev_ind; [done|].
  rewrite PointerFacts.pointer_of_tokens_snoc.
  by apply PointerFacts.JsonPointer_join_pointer.
Qed.

(** X4: [parse_json_pointer_lenient] reads a pointer as [parse_json_pointer]
    does where that one succeeds, and reads a path with no [/] in front as
    [parse_json_pointer] reads it with the [/] put in front. *)
Theorem lenient_agrees_with_strict (path : string) :
  (∀ ts, parse_json_pointer path = Some ts → parse_json_pointer_lenient path = ts)
  ∧ (parse_json_pointer path = None →
     parse_json_pointer ("/" ++ path) = Some (parse_json_pointer_lenient path))
  ∧ (parse_json_pointer path = None ↔ path ≠ "" ∧ PyStr.startswith "/" path = false).
Proof.
  unfold parse_json_pointer, parse_json_pointer_lenient. split; [|split].
  - intros ts. case_decide; [by intros [= <-]|].
    destruct (PyStr.startswith "/" path); [by intros [= <-]|done].
  - case_decide as Hp; [done|].
    destruct (PyStr.startswith "/" path) eqn:Hs; [done|]. intros _.
    rewrite decide_False; [done|]. intros [[=]|[= E]].
    apply Hp. left. by destruct path.
  - case_decide as Hp.
    + split; [done|]. intros [Hne Hs]. destruct Hp as [->| ->]; done.
    + destruct (PyStr.startswith "/" path) eqn:Hs; split; try done.
      * by intros [_ ?].
      * intros _. split; [naive_solver|done].
Qed.

(** * Matching a query *)

Module MatchFacts.
Import PointerCodecFacts PointerFacts.

Lemma startswith_spec p s :
  PyStr.startswith p s = true ↔ ∃ post, s = p ++ post.
Proof.
  revert s. induction p as [|x p IH]; intros s.
  - split; [by exists s|done].
  - destruct s as [|y s].
    + split; [done|]. intros (post & E). by rewrite append_cons in E.
    + cbn [PyStr.startswith]. destruct (Ascii.eqb x y) eqn:E.
      * apply Ascii.eqb_eq in E as ->. rewrite IH. split.
        -- intros (post & ->). by exists post.
        -- intros (post & E). rewrite append_cons in E. injection E as ->. by exists post.
      * split; [done|]. intros (post & E'). rewrite append_cons in E'.
        injection E' as -> _. by rewrite Ascii.eqb_refl in E.
Qed.

Lemma contains_spec needle text :
  contains needle text = true ↔ ∃ pre post, text = pre ++ needle ++ post.
Proof.
  induction text as [|c r IH].
  - cbn [contains]. rewrite orb_false_r, startswith_spec. split.
    + intros (post & E). by exists "", post.
    + intros (pre & post & E). destruct pre as [|x pre]; [by exists post|].
      by rewrite append_cons in E.
  - cbn [contains]. rewrite orb_true_iff, startswith_spec, IH. split.
    + intros [(post & E)|(pre & post & ->)]; [by exists "", post|].
      by exists (String c pre), post.
    + intros (pre & post & E). destruct pre as [|x pre].
      * left. by exists post.
      * right. rewrite append_cons in E. injection E as -> ->. by exists pre, post.
Qed.

Lemma contains_trans a b c :
  contains a b = true → contains b c = true → contains a c = true.
Proof.
  rewrite !contains_spec. intros (p1 & q1 & ->) (p2 & q2 & ->).
  exists (p2 ++ p1), (q1 ++ q2). by rewrite !append_assoc'.
Qed.

Lemma string_of_list_ascii_snoc l c :
  string_of_list_ascii (l ++ [c]) = string_of_list_ascii l ++ String c "".
Proof. induction l as [|x l IH]; [done|]. cbn. by rewrite IH. Qed.

(** A word of [s.split()] is a piece of [s]. *)
Lemma split_ws_aux_pieces s cur w :
  w ∈ split_ws_aux s cur →
  ∃ pre post, string_of_list_ascii (rev cur) ++ s = pre ++ w ++ post.
Proof.
  revert cur. induction s as [|c r IH]; intros cur Hw.
  - cbn in Hw. destruct cur as [|x cur]; [by apply elem_of_nil in Hw|].
    apply list_elem_of_singleton in Hw as ->.
    exists "", "". by rewrite append_nil.
  - cbn [split_ws_aux] in Hw. destruct (is_space c).
    + apply elem_of_app in Hw as [Hw|Hw].
      * destruct cur as [|x cur]; [by apply elem_of_nil in Hw|].
        apply list_elem_of_singleton in Hw as ->.
        exists "", (String c r). by rewrite append_nil.
      * destruct (IH [] Hw) as (pre & post & E). cbn in E. rewrite append_nil in E.
        exists (string_of_list_ascii (rev cur) ++ String c pre), post.
        rewrite append_assoc', append_cons. by rewrite E.
    + destruct (IH (c :: cur) Hw) as (pre & post & E). exists pre, post.
      rewrite <- E. cbn [rev]. rewrite string_of_list_ascii_snoc, append_assoc'.
      by rewrite append_cons, append_nil.
Qed.

Lemma split_ws_contains s w : w ∈ split_ws s → contains w s = true.
Proof.
  intros Hw. apply split_ws_aux_pieces in Hw as (pre & post & E).
  cbn in E. rewrite append_nil in E. apply contains_spec. by exists pre, post.
Qed.

Lemma lower_empty s : lower s = "" ↔ s = "".
Proof. by destruct s. Qed.

End MatchFacts.

(** X5: a text that matches a query in the exact mode matches it in the
    fuzzy mode: every word of the query is a piece of the query, which is
    a piece of the text. *)
Theorem exact_match_is_fuzzy_match (text query : string) :
  _matches text query false = true → _matches text query true = true.
Proof.
  unfold _matches. case_decide; [done|]. intros Hex.
  apply forallb_forall. intros w Hw%list_elem_of_In.
  eapply MatchFacts.contains_trans; [|exact Hex].
  by apply MatchFacts.split_ws_contains.
Qed.


(** * What [read_value] keeps and what it cuts *)

Lemma e_mapM_Forall2 {A B} (f : A → E B) (l : list A) (bs : list B) :
  Forall2 (λ a b, f a = Some (Ok b)) l bs → e_mapM f l = Some (Ok bs).
Proof.
  induction 1 as [|a b l bs Hab _ IH]; [done|]. cbn. rewrite Hab. cbn.
  by rewrite IH.
Qed.

Lemma e_mapM_inv {A B} (f : A → E B) (l : list A) (bs : list B) :
  e_mapM f l = Some (Ok bs) → Forall2 (λ a b, f a = Some (Ok b)) l bs.
Proof.
  revert bs. induction l as [|a l IH]; intros bs; cbn.
  - intros [= <-]. constructor.
  - destruct (f a) as [[b|e]|] eqn:Ha; cbn; try done.
    destruct (e_mapM f l) as [[bs'|e]|]; cbn; try done.
    intros [= <-]. constructor; [done|]. by apply IH.
Qed.

Lemma Forall2_impl_in {A B} (P Q : A → B → Prop) (l : list A) (k : list B) :
  Forall2 P l k → (∀ x y, x ∈ l → y ∈ k → P x y → Q x y) → Forall2 Q l k.
Proof.
  induction 1 as [|x y l k Hxy _ IH]; intros HPQ; constructor.
  - apply HPQ; [left..|done].
  - apply IH. intros x' y' Hx Hy. apply HPQ; by right.
Qed.

Lemma snapshot_type_name fuel h v t :
  snapshot fuel h v = Some t → ∃ tn, type_name h v = Some tn.
Proof.
  destruct v; cbn [snapshot type_name]; try by eexists.
  destruct fuel; [done|]. cbn [snapshot].
  destruct (h !! l) as [[]|]; [intros _; by eexists..|done].
Qed.

Section lossless.
Context (h : heap).
Variables max_string_length max_depth max_array_items max_object_keys : Z.

Abbreviation trunc fuel value depth :=
  (_truncate_value fuel h value max_string_length max_depth max_array_items
     max_object_keys depth).
Abbreviation within d t :=
  (within_limits max_string_length max_array_items max_object_keys d t).

Lemma within_leaf d v :
  within d (Leaf v) = match v with VStr s => (str_len s <=? max_string_length)%Z | _ => true end.
Proof. by destruct d. Qed.

Lemma truncate_leaf fuel v d cd :
  (∀ l, v ≠ VRef l) → within d (Leaf v) = true → trunc fuel v cd = Some (Ok (Leaf v)).
Proof.
  intros Hv. rewrite within_leaf. intros Hin.
  destruct v as [| | | |s|l|]; try (by destruct (Hv l));
    destruct fuel; cbn [_truncate_value classify]; try (by case_match).
  all: apply Z.leb_le in Hin;
    assert (Hlt : (max_string_length <? str_len s)%Z = false) by (apply Z.ltb_ge; lia);
    rewrite Hlt; by case_match.
Qed.

(** A value that is within the limits comes out of the truncation as it
    is. *)
Lemma truncate_within_limits f : ∀ value t current_depth fuel,
  snapshot f h value = Some t →
  within (Z.to_nat (max_depth - current_depth)) t = true →
  (Z.to_nat (max_depth - current_depth) <= fuel)%nat →
  trunc fuel value current_depth = Some (Ok t).
Proof.
  induction f as [|f IH]; intros value t cd fuel Hsnap Hin Hfuel.
  - destruct value; cbn in Hsnap; try done; injection Hsnap as <-;
      by eapply truncate_leaf.
  - destruct value as [| | | | |l|]; cbn [snapshot] in Hsnap;
      try (injection Hsnap as <-; by eapply truncate_leaf).
    destruct (h !! l) as [[kvs|xs]|] eqn:Hl; [| |done].
    + apply fmap_Some in Hsnap as (kts & Hkts & ->).
      apply mapM_Some in Hkts.
      destruct (Z.to_nat (max_depth - cd)) as [|d] eqn:Hd; [done|].
      cbn [within_limits] in Hin. apply andb_true_iff in Hin as [Hlen Hall].
      destruct fuel as [|fuel]; [lia|].
      assert (Hcd : (max_depth <=? cd)%Z = false) by (apply Z.leb_gt; lia).
      cbn [_truncate_value classify]. rewrite Hcd, Hl.
      assert (Hsame : list_len kvs = list_len kts).
      { unfold list_len. by rewrite (Forall2_length _ _ _ Hkts). }
      assert (Hk : (max_object_keys <? list_len kvs)%Z = false).
      { apply Z.ltb_ge. rewrite Hsame. by apply Z.leb_le. }
      rewrite Hk. erewrite e_mapM_Forall2; [reflexivity|].
      rewrite forallb_forall in Hall.
      eapply Forall2_impl_in; [exact Hkts|].
      intros [k v] [k' t'] _ Hin' Hkv. cbn in Hkv.
      apply fmap_Some in Hkv as (t'' & Ht'' & [= -> ->]). cbn.
      rewrite (IH v t'' (cd + 1)%Z fuel Ht''); [done| |lia].
      assert (Hd' : Z.to_nat (max_depth - (cd + 1)) = d) by lia. rewrite Hd'.
      apply (Hall (k, t'')). by apply list_elem_of_In.
    + apply fmap_Some in Hsnap as (ts & Hts & ->).
      apply mapM_Some in Hts.
      destruct (Z.to_nat (max_depth - cd)) as [|d] eqn:Hd; [done|].
      cbn [within_limits] in Hin. apply andb_true_iff in Hin as [Hlen Hall].
      destruct fuel as [|fuel]; [lia|].
      assert (Hcd : (max_depth <=? cd)%Z = false) by (apply Z.leb_gt; lia).
      cbn [_truncate_value classify]. rewrite Hcd, Hl.
      assert (Hsame : list_len xs = list_len ts).
      { unfold list_len. by rewrite (Forall2_length _ _ _ Hts). }
      assert (Hk : (max_array_items <? list_len xs)%Z = false).
      { apply Z.ltb_ge. rewrite Hsame. by apply Z.leb_le. }
      rewrite Hk. erewrite e_mapM_Forall2; [reflexivity|].
      rewrite forallb_forall in Hall.
      eapply Forall2_impl_in; [exact Hts|].
      intros v t' _ Hin' Hv.
      apply (IH v t' (cd + 1)%Z fuel Hv); [|lia].
      assert (Hd' : Z.to_nat (max_depth - (cd + 1)) = d) by lia. rewrite Hd'.
      apply Hall. by apply list_elem_of_In.
Qed.

End lossless.

(** X7: a value that is within the limits is read as it is: when the
    path resolves to a value that stands for the JSON value [t], and no
    string, list or dict of [t] is over its limit and none of its lists
    and dicts sits [max_depth] levels down or deeper, [read_value]
    returns [t] itself. *)
Theorem read_value_lossless_within_limits (h : heap) (document : val) (path : string)
    (max_string_length max_depth max_array_items max_object_keys : Z)
    (value : val) (fuel : nat) (t : tree) :
  resolve_or_root h document path = Some (Ok value) →
  snapshot fuel h value = Some t →
  within_limits max_string_length max_array_items max_object_keys
    (Z.to_nat max_depth) t = true →
  ∃ tn, type_name h value = Some tn
    ∧ read_value h document path max_string_length max_depth max_array_items
        max_object_keys = Some (Ok (ReadFound path t tn)).
Proof.
  intros Hres Hsnap Hin. destruct (snapshot_type_name _ _ _ _ Hsnap) as (tn & Htn).
  exists tn. split; [done|]. unfold read_value. rewrite Hres.
  rewrite (truncate_within_limits h _ _ _ _ fuel value t 0 (Z.to_nat max_depth) Hsnap).
  - cbn. by rewrite Htn.
  - by rewrite Z.sub_0_r.
  - by rewrite Z.sub_0_r.
Qed.

(** * The width of what [read_value] returns *)

Lemma length_tdict_set k v kvs :
  (length (tdict_set k v kvs) <= Datatypes.S (length kvs))%nat.
Proof.
  induction kvs as [|[k' v'] r IH]; cbn; [lia|]. case_decide; cbn; lia.
Qed.

Lemma length_slice_to {A} (n : Z) (l : list A) :
  (0 <= n)%Z → (list_len (slice_to n l) <= n)%Z.
Proof.
  intros Hn. unfold slice_to, list_len.
  destruct (Z.leb_spec 0 n); [|lia]. rewrite length_take. lia.
Qed.

Lemma width_tdict_set mai mok k v kvs :
  width_within mai mok v = true →
  forallb (λ kv, width_within mai mok kv.2) kvs = true →
  forallb (λ kv, width_within mai mok kv.2) (tdict_set k v kvs) = true.
Proof. intros Hv. by apply (tdict_set_forall (λ kv, width_within mai mok kv.2)). Qed.

Section width.
Context (h : heap).
Variables max_string_length max_depth max_array_items max_object_keys : Z.
Hypothesis Harray : (0 <= max_array_items)%Z.
Hypothesis Hkeys : (0 <= max_object_keys)%Z.

Abbreviation trunc fuel value depth :=
  (_truncate_value fuel h value max_string_length max_depth max_array_items
     max_object_keys depth).
Abbreviation wide t := (width_within max_array_items max_object_keys t).

(** Whatever the truncation returns is within the two widths, with one
    more entry for the note on what was cut. *)
Lemma truncate_width fuel : ∀ value current_depth t,
  trunc fuel value current_depth = Some (Ok t) → wide t = true.
Proof.
  induction fuel as [|fuel IH]; intros value cd t.
  - cbn. repeat case_match; intros [= <-]; done.
  - cbn [_truncate_value]. destruct (max_depth <=? cd)%Z.
    { repeat case_match; intros [= <-]; done. }
    destruct (classify h value) as [[kvs|xs|s|]|]; [| | | |done].
    + set (go := λ kv : string * val,
                   trunc fuel kv.2 (cd + 1)%Z ≫= λ t, mret (kv.1, t)).
      assert (Hgo : ∀ l bs, e_mapM go l = Some (Ok bs) →
                forallb (λ kv, wide kv.2) bs = true ∧ length bs = length l).
      { intros l bs Hbs%e_mapM_inv. split.
        - apply forallb_Forall_iff. eapply Forall2_Forall_r; [exact Hbs|].
          apply Forall_forall. intros [k v] _ [k' t'] Hkv. unfold go in Hkv. cbn in Hkv.
          destruct (trunc fuel v (cd + 1)%Z) as [[t''|]|] eqn:Ht; cbn in Hkv; try done.
          injection Hkv as <- <-. cbn. by eapply IH.
        - symmetry. by eapply Forall2_length. }
      destruct (Z.ltb_spec max_object_keys (list_len kvs)) as [Hlt|Hge].
      * destruct (e_mapM go (slice_to max_object_keys kvs)) as [[bs|]|] eqn:Hbs;
          cbn; try done. intros [= <-].
        destruct (Hgo _ _ Hbs) as [Hw Hlen]. cbn [width_within].
        apply andb_true_iff. split; [|by apply width_tdict_set].
        apply Z.leb_le. pose proof (length_tdict_set "__truncated__"
          (Leaf (VStr (str_of_int (list_len kvs - max_object_keys) ++ " more keys"))) bs).
        pose proof (length_slice_to max_object_keys kvs Hkeys).
        unfold list_len in *. lia.
      * destruct (e_mapM go kvs) as [[bs|]|] eqn:Hbs; cbn; try done. intros [= <-].
        destruct (Hgo _ _ Hbs) as [Hw Hlen]. cbn [width_within].
        apply andb_true_iff. split; [|done]. apply Z.leb_le. unfold list_len in *. lia.
    + assert (Hgo : ∀ l bs,
                e_mapM (λ item, trunc fuel item (cd + 1)%Z) l = Some (Ok bs) →
                forallb (λ t, wide t) bs = true ∧ length bs = length l).
      { intros l bs Hbs%e_mapM_inv. split.
        - apply forallb_Forall_iff. eapply Forall2_Forall_r; [exact Hbs|].
          apply Forall_forall. intros v _ t' Hv. by eapply IH.
        - symmetry. by eapply Forall2_length. }
      destruct (Z.ltb_spec max_array_items (list_len xs)) as [Hlt|Hge].
      * destruct (e_mapM _ (slice_to max_array_items xs)) as [[bs|]|] eqn:Hbs;
          cbn; try done. intros [= <-].
        destruct (Hgo _ _ Hbs) as [Hw Hlen]. cbn [width_within].
        apply andb_true_iff. split.
        -- apply Z.leb_le. pose proof (length_slice_to max_array_items xs Harray).
           unfold list_len in *. rewrite length_app. cbn. lia.
        -- rewrite forallb_app. apply andb_true_iff. split; [exact Hw|done].
      * destruct (e_mapM _ xs) as [[bs|]|] eqn:Hbs; cbn; try done. intros [= <-].
        destruct (Hgo _ _ Hbs) as [Hw Hlen]. cbn [width_within].
        apply andb_true_iff. split; [|done]. apply Z.leb_le. unfold list_len in *. lia.
    + case_match; intros [= <-]; done.
    + intros [= <-]; done.
Qed.

End width.

(** X8: with limits that are not negative, no list in the value
    [read_value] returns has more than [max_array_items + 1] items and no
    dict more than [max_object_keys + 1] keys: the items or keys kept,
    and one entry that says how many were left out. *)
Theorem read_value_width_bound (h : heap) (document : val) (path : string)
    (max_string_length max_depth max_array_items max_object_keys : Z)
    (p : string) (value : tree) (tn : string) :
  (0 <= max_array_items)%Z →
  (0 <= max_object_keys)%Z →
  read_value h document path max_string_length max_depth max_array_items
    max_object_keys = Some (Ok (ReadFound p value tn)) →
  width_within max_array_items max_object_keys value = true.
Proof.
  intros Ha Hk. unfold read_value.
  destruct (resolve_or_root h document path) as [[v|e]|]; [|by destruct e|done].
  destruct (_truncate_value _ _ _ _ _ _ _ _) as [[t|]|] eqn:Ht; cbn; try done.
  destruct (type_name h v); [|done]. intros [= <- <- <-].
  by eapply truncate_width.
Qed.

(** * The two readers on a path that does not resolve *)

(** X9: on a document held in a closed set of objects, [inspect_keys]
    answers that a path is not found exactly when [read_value] does, and
    with the same error. *)
Theorem inspect_and_read_agree_on_not_found `{PyRuntime} (h : heap) (S : gset loc)
    (document : val) (path : string)
    (max_string_length max_depth max_array_items max_object_keys : Z) (e : exn) :
  closed_in h S = true →
  val_in S document = true →
  inspect_keys h document path = Some (Ok (InspectNotFound e path))
  ↔ read_value h document path max_string_length max_depth max_array_items
      max_object_keys = Some (Ok (ReadNotFound e path)).
Proof.
  intros Hc Hdoc. unfold inspect_keys, read_value.
  assert (Hp : (if decide (path = "") then "" else path) = path) by (by case_decide).
  rewrite Hp.
  destruct (resolve_or_root_in h S Hc document path Hdoc) as [->|(v & -> & Hv)].
  { split; intros [= <-]; done. }
  destruct (truncate_total_bounded h S Hc max_string_length max_depth max_array_items
              max_object_keys (Z.to_nat max_depth) v 0 Hv) as (t & Ht & _); [lia|].
  rewrite Ht. cbn.
  destruct (classify_in h S Hc v Hv) as (c & -> & _).
  destruct (type_name_in h S Hc v Hv) as (tn & ->).
  split; [by destruct c|done].
Qed.

(** * What [apply_patches] returns *)

Section patch_results.
Context `{PyRuntime}.

Lemma validate_patches_result patches : ∀ i h r h',
  Forall hashable_op patches →
  validate_patches i patches h = Some (r, h') →
  r = Ok None
  ∨ ∃ error k, r = Ok (Some (PatchFailure error None (Z.of_nat k)))
      ∧ (i <= k < i + length patches)%nat.
Proof.
  induction patches as [|p rest IH]; intros i h r h' Hh; cbn [validate_patches].
  { intros [= <- <-]. by left. }
  apply Forall_cons in Hh as [Hp Hrest].
  destruct (op_not_in_valid_ops (jsonpatch.op_op p)) as [[]|e] eqn:Hop.
  - intros Hrun. m_inv Hrun.
    right. eexists _, i. split; [done|]. cbn. lia.
  - case_match.
    + intros [= <- <-]. right. eexists _, i. split; [done|]. cbn. lia.
    + intros Hrun. destruct (IH _ _ _ _ Hrest Hrun) as [->|(error & k & -> & Hk)];
        [by left|]. right. eexists _, k. split; [done|]. cbn. lia.
  - unfold hashable_op, op_not_in_valid_ops in *.
    destruct (jsonpatch.op_op p) as [[]|]; try done. by destruct (Hp l).
Qed.

Lemma find_failed_from_result patches : ∀ i d h r h',
  find_failed_from i patches d h = Some (r, h') →
  ∃ x, r = Ok x ∧ ∀ k, x = Some k → (i <= k < i + length patches)%nat.
Proof.
  induction patches as [|p rest IH]; intros i d h r h'; cbn [find_failed_from].
  { intros [= <- <-]. by eexists. }
  intros Hrun. m_inv Hrun.
  - apply m_catch_inv in Hrun0 as (x & _ & [= ->]). destruct x as [d1|e].
    + destruct (IH _ _ _ _ _ Hrun) as (x & -> & Hx). exists x. split; [done|].
      intros k Hk. specialize (Hx k Hk). cbn. lia.
    + m_inv Hrun. eexists. split; [done|]. intros k [= <-]. cbn. lia.
  - by apply m_catch_inv in Hrun as (x & _ & [=]).
Qed.

Lemma find_failed_patch_index_result document patches h r h' :
  patches ≠ [] →
  _find_failed_patch_index document patches h = Some (r, h') →
  ∃ i, r = Ok i ∧ (0 <= i < list_len patches)%Z.
Proof.
  intros Hne. unfold _find_failed_patch_index. intros Hrun. m_inv Hrun.
  - destruct (find_failed_from_result _ _ _ _ _ _ Hrun0) as (x & [= <-] & Hx).
    destruct a as [k|]; m_inv Hrun; eexists; (split; [done|]).
    + specialize (Hx k eq_refl). unfold list_len. lia.
    + unfold list_len. destruct patches; [done|]. cbn. lia.
  - by destruct (find_failed_from_result _ _ _ _ _ _ Hrun) as (x & [=] & _).
Qed.

End patch_results.

(** X10: when no [op] member is a dict or a list, [apply_patches] raises
    nothing: whatever the library does, the call returns a result.  A
    success counts all the operations, and the index of a failure is an
    index of the list. *)
Theorem apply_patches_returns_a_result `{PyRuntime} (document : val)
    (patches : list jsonpatch.operation) (target_schema : option tree)
    (h : heap) (r : res patch_result) (h' : heap) :
  Forall hashable_op patches →
  apply_patches document patches target_schema h = Some (r, h') →
  ∃ result, r = Ok result
    ∧ match result with
      | PatchSuccess _ applied_count _ => applied_count = list_len patches
      | PatchFailure _ _ failed_at_index =>
          (0 <= failed_at_index < list_len patches)%Z
      end.
Proof.
  intros Hh. unfold apply_patches.
  destruct patches as [|p rest] eqn:Hp; [intros [= <- <-]; by eexists|].
  rewrite <- Hp in *. assert (Hne : patches ≠ []) by (by subst).
  assert (Hlen : (0 < list_len patches)%Z).
  { unfold list_len. subst. cbn. lia. }
  clear Hp. intros Hrun. m_inv Hrun.
  - destruct (validate_patches_result _ _ _ _ _ Hh Hrun0)
      as [[= ->]|(error & k & [= ->] & Hk)].
    + m_inv Hrun.
      * apply m_catch_inv in Hrun1 as (x & _ & [= ->]).
        assert (Hidx : ∀ text cause r0 hf,
          (i ← _find_failed_patch_index document patches;
           mret (PatchFailure text cause i)) h1 = Some (r0, hf) →
          ∃ result, r0 = Ok result
            ∧ match result with
              | PatchSuccess _ n _ => n = list_len patches
              | PatchFailure _ _ i => (0 <= i < list_len patches)%Z
              end).
        { intros text cause r0 hf Hi. m_inv Hi.
          - destruct (find_failed_patch_index_result _ _ _ _ _ Hne Hi0)
              as (i & [= ->] & Hi').
            m_inv Hi. by eexists.
          - by destruct (find_failed_patch_index_result _ _ _ _ _ Hne Hi)
              as (i & [=] & _). }
        destruct x as [d|[]]; try (by eapply Hidx);
          m_inv Hrun; eexists; (split; [done|]); cbn; lia.
      * by apply m_catch_inv in Hrun as (x & _ & [=]).
    + m_inv Hrun. eexists. split; [done|]. cbn. unfold list_len. lia.
  - by destruct (validate_patches_result _ _ _ _ _ Hh Hrun)
      as [[=]|(error & k & [=] & _)].
Qed.

(** * A member added by a patch is read back *)

(** Take apart a computation that returned. *)
Ltac m_ok H :=
  first
    [ apply m_ret_inv in H as [[= <-] ->]
    | apply m_ret_inv in H as [[= ->] ->]
    | apply m_ret_inv in H as [? ->]
    | let a := fresh "a" in let h1 := fresh "h" in let H1 := fresh H in
      let e := fresh "e" in
      apply m_bind_inv in H as [(a & h1 & H1 & H)|(e & _ & [=])] ].

Lemma dict_get_set k v kvs : dict_get k (dict_set k v kvs) = Some v.
Proof.
  induction kvs as [|[k' v'] r IH]; cbn.
  - by rewrite decide_True.
  - destruct (decide (k = k')) as [->|Hne]; cbn.
    + by rewrite decide_True.
    + by rewrite decide_False.
Qed.

Lemma dict_get_set_ne k k' v kvs :
  k ≠ k' → dict_get k' (dict_set k v kvs) = dict_get k' kvs.
Proof.
  intros Hne. induction kvs as [|[k1 v1] r IH]; cbn.
  - rewrite decide_False; [done|]. by intros ->.
  - destruct (decide (k = k1)) as [->|Hne1]; cbn.
    + rewrite !decide_False; try done; by intros ->.
    + destruct (decide (k' = k1)); [done|]. apply IH.
Qed.

(** The loop that fills the copy of a dict leaves a dict behind. *)
Lemma deepcopy_dict_items_dict recur y kvs : ∀ memo h r h',
  jsonpatch.deepcopy_dict_items recur y kvs memo h = Some (Ok r, h') →
  (∃ ys, h !! y = Some (ODict ys)) → ∃ ys, h' !! y = Some (ODict ys).
Proof.
  induction kvs as [|[k v] rest IH]; intros memo h r h'; cbn [jsonpatch.deepcopy_dict_items].
  { by intros [= _ <-]. }
  intros Hrun _. m_ok Hrun. m_ok Hrun.
  apply m_load_inv in Hrun1 as (o & Ho & [= ->] & ->).
  destruct o as [ys|]; [|done]. m_ok Hrun.
  apply m_store_inv in Hrun1 as (_ & _ & ->).
  eapply IH; [exact Hrun|]. eexists. apply lookup_insert_eq.
Qed.

(** The copy of a dict is a dict. *)
Lemma copy_deepcopy_dict l kvs h v h1 :
  h !! l = Some (ODict kvs) →
  jsonpatch.copy_deepcopy (VRef l) h = Some (Ok v, h1) →
  ∃ y ys, v = VRef y ∧ h1 !! y = Some (ODict ys).
Proof.
  intros Hl. unfold jsonpatch.copy_deepcopy. intros Hrun. m_ok Hrun.
  m_ok Hrun. cbn [jsonpatch.deepcopy] in Hrun0. rewrite lookup_empty in Hrun0.
  m_ok Hrun0. apply m_load_inv in Hrun1 as (o & Ho & [= ->] & ->).
  rewrite Hl in Ho. injection Ho as <-.
  m_ok Hrun0. apply m_alloc_inv in Hrun1 as (y & Hy & [= ->] & ->).
  m_ok Hrun0. m_ok Hrun0.
  exists y. cbn. eapply deepcopy_dict_items_dict in Hrun1 as (ys & Hys).
  - by exists ys.
  - eexists. apply lookup_insert_eq.
Qed.

(** X11: a member added to a dict by a patch [add /key value] is found in
    the document the call returns: the library resolves the path of the
    patch to the value, and so do the two readers when the key is not the
    empty string (for which the path is [/], which they read as the
    root). *)
Theorem added_member_is_read_back `{PyRuntime} (h : heap) (l : loc)
    (kvs : list (string * val)) (key : string) (value : val) (from : option val)
    (target_schema : option tree) (new_document : val) (applied_count : Z)
    (message : option string) (h' : heap) :
  h !! l = Some (ODict kvs) →
  apply_patches (VRef l)
    [{| jsonpatch.op_op := Some (VStr "add");
        jsonpatch.op_path := Some (VStr (join_pointer "" key));
        jsonpatch.op_value := Some value; jsonpatch.op_from := from |}]
    target_schema h
  = Some (Ok (PatchSuccess new_document applied_count message), h') →
  jsonpointer.resolve_pointer h' new_document (join_pointer "" key) = Some (Ok value)
  ∧ (key ≠ "" → resolve_or_root h' new_document (join_pointer "" key) = Some (Ok value)).
Proof.
  intros Hl Hrun.
  assert (Hparts : jsonpointer.JsonPointer (join_pointer "" key) = Ok [key]).
  { by apply (PointerFacts.JsonPointer_join_pointer "" key []). }
  assert (Hres : jsonpointer.resolve_pointer h' new_document (join_pointer "" key)
                 = Some (Ok value)).
  { unfold apply_patches in Hrun. cbn [validate_patches jsonpatch.op_op] in Hrun.
    change (op_not_in_valid_ops (Some (VStr "add"))) with (@Ok bool false) in Hrun.
    rewrite bool_decide_eq_false_2 in Hrun by done.
    apply m_bind_inv in Hrun as [(inv & h0 & Hval & Hrun)|(e & _ & [=])].
    apply m_ret_inv in Hval as [[= ->] ->].
    apply m_bind_inv in Hrun as [(x & h1 & Hcatch & Hrun)|(e & _ & [=])].
    apply m_catch_inv in Hcatch as (x' & Happ & [= ->]).
    destruct x' as [d|e].
    2: { destruct e;
           first [ by apply m_ret_inv in Hrun as [[=] _]
                 | apply m_bind_inv in Hrun as [(? & ? & _ & Hrun)|(? & _ & [=])];
                   by apply m_ret_inv in Hrun as [[=] _] ]. }
    apply m_ret_inv in Hrun as [[= -> _ _] ->].
    unfold jsonpatch.apply in Happ.
    cbn [jsonpatch.get_operations jsonpatch.get_operation jsonpatch.op_op
           jsonpatch.op_path] in Happ.
    change (jsonpatch.kind_of "add") with (Some jsonpatch.OpAdd) in Happ.
    rewrite Hparts in Happ.
    apply m_bind_inv in Happ as [(obj & h2 & Hcopy & Happ)|(e & _ & [=])].
    destruct (copy_deepcopy_dict _ _ _ _ _ Hl Hcopy) as (y & ys & -> & Hy).
    cbn [jsonpatch.apply_operations jsonpatch.operation_apply jsonpatch.value_member
           jsonpatch.op_value] in Happ.
    apply m_bind_inv in Happ as [(obj' & h3 & Hop & Happ)|(e & _ & [=])].
    apply m_ret_inv in Happ as [[= ->] ->].
    apply m_bind_inv in Hop as [(v' & h4 & Hv & Hop)|(e & _ & [=])].
    apply m_ret_inv in Hv as [[= ->] ->].
    unfold jsonpatch.add_apply in Hop.
    apply m_bind_inv in Hop as [(sp & h5 & Hlast & Hop)|(e & _ & [=])].
    apply m_read_inv in Hlast as [Hlast ->].
    cbn [jsonpointer.to_last] in Hlast. unfold jsonpointer.get_part in Hlast.
    cbn [classify] in Hlast. rewrite Hy in Hlast. injection Hlast as <-.
    apply m_bind_inv in Hop as [(c & h6 & Hc & Hop)|(e & _ & [=])].
    apply class_of_inv in Hc as (c' & Hc & [= ->] & ->).
    cbn [classify] in Hc. rewrite Hy in Hc. injection Hc as <-.
    apply m_bind_inv in Hop as [(l' & h7 & Hloc & Hop)|(e & _ & [=])].
    apply m_ret_inv in Hloc as [[= ->] ->].
    apply m_bind_inv in Hop as [(u & h8 & Hupd & Hop)|(e & _ & [=])].
    apply m_ret_inv in Hop as [[= ->] ->].
    unfold jsonpatch.dict_update in Hupd.
    apply m_bind_inv in Hupd as [(o & h9 & Hload & Hupd)|(e & _ & [=])].
    apply m_load_inv in Hload as (o' & Ho & [= ->] & ->).
    rewrite Hy in Ho. injection Ho as <-.
    apply m_store_inv in Hupd as (_ & _ & ->).
    unfold jsonpointer.resolve_pointer. rewrite Hparts.
    cbn [jsonpointer.resolve]. unfold jsonpointer.walk. cbn [classify].
    rewrite lookup_insert_eq. by rewrite dict_get_set. }
  split; [exact Hres|]. intros Hkey. unfold resolve_or_root.
  rewrite decide_False; [exact Hres|].
  unfold join_pointer. rewrite decide_True by done.
  intros [[=]|[= He]]. by apply PointerFacts.encode_empty in He.
Qed.

(** * The loop over the actions *)

Section actions.
Context `{PyRuntime} `{Collaborators}.

Lemma m_arg_inv {A} (a : option A) h r h' :
  m_arg a h = Some (r, h') → ∃ x, a = Some x ∧ r = Ok x ∧ h' = h.
Proof. destruct a; [|done]. intros [= <- <-]. eauto. Qed.

(** One iteration of the loop adds one entry, which carries the name
    and the input of the action. *)
Lemma execute_action_entry state item d rs h d' rs' h' :
  execute_action state item (d, rs) h = Some (Ok (d', rs'), h') →
  ∃ entry, rs' = (rs ++ [entry])%list
    ∧ entry_of item entry
    ∧ (reads_only entry → d' = d ∧ h' = h).
Proof.
  unfold execute_action. intros Hrun.
  apply m_bind_inv in Hrun as [(name & h0 & Hname & Hrun)|(e & _ & [=])].
  apply m_lift_inv in Hname as [Hname ->].
  apply m_bind_inv in Hrun as [(input & h0 & Hinput & Hrun)|(e & _ & [=])].
  apply m_lift_inv in Hinput as [Hinput ->].
  assert (Hentry : ∀ r, entry_of item {| ar_action := name; ar_input := Some input;
                                         ar_result := r |}).
  { intros r. split; [done|]. by exists input. }
  clear Hname Hinput.
  destruct (name_is name "inspect_keys") eqn:N1.
  { assert (Hnp : name_is name "apply_patches" = false).
    { destruct name as [[[]| |]|]; try done. cbn in *.
      apply bool_decide_eq_true in N1 as ->. done. }
    repeat (apply m_bind_inv in Hrun as [(? & ? & Hstep & Hrun)|(? & _ & [=])];
            first [ apply m_lift_inv in Hstep as [_ ->]
                  | apply m_arg_inv in Hstep as (? & _ & _ & ->)
                  | apply m_read_inv in Hstep as [_ ->] ]).
    apply m_ret_inv in Hrun as [[= -> ->] ->].
    eexists. split; [done|]. split; [apply Hentry|done]. }
  destruct (name_is name "read_value") eqn:N2.
  { assert (Hnp : name_is name "apply_patches" = false).
    { destruct name as [[[]| |]|]; try done. cbn in *.
      apply bool_decide_eq_true in N2 as ->. done. }
    repeat (apply m_bind_inv in Hrun as [(? & ? & Hstep & Hrun)|(? & _ & [=])];
            first [ apply m_lift_inv in Hstep as [_ ->]
                  | apply m_arg_inv in Hstep as (? & _ & _ & ->)
                  | apply m_read_inv in Hstep as [_ ->] ]).
    apply m_ret_inv in Hrun as [[= -> ->] ->].
    eexists. split; [done|]. split; [apply Hentry|done]. }
  destruct (name_is name "search_pointer") eqn:N3.
  { assert (Hnp : name_is name "apply_patches" = false).
    { destruct name as [[[]| |]|]; try done. cbn in *.
      apply bool_decide_eq_true in N3 as ->. done. }
    repeat (apply m_bind_inv in Hrun as [(? & ? & Hstep & Hrun)|(? & _ & [=])];
            first [ apply m_lift_inv in Hstep as [_ ->]
                  | apply m_arg_inv in Hstep as (? & _ & _ & ->)
                  | apply m_read_inv in Hstep as [_ ->] ]).
    apply m_ret_inv in Hrun as [[= -> ->] ->].
    eexists. split; [done|]. split; [apply Hentry|done]. }
  destruct (name_is name "apply_patches") eqn:N4.
  { apply m_bind_inv in Hrun as [(? & ? & _ & Hrun)|(? & _ & [=])].
    apply m_bind_inv in Hrun as [(? & ? & _ & Hrun)|(? & _ & [=])].
    apply m_bind_inv in Hrun as [(? & ? & _ & Hrun)|(? & _ & [=])].
    apply m_ret_inv in Hrun as [[= -> ->] ->].
    eexists. split; [done|]. split; [apply Hentry|]. unfold reads_only. cbn.
    by rewrite N4. }
  destruct (name_is name "update_guidance") eqn:N5.
  { apply m_ret_inv in Hrun as [[= -> ->] ->].
    eexists. split; [done|]. split; [apply Hentry|]. unfold reads_only. cbn.
    by rewrite N4. }
  apply m_ret_inv in Hrun as [[= -> ->] ->].
  eexists. split; [done|]. split; [apply Hentry|done].
Qed.

(** The loop adds one entry per action, in the order of the actions. *)
Lemma execute_actions_entries state actions : ∀ d rs h d' rs' h',
  execute_actions state actions (d, rs) h = Some (Ok (d', rs'), h') →
  ∃ new, rs' = (rs ++ new)%list
    ∧ Forall2 entry_of actions new
    ∧ (Forall reads_only new →
       d' = d ∧ h' = h).
Proof.
  induction actions as [|item rest IH]; intros d rs h d' rs' h'; cbn [execute_actions].
  - intros [= <- <- <-]. exists []. by rewrite app_nil_r.
  - intros Hrun.
    apply m_bind_inv in Hrun as [([d1 rs1] & h1 & Hstep & Hrun)|(e & _ & [=])].
    destruct (execute_action_entry _ _ _ _ _ _ _ _ Hstep)
      as (entry & -> & Hentry & Hsame).
    destruct (IH _ _ _ _ _ _ Hrun) as (new & -> & Hall & Hrest).
    exists (entry :: new). split; [by rewrite <- app_assoc|]. split.
    + by constructor.
    + intros [He Hnew]%Forall_cons. destruct (Hsame He) as [-> ->]. by apply Hrest.
Qed.

End actions.

(** X12: the loop over the actions records one result per action, in the
    order of the actions and after the results it started with; each
    entry carries the name and the input of its action.  When no action
    is [apply_patches], the document returned is the document given and
    the store is as it was: only [apply_patches] writes. *)
Theorem one_result_per_action `{PyRuntime} `{Collaborators} (state : AgentState)
    (actions : list tree) (new_document : val) (results : list action_result)
    (h : heap) (new_document' : val) (results' : list action_result) (h' : heap) :
  execute_actions state actions (new_document, results) h
    = Some (Ok (new_document', results'), h') →
  ∃ new, results' = (results ++ new)%list
    ∧ length new = length actions
    ∧ Forall2 entry_of actions new
    ∧ (Forall reads_only new →
       new_document' = new_document ∧ h' = h).
Proof.
  intros Hrun. destruct (execute_actions_entries _ _ _ _ _ _ _ _ Hrun)
    as (new & -> & Hall & Hsame).
  exists new. split; [done|]. split; [|done].
  symmetry. by eapply Forall2_length.
Qed.

(** * What a turn can change *)

Section turns.
Context `{PyRuntime} `{Collaborators}.

(** The dispatcher returns one of three updates. *)
Lemma execute_tools_node_update state h u h' :
  execute_tools_node state h = Some (Ok u, h') → dispatcher_update u.
Proof.
  unfold execute_tools_node, dispatcher_update.
  destruct (last_ai_message (messages state)) as [content|].
  2: { intros [= <- <-]. left. by eexists. }
  destruct (json_loads content) as [response_data|e].
  2: { intros [= <- <-]. left. eexists. split; [done|]. done. }
  intros Hrun.
  apply m_bind_inv in Hrun as [(think & h0 & _ & Hrun)|(e & _ & [=])].
  apply m_bind_inv in Hrun as [(actions & h1 & _ & Hrun)|(e & _ & [=])].
  destruct (negb (tree_truthy actions)).
  { apply m_ret_inv in Hrun as [[= ->] ->]. left. by eexists. }
  apply m_bind_inv in Hrun as [(items & h2 & _ & Hrun)|(e & _ & [=])].
  apply m_bind_inv in Hrun as [(sole & h3 & _ & Hrun)|(e & _ & [=])].
  destruct sole as [first|].
  - apply m_bind_inv in Hrun as [(gi & h4 & _ & Hrun)|(e & _ & [=])].
    apply m_bind_inv in Hrun as [(gr & h5 & _ & Hrun)|(e & _ & [=])].
    apply m_bind_inv in Hrun as [(g & h6 & _ & Hrun)|(e & _ & [=])].
    apply m_ret_inv in Hrun as [[= ->] ->]. right. left. by eexists _, _.
  - apply m_bind_inv in Hrun as [(st & h4 & _ & Hrun)|(e & _ & [=])].
    apply m_ret_inv in Hrun as [[= ->] ->]. right. right. by eexists _, _.
Qed.

Lemma dispatcher_update_keeps s u :
  dispatcher_update u →
  chunks (apply_update s u) = chunks s
  ∧ current_chunk_idx (apply_update s u) = current_chunk_idx s
  ∧ iteration_count (apply_update s u) = iteration_count s
  ∧ max_iterations (apply_update s u) = max_iterations s
  ∧ messages (apply_update s u) = messages s
  ∧ text (apply_update s u) = text s
  ∧ (error_set s = true → error_set (apply_update s u) = true).
Proof.
  destruct s as [t ts mi ch idx cc jd g ms ar fin it err].
  intros [(e & -> & He)|[(g' & rs & ->)|(d & rs & ->)]]; cbn; split_and!; try done.
  intros _. unfold error_set. cbn. by apply negb_true_iff, bool_decide_eq_false.
Qed.

End turns.

(** X13: whatever the reply of the model is, a turn of the dispatcher that
    returns sets an error, or the guidance with the finalization flag and
    the results, or the document and the results, and nothing else: the
    chunks, the index of the chunk, the iteration count, the cap, the
    messages and the text stay as they are, and an error that is set
    stays set. *)
Theorem dispatcher_touches_no_counter `{PyRuntime} `{Collaborators} (state : AgentState)
    (h : heap) (u : list assign) (h' : heap) :
  execute_tools_node state h = Some (Ok u, h') →
  dispatcher_update u
  ∧ chunks (apply_update state u) = chunks state
  ∧ current_chunk_idx (apply_update state u) = current_chunk_idx state
  ∧ iteration_count (apply_update state u) = iteration_count state
  ∧ max_iterations (apply_update state u) = max_iterations state
  ∧ messages (apply_update state u) = messages state
  ∧ text (apply_update state u) = text state
  ∧ (error_set state = true → error_set (apply_update state u) = true).
Proof.
  intros Hrun. pose proof (execute_tools_node_update _ _ _ _ Hrun) as Hu.
  split; [done|]. by apply dispatcher_update_keeps.
Qed.

(** * Replies that cannot be read *)

(** X14: when the messages hold no reply of the model, or when the last
    reply is not JSON, the dispatcher sets an error that says so, and the
    run reaches its end in three steps with that error, the same
    document and no further model call. *)
Theorem unreadable_reply_halts_run `{PyRuntime} `{Collaborators} (state : AgentState)
    (calls : nat) (h : heap) :
  last_ai_message (messages state) = None
  ∨ (∃ content e, last_ai_message (messages state) = Some content
                  ∧ json_loads content = inr e) →
  (0 <= current_chunk_idx state)%Z →
  ∃ message final,
    execute_tools_node state h = Some (Ok [SetError message], h)
    ∧ match last_ai_message (messages state) with
      | None => message = "No LLM response found."
      | Some content =>
          ∃ e, json_loads content = inr e
               ∧ message = "Error parsing LLM response: " ++ e
      end
    ∧ graph_steps 3 {| at_node := ExecuteTools; state_of := state; llm_calls := calls |} h
        = Some (Ok final, h)
    ∧ at_node final = END
    ∧ error (state_of final) = Some message
    ∧ json_document (state_of final) = json_document state
    ∧ llm_calls final = calls
    ∧ ∀ fuel, (3 <= fuel)%nat →
        invoke fuel {| at_node := ExecuteTools; state_of := state; llm_calls := calls |} h
          = Some (Ok final, h).
Proof.
  intros Hreply Hidx.
  assert (Hnode : ∃ message,
    execute_tools_node state h = Some (Ok [SetError message], h)
    ∧ message ≠ ""
    ∧ match last_ai_message (messages state) with
      | None => message = "No LLM response found."
      | Some content =>
          ∃ e, json_loads content = inr e
               ∧ message = "Error parsing LLM response: " ++ e
      end).
  { unfold execute_tools_node.
    destruct Hreply as [-> |(content & e & -> & Hparse)].
    - by eexists.
    - rewrite Hparse. eexists. split; [done|]. split; [done|]. by exists e. }
  destruct Hnode as (message & Hnode & Hne & Hmsg).
  set (s1 := apply_update state [SetError message]).
  assert (Herr1 : error_set s1 = true).
  { unfold error_set, s1. cbn. by apply negb_true_iff, bool_decide_eq_false. }
  destruct (error_ends_run s1 calls h Herr1)
    as (final & Hrun & Hend & Herr & Hdoc & _ & Hcalls); [done|].
  assert (H3 : graph_steps 3 {| at_node := ExecuteTools; state_of := state;
                                 llm_calls := calls |} h = Some (Ok final, h)).
  { rewrite (graph_steps_step _ _ _ _ _ (graph_step_execute_tools _ calls _ _ _ Hnode)).
    fold s1. assert (is_chunk_done s1 = FinalizeChunk) as ->; [|exact Hrun].
    unfold is_chunk_done. rewrite Herr1. by repeat case_match. }
  exists message, final. split_and!; try done.
  intros fuel Hfuel. by eapply invoke_steps.
Qed.

(** * The length of a run *)

Section runs.
Context `{PyRuntime} `{Collaborators}.

Lemma calls_per_chunk_Z N : Z.of_nat (calls_per_chunk N) = Z.max 1 N.
Proof. unfold calls_per_chunk. lia. Qed.

Lemma prepare_chunk_fields s h u h1 :
  (0 <= current_chunk_idx s)%Z →
  prepare_chunk_node s h = Some (Ok u, h1) →
  chunks (apply_update s u) = chunks s
  ∧ current_chunk_idx (apply_update s u) = current_chunk_idx s
  ∧ max_iterations (apply_update s u) = max_iterations s
  ∧ ((current_chunk_idx s < list_len (chunks s))%Z →
     iteration_count (apply_update s u) = 0%Z).
Proof.
  intros Hidx. unfold prepare_chunk_node.
  destruct (Z.leb_spec (list_len (chunks s)) (current_chunk_idx s)) as [Hle|Hlt].
  - intros [= <- <-]. destruct s. cbn in *. split_and!; try done. lia.
  - destruct (py_index (chunks s) (current_chunk_idx s)); [|done].
    unfold mbind, M_bind, mret, M_ret, m_read, E_ret. intros [= <- <-].
    by destruct s.
Qed.

Lemma prepare_chunk_returns s h :
  (0 <= current_chunk_idx s)%Z →
  ∃ u, prepare_chunk_node s h = Some (Ok u, h).
Proof.
  intros Hidx. unfold prepare_chunk_node.
  destruct (Z.leb_spec (list_len (chunks s)) (current_chunk_idx s)) as [Hle|Hlt].
  - by eexists.
  - destruct (prepare_chunk_resets s h) as (u & Hu & _); [lia|].
    unfold prepare_chunk_node in Hu.
    destruct (Z.leb_spec (list_len (chunks s)) (current_chunk_idx s)); [lia|].
    by exists u.
Qed.

Lemma call_llm_fields k s h u h1 :
  call_llm_node k s h = Some (Ok u, h1) →
  chunks (apply_update s u) = chunks s
  ∧ current_chunk_idx (apply_update s u) = current_chunk_idx s
  ∧ max_iterations (apply_update s u) = max_iterations s
  ∧ iteration_count (apply_update s u) = (iteration_count s + 1)%Z.
Proof.
  unfold call_llm_node. unfold mbind, M_bind, mret, M_ret, m_read, E_ret.
  intros [= <- <-]. by destruct s.
Qed.

Lemma finalize_chunk_fields s :
  chunks (apply_update s (finalize_chunk_node s)) = chunks s
  ∧ current_chunk_idx (apply_update s (finalize_chunk_node s))
    = (current_chunk_idx s + 1)%Z
  ∧ max_iterations (apply_update s (finalize_chunk_node s)) = max_iterations s.
Proof. by destruct s. Qed.

(** A step of the graph keeps what a run keeps, and unless the run is
    over it uses up one of the steps that are left. *)
Lemma graph_step_inv cs N c h c' h' :
  run_inv cs N c → graph_step c h = Some (Ok c', h') →
  run_inv cs N c'
  ∧ (at_node c ≠ END → (steps_left cs N c' < steps_left cs N c)%nat).
Proof.
  destruct c as [nd s calls]. unfold run_inv, steps_left, graph_step.
  cbn [at_node state_of llm_calls]. rewrite !calls_per_chunk_Z.
  set (n := Z.max 1 N). assert (Hn : (1 <= n)%Z) by lia.
  assert (HnN : (N <= n)%Z) by lia. clearbody n.
  intros (Hcs & HN & Hidx & Hnode) Hstep. destruct nd; [done| | | | |].
  - (* prepare_chunk *)
    apply m_bind_inv in Hstep as [(u & h1 & Hprep & Hstep)|(e & _ & [=])].
    apply m_ret_inv in Hstep as [[= ->] ->]. cbn [at_node state_of llm_calls].
    destruct (prepare_chunk_fields _ _ _ _ Hidx Hprep) as (Hc & Hi & Hm & Hit).
    rewrite Hc, Hi, Hm. rewrite Hcs in Hit. destruct Hnode as [Hle Hcalls].
    unfold has_more_chunks. rewrite Hc, Hi, Hcs.
    destruct (error_set (apply_update s u)).
    + split; [|intros _; nia]. split_and!; try done. nia.
    + destruct (Z.ltb_spec (current_chunk_idx s) (list_len cs)) as [Hlt|Hge].
      * rewrite (Hit Hlt). split; [|intros _; nia]. split_and!; try done; lia.
      * split; [|intros _; nia]. split_and!; try done. nia.
  - (* call_llm *)
    apply m_bind_inv in Hstep as [(u & h1 & Hcall & Hstep)|(e & _ & [=])].
    apply m_ret_inv in Hstep as [[= ->] ->]. cbn [at_node state_of llm_calls].
    destruct (call_llm_fields _ _ _ _ _ Hcall) as (Hc & Hi & Hm & Hit).
    rewrite Hc, Hi, Hm, Hit. destruct Hnode as (Hlt & Hcount & Hcalls).
    split; [|intros _; nia]. split_and!; try done; lia.
  - (* execute_tools *)
    apply m_bind_inv in Hstep as [(u & h1 & Hexec & Hstep)|(e & _ & [=])].
    apply m_ret_inv in Hstep as [[= ->] ->]. cbn [at_node state_of llm_calls].
    pose proof (execute_tools_node_update _ _ _ _ Hexec) as Hu.
    destruct (dispatcher_update_keeps s u Hu) as (Hc & Hi & Hit & Hm & _).
    rewrite Hc, Hi, Hm, Hit. destruct Hnode as (Hlt & Hcount & Hcalls).
    unfold is_chunk_done. rewrite Hm, Hit, HN.
    destruct (is_chunk_finalized (apply_update s u)).
    { split; [|intros _; nia]. split_and!; try done. nia. }
    destruct (Z.leb_spec N (iteration_count s)).
    { split; [|intros _; nia]. split_and!; try done. nia. }
    destruct (error_set (apply_update s u)).
    { split; [|intros _; nia]. split_and!; try done. nia. }
    split; [|intros _; nia]. split_and!; try done; lia.
  - (* finalize_chunk *)
    apply m_ret_inv in Hstep as [[= ->] ->]. cbn [at_node state_of llm_calls].
    cbn. destruct Hnode as (Hlt & Hcalls).
    split; [|intros _; nia]. split_and!; try done; lia.
  - (* the end *)
    apply m_ret_inv in Hstep as [[= ->] ->]. by split.
Qed.

(** A run that returns has reached the end and kept what a run keeps. *)
Lemma invoke_inv cs N fuel : ∀ c h final h',
  run_inv cs N c → invoke fuel c h = Some (Ok final, h') →
  run_inv cs N final ∧ at_node final = END.
Proof.
  induction fuel as [|fuel IH]; intros c h final h' Hinv Hrun.
  - cbn in Hrun. destruct (at_node c) eqn:Hn; try done.
    injection Hrun as <- <-. by split.
  - destruct (decide (at_node c = END)) as [Hend|Hne].
    { cbn in Hrun. rewrite Hend in Hrun. injection Hrun as <- <-. by split. }
    assert (Hunf : invoke (Datatypes.S fuel) c h
                   = (c1 ← graph_step c; invoke fuel c1) h).
    { cbn. by destruct (at_node c). }
    rewrite Hunf in Hrun.
    apply m_bind_inv in Hrun as [(c1 & h1 & Hstep & Hrun)|(e & _ & [=])].
    destruct (graph_step_inv _ _ _ _ _ _ Hinv Hstep) as [Hinv1 _].
    by eapply IH.
Qed.

(** The step of [chunk_text] opens a run on the chunks of the text. *)
Lemma chunk_text_step c h c' h' :
  at_node c = ChunkText → llm_calls c = 0%nat →
  graph_step c h = Some (Ok c', h') →
  run_inv (chunks_of (text (state_of c))) (max_iterations (state_of c)) c'
  ∧ at_node c' = PrepareChunk
  ∧ current_chunk_idx (state_of c') = 0%Z.
Proof.
  destruct c as [nd s calls]. cbn [at_node state_of llm_calls]. intros -> ->.
  unfold graph_step, chunk_text_node, chunks_of, run_inv.
  cbn [at_node state_of llm_calls].
  destruct (decide (text s = "")) as [Htext|Htext]; intros Hstep;
    apply m_bind_inv in Hstep as [(u & h1 & Hnode & Hstep)|(e & _ & [=])];
    apply m_bind_inv in Hnode as [(d & h2 & _ & Hnode)|(e & _ & [=])];
    apply m_ret_inv in Hnode as [[= ->] ->];
    apply m_ret_inv in Hstep as [[= ->] ->];
    destruct s; cbn; split_and!; try done; unfold list_len; lia.
Qed.

Lemma chunk_text_returns c h :
  at_node c = ChunkText → ∃ c' h', graph_step c h = Some (Ok c', h').
Proof.
  destruct c as [nd s calls]. cbn [at_node]. intros ->.
  unfold graph_step, chunk_text_node. cbn [at_node state_of llm_calls].
  destruct (decide (text s = "")); by eexists _, _.
Qed.

(** With as much fuel as there are steps left, [invoke] reaches the end,
    provided the dispatcher returns. *)
Lemma invoke_returns cs N fuel : ∀ c h,
  (∀ s hh, ∃ u hh', execute_tools_node s hh = Some (Ok u, hh')) →
  run_inv cs N c → (steps_left cs N c <= fuel)%nat →
  ∃ final h', invoke fuel c h = Some (Ok final, h') ∧ at_node final = END.
Proof.
  induction fuel as [|fuel IH]; intros c h Htools Hinv Hleft.
  - destruct (decide (at_node c = END)) as [Hend|Hne].
    { exists c, h. cbn. by rewrite Hend. }
    exfalso. destruct c as [nd s calls]. revert Hinv Hleft.
    unfold run_inv, steps_left. cbn [at_node state_of llm_calls] in *.
    rewrite !calls_per_chunk_Z. intros (_ & _ & Hidx & Hn).
    destruct nd; try done; nia.
  - destruct (decide (at_node c = END)) as [Hend|Hne].
    { exists c, h. cbn. by rewrite Hend. }
    assert (Hunf : invoke (Datatypes.S fuel) c h
                   = (c1 ← graph_step c; invoke fuel c1) h).
    { cbn. by destruct (at_node c). }
    assert (Hstep : ∃ c1 h1, graph_step c h = Some (Ok c1, h1)).
    { destruct c as [nd s calls]. unfold graph_step.
      cbn [at_node state_of llm_calls] in *.
      destruct Hinv as (_ & _ & Hidx & Hn). cbn [state_of] in Hidx.
      destruct nd; try done.
      - destruct (prepare_chunk_returns s h Hidx) as (u & Hu).
        unfold mbind, M_bind. rewrite Hu. by eexists _, _.
      - destruct (call_llm_counts calls s h) as (u & Hu & _).
        unfold mbind, M_bind. rewrite Hu. by eexists _, _.
      - destruct (Htools s h) as (u & h1 & Hu).
        unfold mbind, M_bind. rewrite Hu. by eexists _, _.
      - by eexists _, _. }
    destruct Hstep as (c1 & h1 & Hstep).
    destruct (graph_step_inv _ _ _ _ _ _ Hinv Hstep) as [Hinv1 Hless].
    specialize (Hless Hne).
    destruct (IH c1 h1 Htools Hinv1) as (final & h' & Hrun & Hend); [lia|].
    exists final, h'. split; [|done]. rewrite Hunf.
    unfold mbind, M_bind. by rewrite Hstep.
Qed.

End runs.

(** X15: a run that returns has made, for each chunk of the text, no more
    model calls than one chunk can get: at most [max 1 max_iterations]
    times the number of chunks in all. *)
Theorem run_model_calls_bound `{PyRuntime} `{Collaborators} (c : config) (h : heap)
    (fuel : nat) (final : config) (h' : heap) :
  at_node c = ChunkText →
  llm_calls c = 0%nat →
  invoke fuel c h = Some (Ok final, h') →
  at_node final = END
  ∧ chunks (state_of final) = chunks_of (text (state_of c))
  ∧ (llm_calls final
     <= length (chunks_of (text (state_of c)))
        * calls_per_chunk (max_iterations (state_of c)))%nat.
Proof.
  intros Hnode Hcalls Hrun. destruct fuel as [|fuel].
  { cbn in Hrun. by rewrite Hnode in Hrun. }
  assert (Hunf : invoke (Datatypes.S fuel) c h = (c1 ← graph_step c; invoke fuel c1) h).
  { cbn. by rewrite Hnode. }
  rewrite Hunf in Hrun.
  apply m_bind_inv in Hrun as [(c1 & h1 & Hstep & Hrun)|(e & _ & [=])].
  destruct (chunk_text_step _ _ _ _ Hnode Hcalls Hstep) as (Hinv & _ & _).
  destruct (invoke_inv _ _ _ _ _ _ _ Hinv Hrun) as [(Hcs & _ & _ & Hend) Hn].
  rewrite Hn in Hend. split_and!; [done..|]. unfold list_len in Hend. nia.
Qed.


(** * A text with no chunk *)

(** X17: on the empty text, and on a text the chunker cuts into no chunk,
    [extract] returns after [chunk_text] and one [prepare_chunk]: the
    document is a new empty dict, the guidance is empty, no chunk is
    counted, and the error is the one of [chunk_text_node] for the empty
    text and absent otherwise. *)
Theorem extract_without_chunks `{PyRuntime} `{Collaborators} (fuel : nat) (input : string)
    (schema : option tree) (max_iterations_per_chunk : Z) (h : heap) :
  (2 <= fuel)%nat →
  chunks_of input = [] →
  ∃ d h',
    extract fuel input schema max_iterations_per_chunk h =
      Some (Ok {| result_json_document := VRef d; total_chunks := 0;
                  final_guidance := TDict [];
                  result_error :=
                    if decide (input = "")
                    then Some "No text provided for processing." else None |}, h')
    ∧ h' !! d = Some (ODict [])
    ∧ d ∉ dom h.
Proof.
  intros Hfuel Hchunks. destruct fuel as [|[|fuel]]; [lia..|].
  unfold chunks_of in Hchunks. unfold extract.
  set (h0 := <[fresh (dom h) := ODict []]> h).
  set (d := fresh (dom h0)).
  exists d, (<[d := ODict []]> h0). split; [|split].
  - unfold mbind at 1, M_bind at 1, m_alloc at 1. fold h0.
    cbn [invoke at_node graph_step state_of llm_calls].
    unfold chunk_text_node. cbn [text].
    destruct (decide (input = "")) as [->|Hne].
    + unfold mbind, M_bind, m_alloc, mret, M_ret. fold h0. fold d.
      cbn. unfold has_more_chunks, error_set. cbn. destruct fuel; reflexivity.
    + rewrite Hchunks.
      unfold mbind, M_bind, m_alloc, mret, M_ret. fold h0. fold d.
      cbn. unfold has_more_chunks, error_set. cbn. destruct fuel; reflexivity.
  - apply lookup_insert_eq.
  - intros Hd. pose proof (is_fresh (dom h0)) as Hfresh. fold d in Hfresh.
    apply Hfresh. unfold h0. rewrite dom_insert. set_solver.
Qed.

(** * The pointers of a search *)

(** ** Indices in decimal *)

Module DecimalFacts.
Import PointerCodecFacts PointerFacts.

Lemma digit_of_char x :
  (x < 10)%N → jsonpointer.digit_of (pretty_N_char x) = Some (N.to_nat x).
Proof.
  intros Hx.
  assert (x = 0 ∨ x = 1 ∨ x = 2 ∨ x = 3 ∨ x = 4 ∨ x = 5 ∨ x = 6 ∨ x = 7 ∨ x = 8 ∨ x = 9)%N
    as Hc by lia.
  repeat (destruct Hc as [->|Hc]; [reflexivity|]). by subst.
Qed.

Lemma char_not c x :
  jsonpointer.digit_of c = None → (x < 10)%N → Ascii.eqb c (pretty_N_char x) = false.
Proof.
  intros Hc Hx. destruct (Ascii.eqb c (pretty_N_char x)) eqn:E; [|done].
  apply Ascii.eqb_eq in E as ->. by rewrite digit_of_char in Hc.
Qed.

(** Reading the digits written for [x] gives [x] back. *)
Lemma parse_digits_go x : ∀ acc s,
  ∃ k, jsonpointer.parse_digits acc (pretty_N_go x s)
       = jsonpointer.parse_digits (acc * 10 ^ k + N.to_nat x) s.
Proof.
  induction (N.lt_wf_0 x) as [x _ IH]. intros acc s.
  assert (x = 0 ∨ 0 < x)%N as [->|Hpos] by lia.
  - exists 0%nat. rewrite pretty_N_go_0. f_equal. cbn. lia.
  - rewrite pretty_N_go_step by done.
    destruct (IH (x `div` 10)%N (N.div_lt x 10 Hpos eq_refl) acc
                (String (pretty_N_char (x `mod` 10)) s)) as (k & ->).
    exists (Datatypes.S k). cbn [jsonpointer.parse_digits].
    rewrite digit_of_char by (apply N.mod_lt; lia). f_equal.
    pose proof (N.div_mod x 10 ltac:(lia)) as Hdm.
    rewrite Nat.pow_succ_r'. lia.
Qed.

(** A number that is not [0] starts with a digit that is not [0]. *)
Lemma pretty_go_head x : ∀ s,
  (0 < x)%N →
  ∃ c r, pretty_N_go x s = String c r ∧ Ascii.eqb c "0" = false
         ∧ jsonpointer.digit_of c ≠ None.
Proof.
  induction (N.lt_wf_0 x) as [x _ IH]. intros s Hpos.
  rewrite pretty_N_go_step by done.
  destruct (N.eq_0_gt_0_cases (x `div` 10)) as [Hz|Hq].
  - rewrite Hz, pretty_N_go_0. eexists _, _. split; [done|].
    assert (Hx : (x < 10)%N) by (apply N.div_small_iff in Hz; lia).
    rewrite N.mod_small by done.
    assert (x = 1 ∨ x = 2 ∨ x = 3 ∨ x = 4 ∨ x = 5 ∨ x = 6 ∨ x = 7 ∨ x = 8 ∨ x = 9)%N
      as Hc by lia.
    repeat (destruct Hc as [->|Hc]; [by split|]). by subst.
  - apply IH; [|done]. by apply N.div_lt.
Qed.

(** A character that is no digit is not in the digits written. *)
Lemma pretty_go_has_char c x : ∀ s,
  jsonpointer.digit_of c = None → has_char c (pretty_N_go x s) = has_char c s.
Proof.
  induction (N.lt_wf_0 x) as [x _ IH]. intros s Hc.
  assert (x = 0 ∨ 0 < x)%N as [->|Hpos] by lia; [by rewrite pretty_N_go_0|].
  rewrite pretty_N_go_step by done.
  rewrite IH by (done || by apply N.div_lt). cbn [has_char].
  by rewrite char_not by (done || apply N.mod_lt; lia).
Qed.

Lemma pretty_nat_has_char c (n : nat) :
  jsonpointer.digit_of c = None → has_char c (pretty n) = false.
Proof.
  intros Hc. unfold pretty, pretty_nat, pretty, pretty_N. case_decide.
  - cbn [has_char]. change "0"%char with (pretty_N_char 0).
    by rewrite char_not.
  - by rewrite pretty_go_has_char.
Qed.

Lemma parse_index_pretty (n : nat) : jsonpointer.parse_index (pretty n) = Some n.
Proof.
  unfold pretty, pretty_nat, pretty, pretty_N. case_decide as Hn.
  - assert (n = 0%nat) as -> by lia. done.
  - destruct (pretty_go_head (N.of_nat n) "" ltac:(lia)) as (c & r & Hs & Hc & _).
    unfold jsonpointer.parse_index. rewrite Hs, Hc. rewrite <- Hs.
    destruct (parse_digits_go (N.of_nat n) 0 "") as (k & ->).
    cbn. f_equal. lia.
Qed.

Lemma pretty_nat_not_dash (n : nat) : pretty n ≠ "-".
Proof.
  intros Hd. pose proof (pretty_nat_has_char "-" n eq_refl) as Hc.
  by rewrite Hd in Hc.
Qed.

Lemma seq_part_pretty (n : nat) :
  jsonpointer.seq_part (pretty n) = Some (Ok (jsonpointer.PIndex n)).
Proof.
  unfold jsonpointer.seq_part. rewrite decide_False by apply pretty_nat_not_dash.
  by rewrite parse_index_pretty.
Qed.

(** A text with no [~] and no [/] is its own encoding. *)
Lemma encode_plain s :
  has_char "~" s = false → has_char "/" s = false → encode_pointer_token s = s.
Proof.
  rewrite encode_expand_chars. induction s as [|c r IH]; [done|].
  cbn [has_char expand_chars]. intros [H1 H2]%orb_false_iff [H3 H4]%orb_false_iff.
  unfold escape_char at 1. rewrite (Ascii.eqb_sym c "~"), H1, (Ascii.eqb_sym c "/"), H3.
  rewrite append_cons, append_nil. f_equal. by apply IH.
Qed.

Lemma encode_pretty (n : nat) : encode_pointer_token (pretty n) = pretty n.
Proof. apply encode_plain; by apply pretty_nat_has_char. Qed.

End DecimalFacts.

(** ** Where a search has been *)

Section reaches.
Context (h : heap) (document : val).
Import PointerFacts DecimalFacts.

Lemma resolve_snoc parts : ∀ doc obj p,
  jsonpointer.resolve h doc parts = Some (Ok obj) →
  jsonpointer.resolve h doc (parts ++ [p]) = jsonpointer.walk h obj p.
Proof.
  induction parts as [|p0 rest IH]; intros doc obj p Hr.
  - cbn in Hr. injection Hr as ->. cbn.
    by destruct (jsonpointer.walk h obj p) as [[?|?]|].
  - cbn in Hr |- *. destruct (jsonpointer.walk h doc p0) as [[d|e]|]; cbn in Hr |- *;
      [|done..]. by apply IH.
Qed.

Lemma reaches_root : pointer_reaches h document "" [] document.
Proof. by split. Qed.

Lemma reaches_resolve_pointer path parts obj :
  pointer_reaches h document path parts obj →
  jsonpointer.resolve_pointer h document path = Some (Ok obj).
Proof. intros [Hp Hr]. unfold jsonpointer.resolve_pointer. by rewrite Hp. Qed.

Lemma JsonPointer_token path parts token :
  jsonpointer.JsonPointer path = Ok parts →
  jsonpointer.JsonPointer (path ++ "/" ++ _escape_pointer_token token)
  = Ok (parts ++ [token])%list.
Proof.
  intros Hp. rewrite <- (JsonPointer_join_pointer path token parts Hp). f_equal.
  unfold join_pointer. case_decide as He; [by subst|done].
Qed.

Lemma reaches_member path parts l kvs key value :
  pointer_reaches h document path parts (VRef l) →
  h !! l = Some (ODict kvs) → dict_get key kvs = Some value →
  pointer_reaches h document (path ++ "/" ++ _escape_pointer_token key)
    (parts ++ [key]) value.
Proof.
  intros [Hp Hr] Hl Hget. split; [by apply JsonPointer_token|].
  rewrite (resolve_snoc _ _ _ _ Hr). unfold jsonpointer.walk. cbn. by rewrite Hl, Hget.
Qed.

Lemma reaches_item path parts l xs idx item :
  pointer_reaches h document path parts (VRef l) →
  h !! l = Some (OList xs) → xs !! idx = Some item →
  pointer_reaches h document (path ++ "/" ++ pretty idx) (parts ++ [pretty idx]) item.
Proof.
  intros [Hp Hr] Hl Hget. split.
  - rewrite <- (encode_pretty idx) at 1. by apply JsonPointer_token.
  - rewrite (resolve_snoc _ _ _ _ Hr). unfold jsonpointer.walk. cbn.
    rewrite Hl, seq_part_pretty. cbn. by rewrite Hget.
Qed.

(** With distinct keys, every member of a dict is what its key gives. *)
Lemma dict_get_members kvs :
  NoDup kvs.*1 → Forall (λ kv, dict_get kv.1 kvs = Some kv.2) kvs.
Proof.
  induction kvs as [|[k v] r IH]; [constructor|].
  cbn. intros [Hk Hr]%NoDup_cons. constructor.
  - cbn. by rewrite decide_True.
  - specialize (IH Hr). rewrite Forall_forall in IH |- *.
    intros [k' v'] Hin. specialize (IH _ Hin). cbn in *.
    rewrite decide_False; [done|].
    intros ->. apply Hk. apply list_elem_of_fmap. by exists (k, v').
Qed.

End reaches.

(** ** Every match is right *)

Section soundness.
Context `{PyRuntime} (h : heap) (document : val).
Variables (query search_type : string) (fuzzy : bool) (limit max_value_length : Z).
Hypothesis Hkeys : unique_keys h = true.

#[local] Abbreviation sound := (sound_match h document query search_type fuzzy max_value_length).

Lemma unique_keys_lookup l kvs : h !! l = Some (ODict kvs) → NoDup kvs.*1.
Proof.
  intros Hl. apply bool_decide_eq_true in Hkeys. by apply (Hkeys l (ODict kvs)).
Qed.

Lemma dict_item_match_sound new_path parts key value matches matches' :
  pointer_reaches h document new_path (parts ++ [key]) value →
  Forall sound matches →
  dict_item_match h query search_type fuzzy max_value_length new_path key value matches
  = Some matches' →
  Forall sound matches'.
Proof.
  intros Hreach Hm. unfold dict_item_match. case_decide as Hty.
  - destruct (_matches key query fuzzy) eqn:Hmatch; [|by intros [= <-]].
    destruct (_preview_value h value max_value_length) as [preview|] eqn:Hpre; [|done].
    cbn. intros [= <-]. apply Forall_app. split; [done|]. constructor; [|done].
    exists value. split; [by eapply reaches_resolve_pointer|].
    split_and!; [done..| |done]. exists parts. apply Hreach.
  - destruct (is_compound h value) as [c|] eqn:Hc; [|done]. cbn.
    destruct (bool_decide (search_type = "value") && negb c) eqn:Hv; [|by intros [= <-]].
    apply andb_true_iff in Hv as [Hv%bool_decide_eq_true Hn%negb_true_iff]. subst c.
    destruct (_matches (py_str h value) query fuzzy) eqn:Hmatch; [|by intros [= <-]].
    intros [= <-]. apply Forall_app. split; [done|]. constructor; [|done].
    exists value. split; [by eapply reaches_resolve_pointer|]. done.
Qed.

Lemma list_item_match_sound new_path parts item matches matches' :
  pointer_reaches h document new_path parts item →
  Forall sound matches →
  list_item_match h query search_type fuzzy max_value_length new_path item matches
  = Some matches' →
  Forall sound matches'.
Proof.
  intros Hreach Hm. unfold list_item_match.
  destruct (is_compound h item) as [c|] eqn:Hc; [|done]. cbn.
  destruct (bool_decide (search_type = "value") && negb c) eqn:Hv; [|by intros [= <-]].
  apply andb_true_iff in Hv as [Hv%bool_decide_eq_true Hn%negb_true_iff]. subst c.
  destruct (_matches (py_str h item) query fuzzy) eqn:Hmatch; [|by intros [= <-]].
  intros [= <-]. apply Forall_app. split; [done|]. constructor; [|done].
  exists item. split; [by eapply reaches_resolve_pointer|]. done.
Qed.

Section loops.
Variable recur : val → string → search_state → option (bool * search_state).
Hypothesis recur_sound : ∀ obj path parts st b st',
  pointer_reaches h document path parts obj → Forall sound st.1 →
  recur obj path st = Some (b, st') → Forall sound st'.1.
Variables (current_path : string) (parts : list string) (l : loc).
Hypothesis Hhere : pointer_reaches h document current_path parts (VRef l).

Lemma search_dict_items_sound all kvs : ∀ st b st',
  h !! l = Some (ODict all) →
  Forall (λ kv, dict_get kv.1 all = Some kv.2) kvs →
  Forall sound st.1 →
  search_dict_items h query search_type fuzzy limit max_value_length
    recur current_path kvs st = Some (b, st') →
  Forall sound st'.1.
Proof.
  induction kvs as [|[key value] rest IH]; intros st b st' Hl Hget Hst.
  { cbn. by intros [= _ <-]. }
  apply Forall_cons in Hget as [Hkey Hrest]. cbn in Hkey.
  cbn [search_dict_items]. case_match; [by intros [= _ <-]|].
  pose proof (reaches_member _ _ _ _ _ _ _ _ Hhere Hl Hkey) as Hreach.
  destruct (dict_item_match _ _ _ _ _ _ _ _ _) as [matches|] eqn:Hitem; [|done].
  pose proof (dict_item_match_sound _ _ _ _ _ _ Hreach Hst Hitem) as Hm.
  cbn. destruct (is_compound h value) as [[|]|]; cbn; [| |done].
  - destruct (recur _ _ _) as [[b1 st1]|] eqn:Hrec; [|done]. cbn.
    pose proof (recur_sound _ _ _ (matches, st.2) _ _ Hreach Hm Hrec) as H1.
    destruct b1; [by intros [= _ <-]|]. by apply IH.
  - by apply IH.
Qed.

Lemma search_list_items_sound all xs : ∀ idx st b st',
  h !! l = Some (OList all) →
  (∀ i item, xs !! i = Some item → all !! (idx + i)%nat = Some item) →
  Forall sound st.1 →
  search_list_items h query search_type fuzzy limit max_value_length
    recur current_path idx xs st = Some (b, st') →
  Forall sound st'.1.
Proof.
  induction xs as [|item rest IH]; intros idx st b st' Hl Hget Hst.
  { cbn. by intros [= _ <-]. }
  cbn [search_list_items]. case_match; [by intros [= _ <-]|].
  assert (Hidx : all !! idx = Some item).
  { rewrite <- (Hget 0%nat item eq_refl). f_equal. lia. }
  assert (Hnext : ∀ i x, rest !! i = Some x → all !! (Datatypes.S idx + i)%nat = Some x).
  { intros i x Hi. rewrite <- (Hget (Datatypes.S i) x Hi). f_equal. lia. }
  pose proof (reaches_item _ _ _ _ _ _ _ _ Hhere Hl Hidx) as Hreach.
  destruct (list_item_match _ _ _ _ _ _ _ _) as [matches|] eqn:Hitem; [|done].
  pose proof (list_item_match_sound _ _ _ _ _ Hreach Hst Hitem) as Hm.
  cbn. destruct (is_compound h item) as [[|]|]; cbn; [| |done].
  - destruct (recur _ _ _) as [[b1 st1]|] eqn:Hrec; [|done]. cbn.
    pose proof (recur_sound _ _ _ (matches, st.2) _ _ Hreach Hm Hrec) as H1.
    destruct b1; [by intros [= _ <-]|]. by apply IH.
  - by apply IH.
Qed.

End loops.

Lemma search_recursive_sound fuel : ∀ obj path parts st b st',
  pointer_reaches h document path parts obj → Forall sound st.1 →
  _search_recursive h query search_type fuzzy limit max_value_length
    fuel obj path st = Some (b, st') →
  Forall sound st'.1.
Proof.
  induction fuel as [|fuel IH]; intros obj path parts st b st' Hreach Hst.
  - cbn. case_match; [by intros [= _ <-]|].
    destruct obj; try by intros [= _ <-].
    case_decide; [by intros [= _ <-]|]. by destruct (h !! l) as [[]|].
  - cbn [_search_recursive]. case_match; [by intros [= _ <-]|].
    destruct obj; try by intros [= _ <-].
    case_decide; [by intros [= _ <-]|].
    destruct (h !! l) as [[kvs|xs]|] eqn:Hl; [| |done].
    + eapply search_dict_items_sound; eauto.
      apply dict_get_members. by eapply unique_keys_lookup.
    + eapply search_list_items_sound; eauto.
Qed.

End soundness.

(** X18: every match of a search is right. In a store whose dicts have
    distinct keys, the pointer of each match [search_pointer] returns
    resolves in the document, through [jsonpointer], to a value. For a
    match on a key, the search was for keys, the key matches the query
    and is the last token of the pointer, and the preview is that of the
    value; for a match on a value, the search was for values, the value
    is no dict and no list, its text matches the query, and the text
    recorded is its first [max_value_length] characters. *)
Theorem search_pointer_matches_resolve `{PyRuntime} (h : heap) (document : val)
    (query search_type : string) (fuzzy_match : bool) (limit max_value_length : Z)
    (result : search_result) :
  unique_keys h = true →
  search_pointer h document query search_type fuzzy_match limit max_value_length
  = Some result →
  Forall (sound_match h document query search_type fuzzy_match max_value_length)
    (sr_matches result).
Proof.
  intros Hkeys. unfold search_pointer.
  destruct (_search_recursive _ _ _ _ _ _ _ _ _ _) as [[b st]|] eqn:Hrun; [|done].
  cbn. intros [= <-]. cbn.
  eapply (search_recursive_sound h document _ _ _ _ _ Hkeys _ _ _ _ ([], ∅) b st);
    [apply reaches_root|constructor|exact Hrun].
Qed.

(** * The theorems at concrete stores and turns *)

(** C1 at the reply [{"actions": [{"action": "update_guidance", "input":
    {"pending_action": "expect_total"}}]}]: the turn installs the
    guidance and sets the flag. *)
Lemma finalization_gate_witness :
  @execute_tools_node Examples.runtime Examples.collaborators
    (Examples.state_after Examples.finalize_text 2) Examples.empty_document
  = Some (Ok [SetGuidance
                (guidance_of (Leaf (VStr "")) (Leaf (VStr ""))
                   (Leaf (VStr "expect_total")) (Leaf (VInt 0)));
              SetIsChunkFinalized true;
              SetActionsResults
                [{| ar_action := Some (Leaf (VStr "update_guidance"));
                    ar_input := None;
                    ar_result :=
                      RGuidance
                        (TDict [("finalized", Leaf (VBool true));
                                ("guidance",
                                 guidance_of (Leaf (VStr "")) (Leaf (VStr ""))
                                   (Leaf (VStr "expect_total")) (Leaf (VInt 0)))]) |}]],
          Examples.empty_document).
Proof.
  destruct (@finalization_gate Examples.runtime Examples.collaborators
              (Examples.state_after Examples.finalize_text 2)
              [TDict [("action", Leaf (VStr "update_guidance"));
                      ("input", TDict [("pending_action", Leaf (VStr "expect_total"))])]]
              Examples.empty_document) as [Hsole _].
  - exists Examples.finalize_text,
      [("actions",
        TList [TDict [("action", Leaf (VStr "update_guidance"));
                      ("input", TDict [("pending_action", Leaf (VStr "expect_total"))])]])].
    split; [vm_compute; reflexivity|].
    split; [vm_compute; reflexivity|].
    split; [reflexivity|discriminate].
  - apply (Hsole (TDict [("action", Leaf (VStr "update_guidance"));
                         ("input", TDict [("pending_action", Leaf (VStr "expect_total"))])])
                  [("pending_action", Leaf (VStr "expect_total"))]).
    + reflexivity.
    + eexists. split; reflexivity.
    + reflexivity.
    + repeat constructor.
Defined.

(** C1 as worded fails at the reply [{"actions": [{"action":
    "update_guidance", "input": {"pending": "expect_total"}}]}]: the
    actions are one [update_guidance] and nothing else, and the turn
    raises the [TypeError] of the call [update_guidance(pending=...)]
    instead of setting [is_chunk_finalized]. *)
Lemma finalization_gate_counterexample :
  @turn_with_actions Examples.collaborators
    (Examples.state_after Examples.misspelt_finalize_text 2)
    [TDict [("action", Leaf (VStr "update_guidance"));
            ("input", TDict [("pending", Leaf (VStr "expect_total"))])]]
  ∧ sole_finalize
      [TDict [("action", Leaf (VStr "update_guidance"));
              ("input", TDict [("pending", Leaf (VStr "expect_total"))])]]
  ∧ @execute_tools_node Examples.runtime Examples.collaborators
      (Examples.state_after Examples.misspelt_finalize_text 2) Examples.empty_document
    = Some (Raise TypeError, Examples.empty_document).
Proof.
  split; [|split].
  - exists Examples.misspelt_finalize_text,
      [("actions",
        TList [TDict [("action", Leaf (VStr "update_guidance"));
                      ("input", TDict [("pending", Leaf (VStr "expect_total"))])]])].
    split; [vm_compute; reflexivity|].
    split; [vm_compute; reflexivity|].
    split; [reflexivity|discriminate].
  - eexists. split; [reflexivity|]. eexists. split; reflexivity.
  - vm_compute. reflexivity.
Qed.







(** C5 at the self-referential document read with [max_depth = 2]: a
    value is returned and holds no compound two levels down. *)
Lemma read_value_depth_bound_witness :
  ∃ p value tn,
    read_value Examples.cyclic_document (VRef 1%positive) "" 160 2 50 50
      = Some (Ok (ReadFound p value tn))
    ∧ no_compound_from 2 value = true.
Proof.
  destruct (read_value_depth_bound Examples.cyclic_document
              {[1%positive; 2%positive; 3%positive]} (VRef 1%positive) "" 160 2 50 50)
    as [(r & Hr & Hbound) _].
  - vm_compute. reflexivity.
  - vm_compute. reflexivity.
  - assert (Hshape : ∃ p value tn, r = ReadFound p value tn).
    { vm_compute in Hr. injection Hr as <-. do 3 eexists. reflexivity. }
    destruct Hshape as (p & value & tn & ->).
    exists p, value, tn. split; [exact Hr|]. exact (Hbound _ _ _ eq_refl).
Defined.

(** C6 at the self-referential document: the search for [corp] with
    limit [1] returns, with one match. *)
Lemma search_pointer_terminates_bounded_witness :
  ∃ r,
    @search_pointer Examples.runtime Examples.cyclic_document (VRef 1%positive)
      "corp" "value" false 1 120 = Some r
    ∧ sr_count r = list_len (sr_matches r)
    ∧ (sr_count r <= 1)%Z.
Proof.
  destruct (@search_pointer_terminates_bounded Examples.runtime Examples.cyclic_document
              {[1%positive; 2%positive; 3%positive]} (VRef 1%positive)
              "corp" "value" false 1 120)
    as (r & Hr & Hcount & Hle & _).
  - vm_compute. reflexivity.
  - vm_compute. reflexivity.
  - exists r. split; [exact Hr|]. split; [exact Hcount|]. apply Hle. lia.
Defined.

(** C6 as worded fails at the limit [-1]: the search returns no match,
    and [0] is more than the limit. *)
Lemma search_pointer_terminates_bounded_counterexample :
  ∃ r,
    @search_pointer Examples.runtime Examples.cyclic_document (VRef 1%positive)
      "corp" "value" false (-1) 120 = Some r
    ∧ sr_count r = 0%Z
    ∧ sr_truncated r = true
    ∧ ¬ (sr_count r <= -1)%Z.
Proof.
  eexists. split; [vm_compute; reflexivity|].
  split; [reflexivity|]. split; [reflexivity|]. cbn. lia.
Qed.




(** The index found by the replay can also come before the operation
    that failed: the value [{"y": 1}] of the first operation is put in
    the copy of the document as it is, the second operation removes its
    [y], and the replay, which meets the value without [y], stops at the
    second operation, while the run stopped at the third. *)
Example replay_meets_changed_values :
  ∃ error h' h'',
    @apply_patches Examples.runtime (VRef 1%positive)
      [Examples.operation "add" "/x" (Some (VRef 4%positive)) None;
       Examples.operation "remove" "/x/y" None None;
       Examples.operation "remove" "/missing" None None] None
      Examples.document_and_value
    = Some (Ok (PatchFailure error (Some JsonPatchConflict) 1), h')
    ∧ first_unapplied
        [Examples.operation "add" "/x" (Some (VRef 4%positive)) None;
         Examples.operation "remove" "/x/y" None None;
         Examples.operation "remove" "/missing" None None] (VRef 1%positive)
        Examples.document_and_value
      = Some (Ok (Some 2%nat), h'').
Proof. do 3 eexists. split; vm_compute; reflexivity. Qed.

(** * The further theorems at concrete inputs *)

(** Three tokens, with a [/], an empty one and a [~], come back from the
    pointer made of them. *)
Lemma parse_pointer_of_tokens_witness :
  parse_json_pointer (pointer_of_tokens ["a/b"; ""; "m~n"]) = Some ["a/b"; ""; "m~n"].
Proof. apply (parse_pointer_of_tokens ["a/b"; ""; "m~n"]). cbn. discriminate. Defined.

Lemma exact_match_is_fuzzy_match_witness :
  _matches "Client X Corp" "x corp" true = true.
Proof. apply (exact_match_is_fuzzy_match "Client X Corp" "x corp"). vm_compute. reflexivity. Defined.


(** The whole document is within the default limits and is read as it
    is. *)
Lemma read_value_lossless_within_limits_witness :
  ∃ tn,
    type_name Examples.document_and_value (VRef 1%positive) = Some tn
    ∧ read_value Examples.document_and_value (VRef 1%positive) "" 160 6 50 50
      = Some (Ok (ReadFound ""
                    (TDict [("name", Leaf (VStr "Client X Corp"));
                            ("items", TList [TDict [("total", Leaf (VInt 5))]])])
                    tn)).
Proof.
  apply (read_value_lossless_within_limits Examples.document_and_value (VRef 1%positive)
           "" 160 6 50 50 (VRef 1%positive) 4).
  - vm_compute. reflexivity.
  - vm_compute. reflexivity.
  - vm_compute. reflexivity.
Defined.

(** Read with room for no item and one key, the self-referential
    document comes back with lists of one entry and dicts of two at
    most. *)
Lemma read_value_width_bound_witness :
  ∃ p value tn,
    read_value Examples.cyclic_document (VRef 1%positive) "" 160 3 0 1
      = Some (Ok (ReadFound p value tn))
    ∧ width_within 0 1 value = true.
Proof.
  do 3 eexists. split.
  - vm_compute. reflexivity.
  - eapply (read_value_width_bound Examples.cyclic_document (VRef 1%positive) "" 160 3 0 1).
    + lia.
    + lia.
    + vm_compute. reflexivity.
Defined.

Lemma inspect_and_read_agree_on_not_found_witness :
  read_value Examples.cyclic_document (VRef 1%positive) "/missing" 160 6 50 50
  = Some (Ok (ReadNotFound JsonPointerException "/missing")).
Proof.
  destruct (@inspect_and_read_agree_on_not_found Examples.runtime
              Examples.cyclic_document {[1%positive; 2%positive; 3%positive]}
              (VRef 1%positive) "/missing" 160 6 50 50 JsonPointerException)
    as [Hread _].
  - vm_compute. reflexivity.
  - vm_compute. reflexivity.
  - apply Hread. vm_compute. reflexivity.
Defined.

Lemma apply_patches_returns_a_result_witness :
  ∃ r h',
    @apply_patches Examples.runtime (VRef 1%positive) Examples.failing_patches None
      Examples.document_and_value = Some (r, h')
    ∧ ∃ result, r = Ok result
        ∧ match result with
          | PatchSuccess _ applied_count _ =>
              applied_count = list_len Examples.failing_patches
          | PatchFailure _ _ failed_at_index =>
              (0 <= failed_at_index < list_len Examples.failing_patches)%Z
          end.
Proof.
  do 2 eexists. split.
  - vm_compute. reflexivity.
  - eapply (@apply_patches_returns_a_result Examples.runtime (VRef 1%positive)
              Examples.failing_patches None Examples.document_and_value).
    + repeat constructor; intros l; discriminate.
    + vm_compute. reflexivity.
Defined.

Lemma added_member_is_read_back_witness :
  ∃ new_document applied_count message h',
    @apply_patches Examples.runtime (VRef 1%positive)
      [{| jsonpatch.op_op := Some (VStr "add");
          jsonpatch.op_path := Some (VStr (join_pointer "" "x"));
          jsonpatch.op_value := Some (VRef 4%positive);
          jsonpatch.op_from := None |}] None Examples.document_and_value
    = Some (Ok (PatchSuccess new_document applied_count message), h')
    ∧ jsonpointer.resolve_pointer h' new_document (join_pointer "" "x")
      = Some (Ok (VRef 4%positive))
    ∧ resolve_or_root h' new_document (join_pointer "" "x")
      = Some (Ok (VRef 4%positive)).
Proof.
  assert (Hrun : ∃ new_document applied_count message h',
    @apply_patches Examples.runtime (VRef 1%positive)
      [{| jsonpatch.op_op := Some (VStr "add");
          jsonpatch.op_path := Some (VStr (join_pointer "" "x"));
          jsonpatch.op_value := Some (VRef 4%positive);
          jsonpatch.op_from := None |}] None Examples.document_and_value
    = Some (Ok (PatchSuccess new_document applied_count message), h')).
  { do 4 eexists. vm_compute. reflexivity. }
  destruct Hrun as (d & n & msg & h' & Hrun).
  destruct (@added_member_is_read_back Examples.runtime Examples.document_and_value
              1%positive
              [("name", VStr "Client X Corp"); ("items", VRef 2%positive)]
              "x" (VRef 4%positive) None None d n msg h' eq_refl Hrun)
    as [Hlib Hroot].
  exists d, n, msg, h'. split; [exact Hrun|]. split; [exact Hlib|].
  apply Hroot. discriminate.
Defined.

Lemma one_result_per_action_witness :
  ∃ new_document results h' new,
    @execute_actions Examples.runtime
      (Examples.state_after Examples.unknown_action_text 2) Examples.two_actions
      (VRef 1%positive, []) Examples.empty_document
    = Some (Ok (new_document, results), h')
    ∧ results = ([] ++ new)%list
    ∧ length new = 2%nat
    ∧ Forall2 entry_of Examples.two_actions new.
Proof.
  assert (Hrun : ∃ new_document results h',
    @execute_actions Examples.runtime
      (Examples.state_after Examples.unknown_action_text 2) Examples.two_actions
      (VRef 1%positive, []) Examples.empty_document
    = Some (Ok (new_document, results), h')).
  { do 3 eexists. vm_compute. reflexivity. }
  destruct Hrun as (d & rs & h' & Hrun).
  destruct (@one_result_per_action Examples.runtime Examples.collaborators _ _ _ _ _ _ _ _
              Hrun) as (new & Hrs & Hlen & Hall & _).
  exists d, rs, h', new. by split_and!.
Defined.

Lemma dispatcher_touches_no_counter_witness :
  ∃ u h',
    @execute_tools_node Examples.runtime Examples.collaborators
      (Examples.state_after Examples.unknown_action_text 2) Examples.empty_document
    = Some (Ok u, h')
    ∧ dispatcher_update u
    ∧ iteration_count
        (@apply_update Examples.collaborators
           (Examples.state_after Examples.unknown_action_text 2) u) = 1%Z.
Proof.
  assert (Hrun : ∃ u h',
    @execute_tools_node Examples.runtime Examples.collaborators
      (Examples.state_after Examples.unknown_action_text 2) Examples.empty_document
    = Some (Ok u, h')).
  { do 2 eexists. vm_compute. reflexivity. }
  destruct Hrun as (u & h' & Hrun).
  destruct (@dispatcher_touches_no_counter Examples.runtime Examples.collaborators _ _ _ _
              Hrun) as (Hu & _ & _ & Hit & _).
  exists u, h'. by split_and!.
Defined.

(** A reply that is no JSON ends the run. *)
Lemma unreadable_reply_halts_run_witness :
  ∃ final,
    @invoke Examples.runtime Examples.collaborators 3
      {| at_node := ExecuteTools;
         state_of := Examples.state_after "not json" 2;
         llm_calls := 1 |} Examples.empty_document
    = Some (Ok final, Examples.empty_document)
    ∧ at_node final = END
    ∧ error (state_of final)
      = Some "Error parsing LLM response: Expecting value: line 1 column 1 (char 0)"
    ∧ llm_calls final = 1%nat.
Proof.
  destruct (@unreadable_reply_halts_run Examples.runtime Examples.collaborators
              (Examples.state_after "not json" 2) 1%nat Examples.empty_document)
    as (message & final & _ & Hmsg & _ & Hend & Herr & _ & Hcalls & Hinvoke).
  - right. exists "not json", "Expecting value: line 1 column 1 (char 0)".
    split; vm_compute; reflexivity.
  - vm_compute. discriminate.
  - exists final. split; [apply Hinvoke; lia|]. split; [exact Hend|].
    split; [|exact Hcalls]. rewrite Herr. f_equal.
    change (last_ai_message (messages (Examples.state_after "not json" 2)))
      with (Some "not json") in Hmsg.
    destruct Hmsg as (e & He & ->). vm_compute in He. by injection He as <-.
Defined.

(** One chunk and a cap of two: the run makes two model calls. *)
Lemma run_model_calls_bound_witness :
  ∃ final h',
    @invoke Examples.runtime Examples.collaborators 10 (Examples.run_start 2)
      Examples.empty_document = Some (Ok final, h')
    ∧ at_node final = END
    ∧ llm_calls final = 2%nat
    ∧ (llm_calls final <= 1 * 2)%nat.
Proof.
  assert (Hrun : ∃ final h',
    @invoke Examples.runtime Examples.collaborators 10 (Examples.run_start 2)
      Examples.empty_document = Some (Ok final, h') ∧ llm_calls final = 2%nat).
  { do 2 eexists. split; vm_compute; reflexivity. }
  destruct Hrun as (final & h' & Hrun & Hcalls).
  destruct (@run_model_calls_bound Examples.runtime Examples.collaborators
              (Examples.run_start 2) Examples.empty_document 10 final h'
              eq_refl eq_refl Hrun) as (Hend & _ & Hbound).
  exists final, h'. split_and!; [done..|exact Hbound].
Defined.


Lemma extract_without_chunks_witness :
  ∃ d h',
    @extract Examples.runtime Examples.collaborators 2 "" None 20 Examples.empty_document
    = Some (Ok {| result_json_document := VRef d; total_chunks := 0;
                  final_guidance := TDict [];
                  result_error := Some "No text provided for processing." |}, h')
    ∧ h' !! d = Some (ODict []).
Proof.
  destruct (@extract_without_chunks Examples.runtime Examples.collaborators 2 "" None 20
              Examples.empty_document) as (d & h' & Hrun & Hd & _).
  - lia.
  - reflexivity.
  - exists d, h'. by split.
Defined.

(** The search for the key [total] in the self-referential document
    finds it under the first item, and the pointer leads there. *)
Lemma search_pointer_matches_resolve_witness :
  Forall (@sound_match Examples.runtime Examples.cyclic_document (VRef 1%positive)
            "total" "key" false 120)
    [KeyMatch "/items/0/total" "total" "5"].
Proof.
  apply (@search_pointer_matches_resolve Examples.runtime Examples.cyclic_document
           (VRef 1%positive) "total" "key" false 10 120
           {| sr_query := "total"; sr_type := "key"; sr_fuzzy := false;
              sr_matches := [KeyMatch "/items/0/total" "total" "5"];
              sr_count := 1; sr_truncated := false |}).
  - vm_compute. reflexivity.
  - vm_compute. reflexivity.
Defined.
